(** * AokChain: governance store, retarget engine, PoW check, LRU cache
      and block-template assembler

    A shallow embedding of
    - [src/governance/governance.cpp]  (class [CGovernance]),
    - [pow.cpp]                        ([GetNextTargetRequired],
                                        [CalculateNextTargetRequired],
                                        [CheckProofOfWork]),
    - [src/tokens/tokentypes.h]        (class [CLRUCache]),
    - [miner.cpp]                      (class [BlockAssembler],
                                        [GetWitnessCommitmentIndexPos],
                                        [CheckFirstCoinstakeOutput]),
    together with the properties the specification states about them, and
    with further properties of the same functions and of their neighbours
    in these files: how the operations compose, what they do at the edges,
    and what they keep. *)

From Stdlib Require Import ZArith Lia.
From Stdlib.Strings Require Import Byte.
From stdpp Require Import gmap list fin_maps sorting.

Open Scope Z_scope.

(** ** Machine integers *)

(** [unsigned int]: arithmetic modulo 2^32. *)
Definition wrap32 (z : Z) : Z := z mod 2 ^ 32.

(** [uint64_t]: arithmetic modulo 2^64. *)
Definition wrap64 (z : Z) : Z := z mod 2 ^ 64.

(** ** Scripts: byte strings *)

#[global] Instance byte_eq_dec : EqDecision byte := Byte.byte_eq_dec.

#[global] Program Instance byte_countable : Countable byte :=
  inj_countable Byte.to_N Byte.of_N _.
Next Obligation. intros x. apply Byte.of_to_N. Qed.

Abbreviation CScript := (list byte).
Abbreviation CAmount := Z (only parsing).

Definition COIN : CAmount := 100000000.

(** * The governance store *)

Module Governance.

(** [CScript() << ParseHex("6885777789")]: one push of five bytes. *)
Definition DUMMY_SCRIPT : CScript := [x05; x68; x85; x77; x77; x89].
Definition DUMMY_TYPE : Z := 0.

Definition GOVERNANCE_COST_ROOT : Z := 1.
Definition GOVERNANCE_COST_REISSUE : Z := 2.
Definition GOVERNANCE_COST_UNIQUE : Z := 3.
Definition GOVERNANCE_COST_SUB : Z := 4.
Definition GOVERNANCE_COST_USERNAME : Z := 5.

(** The part of [CChainParams] that [Init] reads.  [TokenFeeScript] is
    [GetScriptForDestination(DecodeDestination(TokenFeeAddress()))]; the
    address decoder is outside the files modelled here. *)
Record CChainParams := {
  RootFeeAmount : CAmount;
  ReissueFeeAmount : CAmount;
  UniqueFeeAmount : CAmount;
  SubFeeAmount : CAmount;
  UsernameFeeAmount : CAmount;
  TokenFeeScript : CScript
}.

(** [CMainParams]: the fee amounts of [chainparams.cpp] and the
    pay-to-pubkey-hash script of [KdZFAFeKV8C5JzdEdgcPYDZku92KkD3fHy]. *)
Definition CMainParams : CChainParams := {|
  RootFeeAmount := 10000 * COIN;
  ReissueFeeAmount := 10000 * COIN;
  UniqueFeeAmount := 100 * COIN;
  SubFeeAmount := 100 * COIN;
  UsernameFeeAmount := 1 * COIN;
  TokenFeeScript :=
    [x76; xa9; x14;
     x4c; xe0; xfa; x1e; xe0; x7d; x8b; x1a; x21; x94;
     x3e; xbc; x66; x71; xff; x95; x4f; xcf; x35; xfd;
     x88; xac]
|}.

(** [CTestNetParams]: the fee amounts of [chainparams.cpp] and the
    pay-to-pubkey-hash script of [TufvYmro3vSfDerUAjvjXMjYqUsFw6iWS7]. *)
Definition CTestNetParams : CChainParams := {|
  RootFeeAmount := 10000 * COIN;
  ReissueFeeAmount := 10000 * COIN;
  UniqueFeeAmount := 100 * COIN;
  SubFeeAmount := 100 * COIN;
  UsernameFeeAmount := 1 * COIN;
  TokenFeeScript :=
    [x76; xa9; x14;
     xdf; x60; xba; x8c; x9e; xac; xf3; x42; x78; xf9;
     x9f; x46; xaa; x99; x22; x60; x1a; xb7; x52; x68;
     x88; xac]
|}.

(** ** The database

    [CGovernance] extends [CDBWrapper], an ordered key/value store.  Every
    key starts with a tag byte, so the store splits into five families that
    never collide:
    - ['G']                      the init flag,
    - ['N']                      the frozen counter ([unsigned int]),
    - ['a'] script               [FreezeEntry  -> FreezeDetails],
    - ['c'] type height          [CostEntry    -> CostDetails],
    - ['f'] height               [FeeEntry     -> FeeDetails]. *)
Record CDBWrapper := {
  db_init : option bool;
  db_number_frozen : option Z;
  db_address : gmap CScript bool;
  db_cost : gmap (Z * Z) CAmount;
  db_fee_address : gmap Z CScript
}.

Definition empty_db : CDBWrapper := {|
  db_init := None;
  db_number_frozen := None;
  db_address := ∅;
  db_cost := ∅;
  db_fee_address := ∅
|}.

(** [CDBBatch]: the writes and erases queued by one call, applied in order
    by [WriteBatch]. *)
Inductive BatchEntry :=
| WriteInit (init : bool)
| WriteNumberFrozen (number : Z)
| WriteFreeze (script : CScript) (frozen : bool)
| WriteCost (type height : Z) (cost : CAmount)
| EraseCost (type height : Z)
| WriteFee (height : Z) (script : CScript)
| EraseFee (height : Z).

Definition apply_entry (db : CDBWrapper) (e : BatchEntry) : CDBWrapper :=
  match e with
  | WriteInit b =>
      {| db_init := Some b; db_number_frozen := db_number_frozen db;
         db_address := db_address db; db_cost := db_cost db;
         db_fee_address := db_fee_address db |}
  | WriteNumberFrozen n =>
      {| db_init := db_init db; db_number_frozen := Some n;
         db_address := db_address db; db_cost := db_cost db;
         db_fee_address := db_fee_address db |}
  | WriteFreeze s b =>
      {| db_init := db_init db; db_number_frozen := db_number_frozen db;
         db_address := <[s := b]> (db_address db); db_cost := db_cost db;
         db_fee_address := db_fee_address db |}
  | WriteCost t h c =>
      {| db_init := db_init db; db_number_frozen := db_number_frozen db;
         db_address := db_address db; db_cost := <[(t, h) := c]> (db_cost db);
         db_fee_address := db_fee_address db |}
  | EraseCost t h =>
      {| db_init := db_init db; db_number_frozen := db_number_frozen db;
         db_address := db_address db; db_cost := delete (t, h) (db_cost db);
         db_fee_address := db_fee_address db |}
  | WriteFee h s =>
      {| db_init := db_init db; db_number_frozen := db_number_frozen db;
         db_address := db_address db; db_cost := db_cost db;
         db_fee_address := <[h := s]> (db_fee_address db) |}
  | EraseFee h =>
      {| db_init := db_init db; db_number_frozen := db_number_frozen db;
         db_address := db_address db; db_cost := db_cost db;
         db_fee_address := delete h (db_fee_address db) |}
  end.

(** [WriteBatch]: the store after the batch, and the success flag.  Disk
    failures are not modelled: the write always succeeds. *)
Definition WriteBatch (db : CDBWrapper) (batch : list BatchEntry)
  : bool * CDBWrapper :=
  (true, fold_left apply_entry batch db).

(** ** Key order of the cost and fee families

    [CDBIterator] walks the keys in the byte order of their serialisation:
    the tag, then each [int] as four little-endian bytes. *)
Definition le32 (z : Z) : list Z :=
  let u := wrap32 z in
  [u mod 256; (u / 256) mod 256; (u / 65536) mod 256; (u / 16777216) mod 256].

Definition DB_COST : Z := 99.         (* 'c' *)
Definition DB_FEE_ADDRESS : Z := 102. (* 'f' *)

Definition ser_CostEntry (k : Z * Z) : list Z :=
  DB_COST :: le32 k.1 ++ le32 k.2.

Definition ser_FeeEntry (h : Z) : list Z :=
  DB_FEE_ADDRESS :: le32 h.

Fixpoint bytes_leb (a b : list Z) : bool :=
  match a, b with
  | [], _ => true
  | _ :: _, [] => false
  | x :: a', y :: b' => if x <? y then true else if y <? x then false
                        else bytes_leb a' b'
  end.

Definition cost_key_le (e1 e2 : (Z * Z) * CAmount) : Prop :=
  bytes_leb (ser_CostEntry e1.1) (ser_CostEntry e2.1) = true.

Definition fee_key_le (e1 e2 : Z * CScript) : Prop :=
  bytes_leb (ser_FeeEntry e1.1) (ser_FeeEntry e2.1) = true.

#[global] Instance cost_key_le_dec e1 e2 : Decision (cost_key_le e1 e2).
Proof. unfold cost_key_le. apply _. Defined.

#[global] Instance fee_key_le_dec e1 e2 : Decision (fee_key_le e1 e2).
Proof. unfold fee_key_le. apply _. Defined.

(** The entries an iterator meets after [Seek(CostEntry())]: the dummy key
    ['c',0,0] is the least key of the family, and the walk stops at the
    first key of another family, so these are all cost entries, in key
    order. *)
Definition cost_entries (db : CDBWrapper) : list ((Z * Z) * CAmount) :=
  merge_sort cost_key_le (map_to_list (db_cost db)).

Definition fee_entries (db : CDBWrapper) : list (Z * CScript) :=
  merge_sort fee_key_le (map_to_list (db_fee_address db)).

(** [Read(entry, details)] on each family: [None] when the key is absent. *)
Definition ReadFreeze (script : CScript) (db : CDBWrapper) : option bool :=
  db_address db !! script.

Definition ReadCost (type height : Z) (db : CDBWrapper) : option CAmount :=
  db_cost db !! (type, height).

Definition ReadFee (height : Z) (db : CDBWrapper) : option CScript :=
  db_fee_address db !! height.

Section Store.

(** The value an uninitialised [unsigned int number] holds when
    [Read(DB_NUMBER_FROZEN, number)] finds no counter. *)
Variable indeterminate : Z.

(** [Params()]: the chain parameters selected for the process, a global.
    [Init] takes the fee address from them, and the fee amounts from its
    argument. *)
Variable Params : CChainParams.

Definition ReadNumberFrozen (db : CDBWrapper) : Z :=
  match db_number_frozen db with
  | Some number => number
  | None => indeterminate
  end.

(** [CGovernance::Init] *)
Definition Init (fWipe : bool) (chainparams : CChainParams) (db : CDBWrapper)
  : bool * CDBWrapper :=
  if fWipe || negb (bool_decide (is_Some (db_init db)))
     || negb (default false (db_init db))
  then
    let batch :=
      [ WriteNumberFrozen 0;
        (* dummy entries: FreezeEntry() -> FreezeDetails(),
                          CostEntry()   -> CostDetails() *)
        WriteFreeze DUMMY_SCRIPT true;
        WriteCost DUMMY_TYPE 0 0;
        WriteCost GOVERNANCE_COST_ROOT 0 (RootFeeAmount chainparams);
        WriteCost GOVERNANCE_COST_REISSUE 0 (SubFeeAmount chainparams);
        WriteCost GOVERNANCE_COST_UNIQUE 0 (UniqueFeeAmount chainparams);
        WriteCost GOVERNANCE_COST_SUB 0 (ReissueFeeAmount chainparams);
        WriteCost GOVERNANCE_COST_USERNAME 0 (UsernameFeeAmount chainparams);
        WriteFee 0 (TokenFeeScript Params);
        WriteInit true ] in
    (true, (WriteBatch db batch).2)
  else (true, db).

(** [CGovernance::GetNumberOfFrozenScripts] *)
Definition GetNumberOfFrozenScripts (db : CDBWrapper) : Z :=
  ReadNumberFrozen db.

(** [CGovernance::FreezeScript] *)
Definition FreezeScript (script : CScript) (db : CDBWrapper)
  : bool * CDBWrapper :=
  let number := ReadNumberFrozen db in
  match ReadFreeze script db with
  | Some frozen =>
      if negb frozen then
        WriteBatch db [WriteFreeze script true;
                       WriteNumberFrozen (wrap32 (number + 1))]
      else
        WriteBatch db [WriteFreeze script frozen]
  | None =>
      WriteBatch db [WriteFreeze script true;
                     WriteNumberFrozen (wrap32 (number + 1))]
  end.

(** [CGovernance::UnfreezeScript] *)
Definition UnfreezeScript (script : CScript) (db : CDBWrapper)
  : bool * CDBWrapper :=
  let number := ReadNumberFrozen db in
  match ReadFreeze script db with
  | Some frozen =>
      if frozen then
        WriteBatch db [WriteFreeze script false;
                       WriteNumberFrozen (wrap32 (number - 1))]
      else
        WriteBatch db [WriteFreeze script frozen]
  | None =>
      WriteBatch db [WriteFreeze script false]
  end.

(** [CGovernance::RevertFreezeScript]; [false] is the "database is
    corrupted" outcome. *)
Definition RevertFreezeScript (script : CScript) (db : CDBWrapper)
  : bool * CDBWrapper :=
  let number := ReadNumberFrozen db in
  match ReadFreeze script db with
  | Some frozen =>
      if frozen then
        WriteBatch db [WriteNumberFrozen (wrap32 (number - 1));
                       WriteFreeze script false]
      else (false, db)
  | None => (false, db)
  end.

(** [CGovernance::RevertUnfreezeScript] *)
Definition RevertUnfreezeScript (script : CScript) (db : CDBWrapper)
  : bool * CDBWrapper :=
  let number := ReadNumberFrozen db in
  match ReadFreeze script db with
  | Some frozen =>
      if negb frozen then
        WriteBatch db [WriteNumberFrozen (wrap32 (number + 1));
                       WriteFreeze script true]
      else (false, db)
  | None => (false, db)
  end.

(** [CGovernance::ScriptExist] *)
Definition ScriptExist (script : CScript) (db : CDBWrapper) : bool :=
  bool_decide (is_Some (ReadFreeze script db)).

(** [CGovernance::CanSend] *)
Definition CanSend (script : CScript) (db : CDBWrapper) : bool :=
  if negb (ScriptExist script db) then true
  else negb (default true (ReadFreeze script db)).

(** [CGovernance::GetCost]: the loop body keeps [(height, details.cost)]. *)
Definition GetCost_step (type : Z) (acc : Z * CAmount)
    (e : (Z * Z) * CAmount) : Z * CAmount :=
  if (e.1.1 =? type) && (e.1.2 >? acc.1) then (e.1.2, e.2) else acc.

Definition GetCost (type : Z) (db : CDBWrapper) : CAmount :=
  (fold_left (GetCost_step type) (cost_entries db) (-1, 0)).2.

Definition known_cost_type (type : Z) : bool :=
  (type =? GOVERNANCE_COST_ROOT) || (type =? GOVERNANCE_COST_REISSUE)
  || (type =? GOVERNANCE_COST_UNIQUE) || (type =? GOVERNANCE_COST_SUB)
  || (type =? GOVERNANCE_COST_USERNAME).

(** [CGovernance::UpdateCost] *)
Definition UpdateCost (cost : CAmount) (type height : Z) (db : CDBWrapper)
  : bool * CDBWrapper :=
  if negb (known_cost_type type) then (false, db)
  else
    match ReadCost type height db with
    | None => WriteBatch db [WriteCost type height cost]
    | Some _ => WriteBatch db []
    end.

(** [CGovernance::RevertUpdateCost] *)
Definition RevertUpdateCost (type height : Z) (db : CDBWrapper)
  : bool * CDBWrapper :=
  match ReadCost type height db with
  | Some _ => WriteBatch db [EraseCost type height]
  | None => (false, db)
  end.

(** [CGovernance::GetFeeScript] *)
Definition GetFeeScript_step (acc : Z * CScript) (e : Z * CScript)
  : Z * CScript :=
  if e.1 >? acc.1 then (e.1, e.2) else acc.

Definition GetFeeScript (db : CDBWrapper) : CScript :=
  (fold_left GetFeeScript_step (fee_entries db) (-1, DUMMY_SCRIPT)).2.

(** [CGovernance::UpdateFeeScript] *)
Definition UpdateFeeScript (script : CScript) (height : Z) (db : CDBWrapper)
  : bool * CDBWrapper :=
  match ReadFee height db with
  | None => WriteBatch db [WriteFee height script]
  | Some _ => WriteBatch db []
  end.

(** [CGovernance::RevertUpdateFeeScript] *)
Definition RevertUpdateFeeScript (height : Z) (db : CDBWrapper)
  : bool * CDBWrapper :=
  match ReadFee height db with
  | Some _ => WriteBatch db [EraseFee height]
  | None => (false, db)
  end.

(** ** Histories of freeze operations *)

Inductive FreezeOp :=
| OpFreeze (script : CScript)
| OpUnfreeze (script : CScript)
| OpRevertFreeze (script : CScript)
| OpRevertUnfreeze (script : CScript).

Definition run_op (o : FreezeOp) (db : CDBWrapper) : bool * CDBWrapper :=
  match o with
  | OpFreeze s => FreezeScript s db
  | OpUnfreeze s => UnfreezeScript s db
  | OpRevertFreeze s => RevertFreezeScript s db
  | OpRevertUnfreeze s => RevertUnfreezeScript s db
  end.

(** The stores reachable from [Init] on a fresh database. *)
Inductive reachable (chainparams : CChainParams) : CDBWrapper → Prop :=
| reachable_Init fWipe :
    reachable chainparams (Init fWipe chainparams empty_db).2
| reachable_op o db :
    reachable chainparams db → reachable chainparams (run_op o db).2.

End Store.

(** The scripts that may not send: the freeze entries stored as frozen. *)
Definition blocked_of (m : gmap CScript bool) : gset CScript :=
  dom (filter (λ kv : CScript * bool, kv.2 = true) m).

Definition blocked_scripts (db : CDBWrapper) : gset CScript :=
  blocked_of (db_address db).

(** The counter is stored, is an [unsigned int], and is one less than the
    number of blocked scripts modulo 2^32. *)
Definition counter_inv (db : CDBWrapper) : Prop :=
  ∃ n, db_number_frozen db = Some n ∧ 0 <= n < 2 ^ 32 ∧
       wrap32 (n + 1) = wrap32 (Z.of_nat (size (blocked_of (db_address db)))).

(** The store with the entry of [s] set to [b] and the counter set to [n]:
    every other entry, the cost table, the fee table and the init flag are
    those of [db]. *)
Definition with_freeze (s : CScript) (b : bool) (n : Z) (db : CDBWrapper)
  : CDBWrapper :=
  {| db_init := db_init db;
     db_number_frozen := Some n;
     db_address := <[s := b]> (db_address db);
     db_cost := db_cost db;
     db_fee_address := db_fee_address db |}.

(** Two sample stores: the main-net store after [Init], with the main-net
    parameters selected, and after freezing the one-byte script [OP_1] in
    it. *)
Definition store_after_init : CDBWrapper :=
  (Init CMainParams false CMainParams empty_db).2.

Definition store_after_freeze : CDBWrapper :=
  (FreezeScript 0 [x51] store_after_init).2.

(** ** Key order of the freeze family

    [serialize.h] is not among the sources: the serialisation of a
    [CScript] (a length prefix and the bytes) is a parameter.  The key of a
    freeze entry is the tag ['a'] and the serialised script. *)
Definition DB_ADDRESS : Z := 97.      (* 'a' *)

Section FreezeWalk.

(** [s << script] *)
Variable ser_script : CScript → list Z.

Definition ser_FreezeEntry (script : CScript) : list Z :=
  DB_ADDRESS :: ser_script script.

Definition freeze_key_le (e1 e2 : CScript * bool) : Prop :=
  bytes_leb (ser_FreezeEntry e1.1) (ser_FreezeEntry e2.1) = true.

#[global] Instance freeze_key_le_dec e1 e2 : Decision (freeze_key_le e1 e2).
Proof. unfold freeze_key_le. apply _. Defined.

(** The entries an iterator meets after [Seek(FreezeEntry(DUMMY_SCRIPT))]:
    the walk starts at the first key that is not below the key of the
    dummy script and stops at the first key of another family (the tags
    ['G'] and ['N'] sort below ['a'], the tags ['c'] and ['f'] above it), so
    these are the freeze entries whose key is not below the dummy key, in
    key order. *)
Definition freeze_entries (db : CDBWrapper) : list (CScript * bool) :=
  filter (freeze_key_le (DUMMY_SCRIPT, true))
    (merge_sort freeze_key_le (map_to_list (db_address db))).

(** [CGovernance::DumpFreezeStats]: the entries are appended to the
    caller's vector. *)
Definition DumpFreezeStats (FreezeVector : list (CScript * bool))
    (db : CDBWrapper) : bool * list (CScript * bool) :=
  (true, FreezeVector ++ freeze_entries db).

(** [CGovernance::GetFrozenScripts] *)
Definition GetFrozenScripts (FreezeVector : list CScript) (db : CDBWrapper)
  : bool * list CScript :=
  (true,
   FreezeVector ++ (fst <$> filter (λ e, e.2 = true) (freeze_entries db))).

End FreezeWalk.

(** A sample serialisation, for scripts shorter than 253 bytes: one byte
    for the length, then the bytes. *)
Definition ser_short_script (script : CScript) : list Z :=
  Z.of_nat (length script) :: ((λ b, Z.of_N (Byte.to_N b)) <$> script).

End Governance.
(** * The retarget engine and the proof-of-work check *)

Module Pow.

(** ** 256-bit unsigned integers and the compact form *)

Definition wrap256 (z : Z) : Z := z mod 2 ^ 256.

(** Modelled from the spec: class [arith_uint256] ([arith_uint256.h],
    [arith_uint256.cpp]) is not among the sources.  The spec speaks of
    "big-endian 256-bit bounds", "256-bit unsigned comparison" and of the
    compact target as "a 4-byte exponent+mantissa encoding of a 256-bit
    bound"; the definitions below are that encoding: the top byte of
    [nCompact] is the size in bytes, the low 23 bits the mantissa, bit
    0x00800000 the sign.  [bits] is the position of the highest set bit
    plus one. *)
Definition bits (v : Z) : Z := if v =? 0 then 0 else Z.log2 v + 1.

(** Modelled from the spec: [arith_uint256::SetCompact], returning the
    decoded value, the negative flag and the overflow flag. *)
Definition SetCompact (nCompact : Z) : Z * bool * bool :=
  let nSize := Z.shiftr nCompact 24 in
  let nWord := Z.land nCompact 0x007fffff in
  let value :=
    if nSize <=? 3 then Z.shiftr nWord (8 * (3 - nSize))
    else wrap256 (Z.shiftl nWord (8 * (nSize - 3))) in
  let fNegative :=
    negb (nWord =? 0) && negb (Z.land nCompact 0x00800000 =? 0) in
  let fOverflow :=
    negb (nWord =? 0) &&
    ((nSize >? 34) || ((nWord >? 0xff) && (nSize >? 33))
     || ((nWord >? 0xffff) && (nSize >? 32))) in
  (value, fNegative, fOverflow).

(** Modelled from the spec: [arith_uint256::GetCompact] (of a non-negative
    value). *)
Definition GetCompact (v : Z) : Z :=
  let nSize := (bits v + 7) / 8 in
  let nCompact :=
    if nSize <=? 3 then wrap32 (Z.shiftl (wrap64 v) (8 * (3 - nSize)))
    else wrap32 (wrap64 (Z.shiftr v (8 * (nSize - 3)))) in
  let '(nCompact, nSize) :=
    if negb (Z.land nCompact 0x00800000 =? 0)
    then (Z.shiftr nCompact 8, nSize + 1)
    else (nCompact, nSize) in
  Z.lor nCompact (Z.shiftl nSize 24).

(** Modelled from the spec: [base_uint::operator*=(uint32_t)], the overload
    an [int64_t] argument selects; the factor is cut to 32 bits and the
    product to 256 bits. *)
Definition mul_u32 (a : Z) (b32 : Z) : Z := wrap256 (a * wrap32 b32).

(** Modelled from the spec: [base_uint::operator/=(const base_uint&)]; an
    [int64_t] argument is converted through [uint64_t].  [None]: division
    by zero. *)
Definition div_u64 (a : Z) (b : Z) : option Z :=
  if wrap64 b =? 0 then None else Some (a / wrap64 b).

(** ** Consensus parameters and the block index *)

Record Params := {
  powLimit : Z;
  posLimit : Z;
  nTargetTimespan : Z;
  nTargetSpacing : Z;
  fPowNoRetargeting : bool;
  fPosNoRetargeting : bool
}.

(** [CMainParams], [CTestNetParams] and [CRegTestParams] of
    [chainparams.cpp]. *)
Definition MainConsensus : Params := {|
  powLimit := 0x003fffffffffffffffffffffffffffffffffffffffffffffffffffffffffffff;
  posLimit := 0x000000000000ffffffffffffffffffffffffffffffffffffffffffffffffffff;
  nTargetTimespan := 16 * 60;
  nTargetSpacing := 64;
  fPowNoRetargeting := false;
  fPosNoRetargeting := false
|}.

Definition TestNetConsensus : Params := {|
  powLimit := 0x003fffffffffffffffffffffffffffffffffffffffffffffffffffffffffffff;
  posLimit := 0x000000000000ffffffffffffffffffffffffffffffffffffffffffffffffffff;
  nTargetTimespan := 16 * 60;
  nTargetSpacing := 64;
  fPowNoRetargeting := true;
  fPosNoRetargeting := true
|}.

Definition RegTestConsensus : Params := {|
  powLimit := 0x7fffffffffffffffffffffffffffffffffffffffffffffffffffffffffffffff;
  posLimit := 0x7fffffffffffffffffffffffffffffffffffffffffffffffffffffffffffffff;
  nTargetTimespan := 2016 * 60;
  nTargetSpacing := 1 * 60;
  fPowNoRetargeting := true;
  fPosNoRetargeting := true
|}.

(** The fields of [CBlockIndex] the retarget engine reads.  [pprev] is the
    rest of the chain: a [const CBlockIndex*] is the list of the block and
    its predecessors, newest first, and [NULL] is the empty list. *)
Record CBlockIndex := {
  nTime : Z;
  nBits : Z;
  IsProofOfStake : bool
}.

Definition GetBlockTime (b : CBlockIndex) : Z := nTime b.

(** Modelled from the spec: [GetLastBlockIndex] is not among the sources;
    it yields "the latest block of the same kind", walking [pprev] while
    the block is of the other kind and has a predecessor. *)
Fixpoint GetLastBlockIndex (pindex : list CBlockIndex) (fProofOfStake : bool)
  : list CBlockIndex :=
  match pindex with
  | [] => []
  | b :: pprev =>
      match pprev with
      | [] => pindex
      | _ :: _ =>
          if negb (Bool.eqb (IsProofOfStake b) fProofOfStake)
          then GetLastBlockIndex pprev fProofOfStake
          else pindex
      end
  end.

(** [GetTargetLimit] *)
Definition GetTargetLimit (nTime : Z) (fProofOfStake : bool) (params : Params)
  : Z :=
  if fProofOfStake then posLimit params else powLimit params.

(** [CalculateNextTargetRequired].  [int64_t] arithmetic is exact: block
    times are 32-bit and signed overflow is undefined.  [None]: the call
    does not return (division by zero). *)
Definition CalculateNextTargetRequired (pindexLast : CBlockIndex)
    (nFirstBlockTime : Z) (params : Params) : option Z :=
  let fProofOfStake := IsProofOfStake pindexLast in
  if negb fProofOfStake && fPowNoRetargeting params then
    Some (nBits pindexLast)
  else if fProofOfStake && fPosNoRetargeting params then
    Some (nBits pindexLast)
  else
    let nActualSpacing := GetBlockTime pindexLast - nFirstBlockTime in
    let nTargetSpacing := nTargetSpacing params in
    let nActualSpacing :=
      if nActualSpacing <? 0 then nTargetSpacing else nActualSpacing in
    let nActualSpacing :=
      if nActualSpacing >? nTargetSpacing * 10 then nTargetSpacing * 10
      else nActualSpacing in
    let bnTargetLimit :=
      GetTargetLimit (GetBlockTime pindexLast) fProofOfStake params in
    let bnNew := (SetCompact (nBits pindexLast)).1.1 in
    if nTargetSpacing =? 0 then None
    else
      let nInterval := Z.quot (nTargetTimespan params) nTargetSpacing in
      let bnNew :=
        mul_u32 bnNew ((nInterval - 1) * nTargetSpacing
                       + nActualSpacing + nActualSpacing) in
      match div_u64 bnNew ((nInterval + 1) * nTargetSpacing) with
      | None => None
      | Some bnNew =>
          let bnNew :=
            if (bnNew <=? 0) || (bnNew >? bnTargetLimit) then bnTargetLimit
            else bnNew in
          Some (GetCompact bnNew)
      end.

(** [GetNextTargetRequired]; [pblock] is not read. *)
Definition GetNextTargetRequired (pindexLast : list CBlockIndex)
    (fProofOfStake : bool) (params : Params) : option Z :=
  let nTargetLimit :=
    GetCompact (if fProofOfStake then posLimit params else powLimit params) in
  match pindexLast with
  | [] => Some nTargetLimit
  | _ :: _ =>
      match GetLastBlockIndex pindexLast fProofOfStake with
      | [] => None
      | pindexPrev :: pprev =>
          match pprev with
          | [] => Some nTargetLimit
          | _ :: _ =>
              match GetLastBlockIndex pprev fProofOfStake with
              | [] => None
              | pindexPrevPrev :: pprevprev =>
                  match pprevprev with
                  | [] => Some nTargetLimit
                  | _ :: _ =>
                      CalculateNextTargetRequired pindexPrev
                        (GetBlockTime pindexPrevPrev) params
                  end
              end
          end
      end
  end.

(** [CheckProofOfWork]; [hash] is the value of the 256-bit block hash. *)
Definition CheckProofOfWork (hash : Z) (nBits : Z) (params : Params) : bool :=
  let '(bnTarget, fNegative, fOverflow) := SetCompact nBits in
  if fNegative || (bnTarget =? 0) || fOverflow
     || (bnTarget >? powLimit params)
  then false
  else if hash >? bnTarget then false
  else true.

(** The retarget formula in the words of the specification: the compact
    encoding of [prevTarget * ((interval - 1) * targetSpacing
    + 2 * actualSpacing) / ((interval + 1) * targetSpacing)], with the
    spacing clamped and the result saturated into (0, targetLimit]. *)
Definition spec_actual_spacing (prevTime prevPrevTime targetSpacing : Z) : Z :=
  let actual := prevTime - prevPrevTime in
  let actual := if actual <? 0 then targetSpacing else actual in
  if actual >? 10 * targetSpacing then 10 * targetSpacing else actual.

Definition spec_saturate (target targetLimit : Z) : Z :=
  if (0 <? target) && (target <=? targetLimit) then target else targetLimit.

Definition spec_next_target (pindexLast : CBlockIndex) (nFirstBlockTime : Z)
    (params : Params) : Z :=
  let targetSpacing := nTargetSpacing params in
  let interval := nTargetTimespan params / targetSpacing in
  let actualSpacing :=
    spec_actual_spacing (GetBlockTime pindexLast) nFirstBlockTime
      targetSpacing in
  let prevTarget := (SetCompact (nBits pindexLast)).1.1 in
  let targetLimit :=
    if IsProofOfStake pindexLast then posLimit params else powLimit params in
  GetCompact
    (spec_saturate
       (prevTarget * ((interval - 1) * targetSpacing + 2 * actualSpacing)
        / ((interval + 1) * targetSpacing))
       targetLimit).

(** The guards of [GetNextTargetRequired]: the chain has a latest block of
    the kind with a predecessor, and the latest block of the kind before it
    has a predecessor too. *)
Definition has_retarget_history (pindexLast : list CBlockIndex)
    (fProofOfStake : bool) : bool :=
  match GetLastBlockIndex pindexLast fProofOfStake with
  | _ :: (_ :: _) as pprev =>
      match GetLastBlockIndex pprev fProofOfStake with
      | _ :: _ :: _ => true
      | _ => false
      end
  | _ => false
  end.

Definition no_retargeting (fProofOfStake : bool) (params : Params) : bool :=
  if fProofOfStake then fPosNoRetargeting params
  else fPowNoRetargeting params.

(** A test-network chain of three proof-of-work blocks at the target limit:
    the genesis block of [chainparams.cpp] and two blocks 30 seconds
    apart. *)
Definition testnet_genesis : CBlockIndex :=
  {| nTime := 1630926558; nBits := 0x1f3fffff; IsProofOfStake := false |}.

Definition testnet_chain : list CBlockIndex :=
  [ {| nTime := 1630926658; nBits := 0x1f3fffff; IsProofOfStake := false |};
    {| nTime := 1630926628; nBits := 0x1f3fffff; IsProofOfStake := false |};
    testnet_genesis ].

(** A main-network proof-of-work block below the target limit, found 100
    seconds after its predecessor. *)
Definition mainnet_block : CBlockIndex :=
  {| nTime := 1589879427; nBits := 0x1e0fffff; IsProofOfStake := false |}.

End Pow.

(** * The least-recently-used cache *)

Module LRU.

Section Cache.

Context {K : Type} `{Countable K} {V : Type}.

(** [std::list<key_value_pair_t>]: each list node has an identity, the
    value of the iterators that point at it; [std::unordered_map] maps a
    key to such an iterator.  [next_node] is the identity the next
    [push_front] allocates. *)
Definition list_node : Type := nat * (K * V).

Definition node_id (e : list_node) : nat := e.1.
Definition node_key (e : list_node) : K := e.2.1.
Definition node_value (e : list_node) : V := e.2.2.

Record CLRUCache := mkCLRUCache {
  cacheItemsList : list list_node;
  cacheItemsMap : gmap K nat;
  maxSize : nat;
  next_node : nat
}.

(** [list.erase(it)] *)
Definition list_erase (it : nat) (l : list list_node) : list list_node :=
  filter (λ e, node_id e ≠ it) l.

(** [*it], the node an iterator points at *)
Definition list_deref (it : nat) (l : list list_node) : option list_node :=
  head (filter (λ e, node_id e = it) l).

(** [list.begin()] *)
Definition list_begin (l : list list_node) : option nat :=
  node_id <$> head l.

(** [CLRUCache(size_t max_size)] *)
Definition new_cache (max_size : nat) : CLRUCache :=
  mkCLRUCache [] ∅ max_size 0.

(** [CLRUCache::Clear] *)
Definition Clear (c : CLRUCache) : CLRUCache :=
  mkCLRUCache [] ∅ (maxSize c) (next_node c).

(** [CLRUCache::SetNull], and with it the default constructor *)
Definition SetNull (c : CLRUCache) : CLRUCache :=
  Clear (mkCLRUCache (cacheItemsList c) (cacheItemsMap c) 0 (next_node c)).

(** [CLRUCache::Put] *)
Definition Put (key : K) (value : V) (c : CLRUCache) : CLRUCache :=
  let it := cacheItemsMap c !! key in
  let l := (next_node c, (key, value)) :: cacheItemsList c in
  let lm :=
    match it with
    | Some i => (list_erase i l, delete key (cacheItemsMap c))
    | None => (l, cacheItemsMap c)
    end in
  let l := lm.1 in
  let m :=
    match list_begin l with
    | Some b => <[key := b]> lm.2
    | None => lm.2
    end in
  if decide (maxSize c < size m)%nat then
    match last l with
    | Some e =>
        mkCLRUCache (removelast l) (delete (node_key e) m) (maxSize c)
          (S (next_node c))
    | None => mkCLRUCache l m (maxSize c) (S (next_node c))
    end
  else mkCLRUCache l m (maxSize c) (S (next_node c)).

(** [CLRUCache::Erase] *)
Definition Erase (key : K) (c : CLRUCache) : CLRUCache :=
  match cacheItemsMap c !! key with
  | Some i =>
      mkCLRUCache (list_erase i (cacheItemsList c))
        (delete key (cacheItemsMap c)) (maxSize c) (next_node c)
  | None => c
  end.

(** [CLRUCache::Get]: [None] is the [std::range_error]; otherwise the
    value and the cache with the node spliced to the front. *)
Definition Get (key : K) (c : CLRUCache) : option (V * CLRUCache) :=
  match cacheItemsMap c !! key with
  | None => None
  | Some i =>
      match list_deref i (cacheItemsList c) with
      | Some e =>
          Some (node_value e,
                mkCLRUCache (e :: list_erase i (cacheItemsList c))
                  (cacheItemsMap c) (maxSize c) (next_node c))
      | None => None
      end
  end.

(** [CLRUCache::Exists] *)
Definition Exists (key : K) (c : CLRUCache) : bool :=
  bool_decide (is_Some (cacheItemsMap c !! key)).

(** [CLRUCache::Size] *)
Definition Size (c : CLRUCache) : nat := size (cacheItemsMap c).

(** [CLRUCache::MaxSize] *)
Definition MaxSize (c : CLRUCache) : nat := maxSize c.

(** [CLRUCache::SetSize] *)
Definition SetSize (size : nat) (c : CLRUCache) : CLRUCache :=
  mkCLRUCache (cacheItemsList c) (cacheItemsMap c) size (next_node c).

(** ** Sequences of operations *)

Inductive CacheOp :=
| OpPut (key : K) (value : V)
| OpGet (key : K)
| OpErase (key : K)
| OpClear
| OpSetSize (size : nat).

(** A [Get] that throws leaves the cache as it was. *)
Definition run_op (c : CLRUCache) (o : CacheOp) : CLRUCache :=
  match o with
  | OpPut key value => Put key value c
  | OpGet key => match Get key c with Some r => r.2 | None => c end
  | OpErase key => Erase key c
  | OpClear => Clear c
  | OpSetSize size => SetSize size c
  end.

Definition run (ops : list CacheOp) (c : CLRUCache) : CLRUCache :=
  fold_left run_op ops c.

(** No [SetSize] of the sequence sets the capacity below the number of
    entries held when it is called. *)
Fixpoint no_shrink (ops : list CacheOp) (c : CLRUCache) : bool :=
  match ops with
  | [] => true
  | o :: ops' =>
      match o with
      | OpSetSize size => bool_decide (Size c ≤ size)%nat
      | _ => true
      end && no_shrink ops' (run_op c o)
  end.

(** The keys held by the recency list. *)
Definition list_keys (c : CLRUCache) : list K :=
  node_key <$> cacheItemsList c.

(** The representation invariant: node identities and keys are not
    repeated in the list, the map sends a key to the node that holds it and
    to nothing else, and every identity in use is below the allocation
    counter. *)
Definition sync (l : list list_node) (m : gmap K nat) (n : nat) : Prop :=
  NoDup (node_id <$> l) ∧
  NoDup (node_key <$> l) ∧
  (∀ k i, m !! k = Some i ↔ ∃ v, (i, (k, v)) ∈ l) ∧
  (∀ e, e ∈ l → (node_id e < n)%nat).

Definition wf (c : CLRUCache) : Prop :=
  sync (cacheItemsList c) (cacheItemsMap c) (next_node c).

(** [CLRUCache::GetItemsList]: the pairs of the recency list, the most
    recently used first. *)
Definition GetItemsList (c : CLRUCache) : list (K * V) :=
  snd <$> cacheItemsList c.

(** [CLRUCache::GetItemsMap] *)
Definition GetItemsMap (c : CLRUCache) : gmap K nat := cacheItemsMap c.

(** No [SetSize] among the operations. *)
Definition no_SetSize (ops : list CacheOp) : bool :=
  forallb (λ o, match o with OpSetSize _ => false | _ => true end) ops.

End Cache.

Arguments CLRUCache K {_ _} V.
Arguments CacheOp K V : clear implicits.

(** Two runs on a cache of capacity 2 with numbers as keys and values. *)
Definition sample_ops : list (CacheOp nat nat) :=
  [OpPut 1 10; OpPut 2 20; OpPut 3 30; OpGet 2; OpSetSize 5; OpErase 3]%nat.

Definition shrinking_ops : list (CacheOp nat nat) :=
  [OpPut 1 10; OpPut 2 20; OpSetSize 1; OpPut 3 30]%nat.

(** A cache of capacity 2 that holds the keys 2 and 1, key 2 used last. *)
Definition sample_cache : CLRUCache nat nat :=
  run [OpPut 1 10; OpPut 2 20]%nat (new_cache 2).

End LRU.

(** * The block-template assembler *)

Module Miner.

(** ** The mempool, as the assembler sees it

    [txmempool.h] is not among the sources.  A [CTxMemPool::txiter] is the
    position of an entry in the pool; [setEntries] is a list without
    repetition. *)
Abbreviation txiter := nat (only parsing).

(** Modelled from the spec: class [CTxMemPoolEntry], "a transaction plus
    precomputed size, sigop cost, fee, entry time, and ancestor/descendant
    aggregates: (count, total size, total modified fee, total sigop cost)".
    The fields are the accessors that [miner.cpp] calls. *)
Record CTxMemPoolEntry := {
  GetTxSize : Z;
  GetTxWeight : Z;
  GetSigOpCost : Z;
  GetFee : Z;
  GetModifiedFee : Z;
  GetHash : Z;
  GetCountWithAncestors : Z;
  GetSizeWithAncestors : Z;
  GetModFeesWithAncestors : Z;
  GetSigOpCostWithAncestors : Z
}.

(** Modelled from the spec: class [CTxMemPool].  [mapTx] gives the entry
    behind an iterator, [ancestor_score] is the order of the index of that
    name, [CalculateMemPoolAncestors] "populates ancestors under parents"
    (the entry itself is not among them), [CalculateDescendants] gives "the
    iterator's closure under the children relation" (the entry itself is
    among them). *)
Record CTxMemPool := {
  mapTx : txiter → CTxMemPoolEntry;
  ancestor_score : list txiter;
  CalculateMemPoolAncestors : txiter → list txiter;
  CalculateDescendants : txiter → list txiter
}.

(** Modelled from the spec: [CTxMemPoolModifiedEntry] of [miner.h], an
    entry of the "modifiedSet (entries whose ancestor aggregates are stale
    because some of their ancestors were already included)", with the three
    aggregates that [addPackageTxs] reads from it. *)
Record CTxMemPoolModifiedEntry := {
  iter : txiter;
  nSizeWithAncestors : Z;
  nModFeesWithAncestors : Z;
  nSigOpCostWithAncestors : Z
}.

(** The members of [BlockAssembler] that the selection loop writes.  [vtx]
    holds the selected transactions in block order, after the coinbase
    placeholder (and the coinstake placeholder of a proof-of-stake
    template). *)
Record BlockAssembler := {
  inBlock : list txiter;
  vtx : list txiter;
  vTxFees : list Z;
  vTxSigOpsCost : list Z;
  nBlockWeight : Z;
  nBlockTx : Z;
  nBlockSigOpsCost : Z;
  nFees : Z
}.

(** The locals of [addPackageTxs]; [mi] is the part of the [ancestor_score]
    index not yet visited. *)
Record LoopState := {
  asm : BlockAssembler;
  mapModifiedTx : list CTxMemPoolModifiedEntry;
  failedTx : list txiter;
  mi : list txiter;
  nConsecutiveFailed : Z;
  nPackagesSelected : Z;
  nDescendantsUpdated : Z
}.

Inductive LoopResult :=
| Continue (st : LoopState)
| Return (st : LoopState)
| AssertionFailed.

Inductive Outcome :=
| Done (st : LoopState)
| Aborted
| OutOfFuel.

Definition sum_over (f : txiter → Z) (l : list txiter) : Z :=
  foldr (λ x acc, f x + acc) 0 l.

(** [setEntries::insert] *)
Definition set_insert (x : txiter) (s : list txiter) : list txiter :=
  if bool_decide (x ∈ s) then s else s ++ [x].

(** [BlockAssembler::BlockAssembler]: the clamp of [nBlockMaxWeight]
    between 4000 and [GetMaxBlockWeight() - 4000], in [size_t]. *)
Definition clamp_nBlockMaxWeight (GetMaxBlockWeight options_nBlockMaxWeight : Z)
  : Z :=
  Z.max 4000 (Z.min (wrap64 (GetMaxBlockWeight - 4000))
                (wrap64 options_nBlockMaxWeight)).

(** [BlockAssembler::resetBlock] *)
Definition resetBlock : BlockAssembler := {|
  inBlock := [];
  vtx := [];
  vTxFees := [];
  vTxSigOpsCost := [];
  nBlockWeight := 4000;
  nBlockTx := 0;
  nBlockSigOpsCost := 400;
  nFees := 0
|}.

Section Assembler.

Variable mempool : CTxMemPool.

(** [IsFinalTx(tx, nHeight, nLockTimeCutoff)] at the height and cutoff of
    the template. *)
Variable IsFinalTx : txiter → bool.

(** [CompareModifiedEntry] of [miner.h]: the first entry has the higher
    ancestor feerate. *)
Variable CompareModifiedEntry :
  CTxMemPoolModifiedEntry → CTxMemPoolModifiedEntry → bool.

(** [blockMinFeeRate.GetFee(size)] *)
Variable blockMinFeeRate_GetFee : Z → Z.

(** Constants of [consensus/consensus.h] and the assembler's option. *)
Variable WITNESS_SCALE_FACTOR : Z.
Variable MAX_BLOCK_SIGOPS_COST : Z.
Variable nBlockMaxWeight : Z.

Definition entry (it : txiter) : CTxMemPoolEntry := mapTx mempool it.

(** [BlockAssembler::onlyUnconfirmed] *)
Definition onlyUnconfirmed (a : BlockAssembler) (testSet : list txiter)
  : list txiter :=
  filter (λ it, it ∉ inBlock a) testSet.

(** The package of a candidate: its ancestors that are not yet in the
    block, and the candidate itself. *)
Definition package_of (a : BlockAssembler) (it : txiter) : list txiter :=
  set_insert it (onlyUnconfirmed a (CalculateMemPoolAncestors mempool it)).

(** [BlockAssembler::TestPackage]; the sums are [uint64_t]. *)
Definition TestPackage (a : BlockAssembler) (packageSize packageSigOpsCost : Z)
  : bool :=
  if wrap64 (nBlockWeight a + wrap64 (WITNESS_SCALE_FACTOR * packageSize))
     >=? nBlockMaxWeight
  then false
  else if wrap64 (nBlockSigOpsCost a + packageSigOpsCost)
          >=? MAX_BLOCK_SIGOPS_COST
  then false
  else true.

(** [BlockAssembler::TestPackageTransactions] *)
Definition TestPackageTransactions (package : list txiter) : bool :=
  forallb IsFinalTx package.

(** [BlockAssembler::AddToBlock] *)
Definition AddToBlock (a : BlockAssembler) (it : txiter) : BlockAssembler := {|
  inBlock := set_insert it (inBlock a);
  vtx := vtx a ++ [it];
  vTxFees := vTxFees a ++ [GetFee (entry it)];
  vTxSigOpsCost := vTxSigOpsCost a ++ [GetSigOpCost (entry it)];
  nBlockWeight := wrap64 (nBlockWeight a + GetTxWeight (entry it));
  nBlockTx := nBlockTx a + 1;
  nBlockSigOpsCost := wrap64 (nBlockSigOpsCost a + GetSigOpCost (entry it));
  nFees := nFees a + GetFee (entry it)
|}.

(** [CTxMemPoolModifiedEntry(txiter)] *)
Definition ModifiedEntry_of (it : txiter) : CTxMemPoolModifiedEntry := {|
  iter := it;
  nSizeWithAncestors := GetSizeWithAncestors (entry it);
  nModFeesWithAncestors := GetModFeesWithAncestors (entry it);
  nSigOpCostWithAncestors := GetSigOpCostWithAncestors (entry it)
|}.

(** Modelled from the spec: [update_for_parent_inclusion] of [miner.h],
    "subtracting the added entry's contributions from each descendant's
    aggregate".  The branch of [UpdatePackagesForAdded] that inserts a new
    entry takes the same amounts off; the size is [uint64_t]. *)
Definition without_parent (parent : txiter) (e : CTxMemPoolModifiedEntry)
  : CTxMemPoolModifiedEntry := {|
  iter := iter e;
  nSizeWithAncestors :=
    wrap64 (nSizeWithAncestors e - GetTxSize (entry parent));
  nModFeesWithAncestors :=
    nModFeesWithAncestors e - GetModifiedFee (entry parent);
  nSigOpCostWithAncestors :=
    nSigOpCostWithAncestors e - GetSigOpCost (entry parent)
|}.

(** [mapModifiedTx.find], [.erase], [.modify] by iterator key, and the
    first entry of its [ancestor_score] index. *)
Definition modified_find (it : txiter) (m : list CTxMemPoolModifiedEntry)
  : option CTxMemPoolModifiedEntry :=
  head (filter (λ e, iter e = it) m).

Definition modified_count (it : txiter) (m : list CTxMemPoolModifiedEntry)
  : bool :=
  bool_decide (is_Some (modified_find it m)).

Definition modified_erase (it : txiter) (m : list CTxMemPoolModifiedEntry)
  : list CTxMemPoolModifiedEntry :=
  filter (λ e, iter e ≠ it) m.

Definition modified_modify (it : txiter)
    (f : CTxMemPoolModifiedEntry → CTxMemPoolModifiedEntry)
    (m : list CTxMemPoolModifiedEntry) : list CTxMemPoolModifiedEntry :=
  (λ e, if bool_decide (iter e = it) then f e else e) <$> m.

Definition modified_begin (m : list CTxMemPoolModifiedEntry)
  : option CTxMemPoolModifiedEntry :=
  match m with
  | [] => None
  | e :: m' =>
      Some (fold_left (λ best e', if CompareModifiedEntry e' best then e'
                                   else best) m' e)
  end.

(** [BlockAssembler::UpdatePackagesForAdded]: the body of the inner loop,
    the inner loop, and the outer loop.  The accumulator is
    [(mapModifiedTx, nDescendantsUpdated)]. *)
Definition update_descendant (alreadyAdded : list txiter) (it : txiter)
    (acc : list CTxMemPoolModifiedEntry * Z) (desc : txiter)
  : list CTxMemPoolModifiedEntry * Z :=
  if bool_decide (desc ∈ alreadyAdded) then acc
  else
    match modified_find desc acc.1 with
    | None =>
        (acc.1 ++ [without_parent it (ModifiedEntry_of desc)], acc.2 + 1)
    | Some _ =>
        (modified_modify desc (without_parent it) acc.1, acc.2 + 1)
    end.

Definition update_for_added (alreadyAdded : list txiter)
    (acc : list CTxMemPoolModifiedEntry * Z) (it : txiter)
  : list CTxMemPoolModifiedEntry * Z :=
  fold_left (update_descendant alreadyAdded it)
    (CalculateDescendants mempool it) acc.

Definition UpdatePackagesForAdded (alreadyAdded : list txiter)
    (m : list CTxMemPoolModifiedEntry)
  : list CTxMemPoolModifiedEntry * Z :=
  fold_left (update_for_added alreadyAdded) alreadyAdded (m, 0).

(** [BlockAssembler::SkipMapTxEntry] *)
Definition SkipMapTxEntry (a : BlockAssembler) (it : txiter)
    (m : list CTxMemPoolModifiedEntry) (failed : list txiter) : bool :=
  modified_count it m || bool_decide (it ∈ inBlock a)
  || bool_decide (it ∈ failed).

(** Modelled from the spec: [CompareTxIterByAncestorCount] of
    [txmempool.h], "sort the package by ancestor count"; equal counts are
    ordered by transaction hash. *)
Definition CompareTxIterByAncestorCount (a b : txiter) : Prop :=
  GetCountWithAncestors (entry a) < GetCountWithAncestors (entry b) ∨
  (GetCountWithAncestors (entry a) = GetCountWithAncestors (entry b) ∧
   GetHash (entry a) <= GetHash (entry b)).

#[global] Instance CompareTxIterByAncestorCount_dec a b :
  Decision (CompareTxIterByAncestorCount a b).
Proof. unfold CompareTxIterByAncestorCount. apply _. Defined.

(** [BlockAssembler::SortForBlock] *)
Definition SortForBlock (package : list txiter) : list txiter :=
  merge_sort CompareTxIterByAncestorCount package.

Definition MAX_CONSECUTIVE_FAILURES : Z := 1000.

(** The package is rejected: a modified entry is erased and remembered as
    failed. *)
Definition fail_candidate (st : LoopState) (it : txiter)
    (fUsingModified : bool) (mi' : list txiter) (failures : Z) : LoopState := {|
  asm := asm st;
  mapModifiedTx :=
    if fUsingModified then modified_erase it (mapModifiedTx st)
    else mapModifiedTx st;
  failedTx :=
    if fUsingModified then set_insert it (failedTx st) else failedTx st;
  mi := mi';
  nConsecutiveFailed := failures;
  nPackagesSelected := nPackagesSelected st;
  nDescendantsUpdated := nDescendantsUpdated st
|}.

(** The body of the [while] loop of [addPackageTxs], from the choice of
    the candidate on: [it] is the candidate, [modit] the modified entry when
    [fUsingModified], [mi'] the cursor after the choice. *)
Definition evaluate_candidate (st : LoopState) (it : txiter)
    (modit : option CTxMemPoolModifiedEntry) (mi' : list txiter)
  : LoopResult :=
  let a := asm st in
  let fUsingModified := bool_decide (is_Some modit) in
  if bool_decide (it ∈ inBlock a) then AssertionFailed
  else
    let packageSize :=
      match modit with
      | Some e => nSizeWithAncestors e
      | None => GetSizeWithAncestors (entry it)
      end in
    let packageFees :=
      match modit with
      | Some e => nModFeesWithAncestors e
      | None => GetModFeesWithAncestors (entry it)
      end in
    let packageSigOpsCost :=
      match modit with
      | Some e => nSigOpCostWithAncestors e
      | None => GetSigOpCostWithAncestors (entry it)
      end in
    if packageFees <? blockMinFeeRate_GetFee packageSize then
      Return (fail_candidate st it false mi' (nConsecutiveFailed st))
    else if negb (TestPackage a packageSize packageSigOpsCost) then
      let st' :=
        fail_candidate st it fUsingModified mi' (nConsecutiveFailed st + 1) in
      if (nConsecutiveFailed st + 1 >? MAX_CONSECUTIVE_FAILURES)
         && (nBlockWeight a >? wrap64 (nBlockMaxWeight - 4000))
      then Return st' else Continue st'
    else
      let ancestors := package_of a it in
      if negb (TestPackageTransactions ancestors) then
        Continue
          (fail_candidate st it fUsingModified mi' (nConsecutiveFailed st))
      else
        let sortedEntries := SortForBlock ancestors in
        let added :=
          fold_left (λ am x, (AddToBlock am.1 x, modified_erase x am.2))
            sortedEntries (a, mapModifiedTx st) in
        let updated := UpdatePackagesForAdded ancestors added.2 in
        Continue {|
          asm := added.1;
          mapModifiedTx := updated.1;
          failedTx := failedTx st;
          mi := mi';
          nConsecutiveFailed := 0;
          nPackagesSelected := nPackagesSelected st + 1;
          nDescendantsUpdated := nDescendantsUpdated st + updated.2
        |}.

(** One pass through the [while] loop of [addPackageTxs]; the loop
    condition holds. *)
Definition addPackageTxs_step (st : LoopState) : LoopResult :=
  match mi st with
  | it :: mi' =>
      if SkipMapTxEntry (asm st) it (mapModifiedTx st) (failedTx st) then
        Continue {|
          asm := asm st;
          mapModifiedTx := mapModifiedTx st;
          failedTx := failedTx st;
          mi := mi';
          nConsecutiveFailed := nConsecutiveFailed st;
          nPackagesSelected := nPackagesSelected st;
          nDescendantsUpdated := nDescendantsUpdated st
        |}
      else
        match modified_begin (mapModifiedTx st) with
        | Some modit =>
            if CompareModifiedEntry modit (ModifiedEntry_of it) then
              evaluate_candidate st (iter modit) (Some modit) (mi st)
            else evaluate_candidate st it None mi'
        | None => evaluate_candidate st it None mi'
        end
  | [] =>
      match modified_begin (mapModifiedTx st) with
      | Some modit => evaluate_candidate st (iter modit) (Some modit) []
      | None => Return st
      end
  end.

(** The [while] loop, with a bound on the number of passes. *)
Fixpoint addPackageTxs_loop (fuel : nat) (st : LoopState) : Outcome :=
  match mi st, mapModifiedTx st with
  | [], [] => Done st
  | _, _ =>
      match fuel with
      | O => OutOfFuel
      | S fuel' =>
          match addPackageTxs_step st with
          | Continue st' => addPackageTxs_loop fuel' st'
          | Return st' => Done st'
          | AssertionFailed => Aborted
          end
      end
  end.

(** [BlockAssembler::addPackageTxs] *)
Definition addPackageTxs_init (a : BlockAssembler) : LoopState :=
  let updated := UpdatePackagesForAdded (inBlock a) [] in
  {| asm := a;
     mapModifiedTx := updated.1;
     failedTx := [];
     mi := ancestor_score mempool;
     nConsecutiveFailed := 0;
     nPackagesSelected := 0;
     nDescendantsUpdated := updated.2 |}.

Definition addPackageTxs (fuel : nat) (a : BlockAssembler) : Outcome :=
  addPackageTxs_loop fuel (addPackageTxs_init a).

(** The selection part of [BlockAssembler::CreateNewBlock]: [resetBlock]
    and then [addPackageTxs]. *)
Definition CreateNewBlock (fuel : nat) : Outcome :=
  addPackageTxs fuel resetBlock.

End Assembler.

(** ** What the assembler relies on in the mempool

    The aggregates of an entry are the sums over its ancestors and itself;
    an ancestor has a smaller ancestor count; ancestors of ancestors are
    ancestors; a descendant other than the entry itself has the entry among
    its ancestors and is in the pool; the weight of a transaction is at
    most [WITNESS_SCALE_FACTOR] times its virtual size; sizes are far below
    2^63. *)
Section Consistency.

Variable mempool : CTxMemPool.
Variable WITNESS_SCALE_FACTOR : Z.

Definition size_of (x : txiter) : Z := GetTxSize (mapTx mempool x).
Definition weight_of (x : txiter) : Z := GetTxWeight (mapTx mempool x).
Definition sigops_of (x : txiter) : Z := GetSigOpCost (mapTx mempool x).
Definition count_of (x : txiter) : Z :=
  GetCountWithAncestors (mapTx mempool x).

Record consistent : Prop := {
  ancestors_closed : ∀ x a b,
    a ∈ CalculateMemPoolAncestors mempool x →
    b ∈ CalculateMemPoolAncestors mempool a →
    b ∈ CalculateMemPoolAncestors mempool x;
  ancestors_count : ∀ x a,
    a ∈ CalculateMemPoolAncestors mempool x → count_of a < count_of x;
  ancestors_NoDup : ∀ x, NoDup (CalculateMemPoolAncestors mempool x);
  descendants_ancestors : ∀ x d,
    d ∈ CalculateDescendants mempool x →
    d = x ∨ x ∈ CalculateMemPoolAncestors mempool d;
  descendants_NoDup : ∀ x, NoDup (CalculateDescendants mempool x);
  descendants_pool : ∀ x d,
    d ∈ CalculateDescendants mempool x → d ∈ ancestor_score mempool;
  size_nonneg : ∀ x, 0 <= size_of x;
  weight_nonneg : ∀ x, 0 <= weight_of x;
  sigops_nonneg : ∀ x, 0 <= sigops_of x;
  weight_size : ∀ x, weight_of x <= WITNESS_SCALE_FACTOR * size_of x;
  size_with_ancestors : ∀ x,
    GetSizeWithAncestors (mapTx mempool x)
    = size_of x + sum_over size_of (CalculateMemPoolAncestors mempool x);
  sigops_with_ancestors : ∀ x,
    GetSigOpCostWithAncestors (mapTx mempool x)
    = sigops_of x + sum_over sigops_of (CalculateMemPoolAncestors mempool x);
  scale_pos : 0 < WITNESS_SCALE_FACTOR;
  size_range : ∀ x,
    WITNESS_SCALE_FACTOR * GetSizeWithAncestors (mapTx mempool x) < 2 ^ 63;
  sigops_range : ∀ x, GetSigOpCostWithAncestors (mapTx mempool x) < 2 ^ 63
}.

(** ** The loop invariant *)

Variable MAX_BLOCK_SIGOPS_COST : Z.
Variable nBlockMaxWeight : Z.

(** The share of [x] and of its ancestors outside the set [B]. *)
Definition pending (f : txiter → Z) (B : list txiter) (x : txiter) : Z :=
  f x + sum_over f (filter (λ a, a ∉ B) (CalculateMemPoolAncestors mempool x)).

(** Every transaction of the template has its ancestors before it. *)
Definition ancestors_first (l : list txiter) : Prop :=
  ∀ l1 x l2, l = l1 ++ x :: l2 →
  ∀ b, b ∈ CalculateMemPoolAncestors mempool x → b ∈ l1.

Definition block_ok (a : BlockAssembler) : Prop :=
  (∀ x, x ∈ inBlock a ↔ x ∈ vtx a) ∧
  ancestors_first (vtx a) ∧
  nBlockWeight a = 4000 + sum_over weight_of (vtx a) ∧
  nBlockWeight a <= nBlockMaxWeight ∧
  nBlockSigOpsCost a = 400 + sum_over sigops_of (vtx a) ∧
  nBlockSigOpsCost a <= MAX_BLOCK_SIGOPS_COST.

(** A modified entry never understates what is left of its package. *)
Definition modified_ok (B : list txiter) (e : CTxMemPoolModifiedEntry) : Prop :=
  pending size_of B (iter e) <= nSizeWithAncestors e ∧
  nSizeWithAncestors e <= GetSizeWithAncestors (mapTx mempool (iter e)) ∧
  pending sigops_of B (iter e) <= nSigOpCostWithAncestors e ∧
  nSigOpCostWithAncestors e
  <= GetSigOpCostWithAncestors (mapTx mempool (iter e)).

Definition loop_inv (st : LoopState) : Prop :=
  block_ok (asm st) ∧
  ∀ e, e ∈ mapModifiedTx st →
       (iter e ∉ inBlock (asm st)) ∧ modified_ok (inBlock (asm st)) e.

(** ** Why the loop ends

    Each pass that is not the last either adds a package, so that fewer
    transactions of the pool are outside the block, or moves the cursor or
    drops a modified entry, so that fewer candidates are left to visit. *)
Definition outside (st : LoopState) : nat :=
  length (filter (λ x, x ∉ inBlock (asm st)) (ancestor_score mempool)).

Definition to_visit (st : LoopState) : nat :=
  (length (mi st) + length (mapModifiedTx st))%nat.

Definition candidates_in_pool (st : LoopState) : Prop :=
  (∀ x, x ∈ mi st → x ∈ ancestor_score mempool) ∧
  (∀ e, e ∈ mapModifiedTx st → iter e ∈ ancestor_score mempool).

Definition progress (st : LoopState) (r : LoopResult) : Prop :=
  match r with
  | Continue st' =>
      candidates_in_pool st' ∧
      ((outside st' ≤ outside st ∧ to_visit st' < to_visit st)%nat ∨
       (outside st' < outside st)%nat)
  | Return _ => True
  | AssertionFailed => False
  end.

(** ** The accounts of the template

    What [AddToBlock] keeps beside the transaction list: the fee and sigop
    vectors run parallel to it, [nBlockTx] counts it and [nFees] is the sum
    of its fees; no transaction is listed twice and every one passed
    [IsFinalTx]. *)
Definition fee_of (x : txiter) : Z := GetFee (mapTx mempool x).

Definition accounts_ok (IsFinalTx : txiter → bool) (a : BlockAssembler)
  : Prop :=
  NoDup (vtx a) ∧
  (∀ x, x ∈ vtx a → IsFinalTx x = true) ∧
  nBlockTx a = Z.of_nat (length (vtx a)) ∧
  nFees a = sum_over fee_of (vtx a) ∧
  vTxFees a = fee_of <$> vtx a ∧
  vTxSigOpsCost a = sigops_of <$> vtx a.

End Consistency.

(** ** A sample pool: scenario S2 of the specification

    A parent with fee 1000, an independent transaction with fee 10000 and a
    child of the parent with fee 50000, each of virtual size 200; iterator
    0 is the parent, 1 the independent transaction, 2 the child. *)
Definition parent_tx : CTxMemPoolEntry := {|
  GetTxSize := 200; GetTxWeight := 800; GetSigOpCost := 4;
  GetFee := 1000; GetModifiedFee := 1000; GetHash := 11;
  GetCountWithAncestors := 1; GetSizeWithAncestors := 200;
  GetModFeesWithAncestors := 1000; GetSigOpCostWithAncestors := 4
|}.

Definition medium_tx : CTxMemPoolEntry := {|
  GetTxSize := 200; GetTxWeight := 800; GetSigOpCost := 4;
  GetFee := 10000; GetModifiedFee := 10000; GetHash := 12;
  GetCountWithAncestors := 1; GetSizeWithAncestors := 200;
  GetModFeesWithAncestors := 10000; GetSigOpCostWithAncestors := 4
|}.

Definition child_tx : CTxMemPoolEntry := {|
  GetTxSize := 200; GetTxWeight := 800; GetSigOpCost := 4;
  GetFee := 50000; GetModifiedFee := 50000; GetHash := 13;
  GetCountWithAncestors := 2; GetSizeWithAncestors := 400;
  GetModFeesWithAncestors := 51000; GetSigOpCostWithAncestors := 8
|}.

Definition no_tx : CTxMemPoolEntry := {|
  GetTxSize := 0; GetTxWeight := 0; GetSigOpCost := 0;
  GetFee := 0; GetModifiedFee := 0; GetHash := 0;
  GetCountWithAncestors := 0; GetSizeWithAncestors := 0;
  GetModFeesWithAncestors := 0; GetSigOpCostWithAncestors := 0
|}.

Definition sample_pool : CTxMemPool := {|
  mapTx := λ x,
    match x with
    | 0%nat => parent_tx
    | 1%nat => medium_tx
    | 2%nat => child_tx
    | _ => no_tx
    end;
  ancestor_score := [2; 1; 0]%nat;
  CalculateMemPoolAncestors := λ x,
    match x with
    | 2%nat => [0%nat]
    | _ => []
    end;
  CalculateDescendants := λ x,
    match x with
    | 0%nat => [0; 2]%nat
    | 1%nat => [1%nat]
    | 2%nat => [2%nat]
    | _ => []
    end
|}.

(** The comparison by cross-multiplied feerate, and a minimum feerate of
    1000 per 1000 bytes. *)
Definition sample_compare (a b : CTxMemPoolModifiedEntry) : bool :=
  nModFeesWithAncestors a * nSizeWithAncestors b
  >? nModFeesWithAncestors b * nSizeWithAncestors a.

Definition sample_min_fee (size : Z) : Z := 1000 * size / 1000.

Definition sample_CreateNewBlock (fuel : nat) : Outcome :=
  CreateNewBlock sample_pool (λ _, true) sample_compare sample_min_fee
    4 80000 (clamp_nBlockMaxWeight 4000000 3996000) fuel.

End Miner.

(** * The coinbase of a proof-of-stake template

    [GetWitnessCommitmentIndexPos] and [CheckFirstCoinstakeOutput] of
    [miner.cpp] read the outputs of the first transaction of a block. *)

Module Coinstake.

(** [CTxOut], [CTransaction] and [CBlock], as far as the two functions read
    them. *)
Record CTxOut := {
  nValue : CAmount;
  scriptPubKey : CScript
}.

Record CTransaction := {
  vout : list CTxOut
}.

Record CBlock := {
  vtx : list CTransaction
}.

(** [int commitpos = o]: the conversion of a [size_t] to [int]. *)
Definition int_of_size_t (o : Z) : Z := (o + 2 ^ 31) mod 2 ^ 32 - 2 ^ 31.

Section Commitment.

(** [OP_RETURN] of [script/script.h] and [CTxOut::IsEmpty] of
    [primitives/transaction.h], which are not among the sources. *)
Variable OP_RETURN : byte.
Variable IsEmpty : CTxOut → bool.

(** The test of the loop body: at least 38 bytes, starting with
    [OP_RETURN 0x24 0xaa 0x21 0xa9 0xed]. *)
Definition is_commitment (out : CTxOut) : bool :=
  (Z.of_nat (length (scriptPubKey out)) >=? 38) &&
  match scriptPubKey out with
  | b0 :: b1 :: b2 :: b3 :: b4 :: b5 :: _ =>
      bool_decide (b0 = OP_RETURN) && bool_decide (b1 = x24)
      && bool_decide (b2 = xaa) && bool_decide (b3 = x21)
      && bool_decide (b4 = xa9) && bool_decide (b5 = xed)
  | _ => false
  end.

(** The loop over the outputs; the accumulator is [(o, commitpos)]. *)
Definition commitment_step (acc : Z * Z) (out : CTxOut) : Z * Z :=
  (acc.1 + 1, if is_commitment out then int_of_size_t acc.1 else acc.2).

(** [GetWitnessCommitmentIndexPos] *)
Definition GetWitnessCommitmentIndexPos (block : CBlock) : Z :=
  match vtx block with
  | [] => -1
  | tx0 :: _ => (fold_left commitment_step (vout tx0) (0, -1)).2
  end.

(** [CheckFirstCoinstakeOutput]; [None]: [block.vtx[0]] of a block without
    transactions.  [vout[0]] and [vout[1]] are read only after the test of
    the size. *)
Definition CheckFirstCoinstakeOutput (block : CBlock) : option bool :=
  let commitpos := GetWitnessCommitmentIndexPos block in
  match vtx block with
  | [] => None
  | tx0 :: _ =>
      if commitpos <? 0 then
        match vout tx0 with
        | [out0] => if negb (IsEmpty out0) then Some false else Some true
        | _ => Some false
        end
      else
        match vout tx0 with
        | [out0; out1] =>
            if negb (IsEmpty out0) || negb (nValue out1 =? 0)
            then Some false else Some true
        | _ => Some false
        end
  end.

End Commitment.

(** A coinbase with an empty first output and a commitment as second. *)
Definition sample_commitment : CTxOut :=
  {| nValue := 0;
     scriptPubKey := [x6a; x24; xaa; x21; xa9; xed] ++ repeat x00 32 |}.

Definition sample_coinbase : CBlock :=
  {| vtx := [ {| vout := [ {| nValue := 0; scriptPubKey := [] |};
                           sample_commitment ] |} ] |}.

End Coinstake.

(** * Proofs *)


Module GovernanceProofs.
Import Governance.

(** ** Arithmetic of the [unsigned int] counter *)

Lemma wrap32_range z : 0 <= wrap32 z < 2 ^ 32.
Proof. unfold wrap32. apply Z.mod_pos_bound. lia. Qed.

Lemma wrap32_small z : 0 <= z < 2 ^ 32 → wrap32 z = z.
Proof. unfold wrap32. intros. apply Z.mod_small. lia. Qed.

Lemma wrap32_succ_congr a b :
  wrap32 (a + 1) = wrap32 b → wrap32 (wrap32 (a + 1) + 1) = wrap32 (b + 1).
Proof.
  unfold wrap32. intros H. rewrite H. apply Zplus_mod_idemp_l.
Qed.

Lemma wrap32_pred_congr a b :
  wrap32 (a + 1) = wrap32 b → wrap32 (wrap32 (a - 1) + 1) = wrap32 (b - 1).
Proof.
  unfold wrap32. intros H. rewrite Zplus_mod_idemp_l.
  replace (a - 1 + 1) with (a + 1 - 1) by lia.
  rewrite Zminus_mod, H, <- Zminus_mod. reflexivity.
Qed.

(** ** The blocked set *)

Lemma elem_of_blocked_of m s : s ∈ blocked_of m ↔ m !! s = Some true.
Proof.
  unfold blocked_of. rewrite elem_of_dom. split.
  - intros [b Hb]. apply map_lookup_filter_Some in Hb as [Hb Hp].
    simpl in Hp. by subst.
  - intros H. exists true. by apply map_lookup_filter_Some.
Qed.

Lemma blocked_of_insert_true m s :
  m !! s ≠ Some true →
  blocked_of (<[s := true]> m) = {[s]} ∪ blocked_of m ∧ s ∉ blocked_of m.
Proof.
  intros H. split.
  - apply set_eq. intros x.
    rewrite elem_of_union, elem_of_singleton, !elem_of_blocked_of.
    destruct (decide (x = s)) as [->|Hne].
    + rewrite lookup_insert_eq. tauto.
    + rewrite lookup_insert_ne by done. tauto.
  - by rewrite elem_of_blocked_of.
Qed.

Lemma blocked_of_insert_false m s :
  blocked_of (<[s := false]> m) = blocked_of m ∖ {[s]}.
Proof.
  apply set_eq. intros x.
  rewrite elem_of_difference, elem_of_singleton, !elem_of_blocked_of.
  destruct (decide (x = s)) as [->|Hne].
  - rewrite lookup_insert_eq. split; [congruence|tauto].
  - rewrite lookup_insert_ne by done. tauto.
Qed.

Lemma size_blocked_insert_true m s :
  m !! s ≠ Some true →
  Z.of_nat (size (blocked_of (<[s := true]> m)))
  = Z.of_nat (size (blocked_of m)) + 1.
Proof.
  intros H. destruct (blocked_of_insert_true m s H) as [-> Hn].
  rewrite size_union by set_solver. rewrite size_singleton. lia.
Qed.

Lemma size_blocked_insert_false_frozen m s :
  m !! s = Some true →
  Z.of_nat (size (blocked_of (<[s := false]> m)))
  = Z.of_nat (size (blocked_of m)) - 1.
Proof.
  intros H. rewrite blocked_of_insert_false.
  assert (Hin : s ∈ blocked_of m) by by apply elem_of_blocked_of.
  assert (Hsub : ({[s]} : gset CScript) ⊆ blocked_of m) by set_solver.
  pose proof (size_difference _ _ Hsub) as Hd.
  rewrite size_singleton in Hd.
  assert (size (blocked_of m) ≠ 0%nat).
  { intros Hz. apply size_empty_inv in Hz. set_solver. }
  lia.
Qed.

Lemma blocked_insert_false_unfrozen m s :
  m !! s ≠ Some true →
  blocked_of (<[s := false]> m) = blocked_of m.
Proof.
  intros Hs. rewrite blocked_of_insert_false.
  assert (Hn : s ∉ blocked_of m) by by rewrite elem_of_blocked_of.
  apply set_eq. intros x.
  rewrite elem_of_difference, elem_of_singleton.
  split; [tauto|]. intros Hx. split; [done|]. by intros ->.
Qed.

Lemma elem_of_blocked_scripts db s :
  s ∈ blocked_scripts db ↔ CanSend s db = false.
Proof.
  unfold blocked_scripts.
  rewrite elem_of_blocked_of. unfold CanSend, ScriptExist, ReadFreeze.
  destruct (db_address db !! s) as [[]|] eqn:E; simpl;
    split; congruence.
Qed.

(** ** The counter invariant *)

Lemma counter_inv_Init Params fWipe params :
  counter_inv (Init Params fWipe params empty_db).2.
Proof.
  exists 0. destruct fWipe; vm_compute; repeat split; congruence.
Qed.

Lemma counter_inv_op u o db :
  counter_inv db → counter_inv (run_op u o db).2.
Proof.
  intros (n & Hn & Hr & Hc).
  destruct o as [s|s|s|s]; simpl;
    unfold FreezeScript, UnfreezeScript, RevertFreezeScript,
      RevertUnfreezeScript, ReadNumberFrozen, ReadFreeze;
    rewrite Hn; destruct (db_address db !! s) as [[]|] eqn:E; simpl;
    unfold counter_inv; simpl.
  (* FreezeScript *)
  - exists n. rewrite insert_id by done. auto.
  - exists (wrap32 (n + 1)). split; [done|]. split; [apply wrap32_range|].
    rewrite size_blocked_insert_true by congruence.
    by apply wrap32_succ_congr.
  - exists (wrap32 (n + 1)). split; [done|]. split; [apply wrap32_range|].
    rewrite size_blocked_insert_true by congruence.
    by apply wrap32_succ_congr.
  (* UnfreezeScript *)
  - exists (wrap32 (n - 1)). split; [done|]. split; [apply wrap32_range|].
    rewrite size_blocked_insert_false_frozen by done.
    by apply wrap32_pred_congr.
  - exists n. rewrite insert_id by done. auto.
  - exists n. rewrite blocked_insert_false_unfrozen by congruence. auto.
  (* RevertFreezeScript *)
  - exists (wrap32 (n - 1)). split; [done|]. split; [apply wrap32_range|].
    rewrite size_blocked_insert_false_frozen by done.
    by apply wrap32_pred_congr.
  - exists n. rewrite Hn. auto.
  - exists n. rewrite Hn. auto.
  (* RevertUnfreezeScript *)
  - exists n. rewrite Hn. auto.
  - exists (wrap32 (n + 1)). split; [done|]. split; [apply wrap32_range|].
    rewrite size_blocked_insert_true by congruence.
    by apply wrap32_succ_congr.
  - exists n. rewrite Hn. auto.
Qed.

Lemma reachable_counter_inv u Params params db :
  reachable u Params params db → counter_inv db.
Proof.
  induction 1.
  - apply counter_inv_Init.
  - by apply counter_inv_op.
Qed.

(** C1 (as amended).  In every store reachable from [Init] on a fresh
    database by freeze, unfreeze and revert calls, the scripts for which
    [CanSend] is false are exactly [blocked_scripts], and
    [GetNumberOfFrozenScripts() + 1] equals their number modulo 2^32: the
    dummy script is stored frozen by [Init] and never counted. *)
Theorem frozen_counter_invariant u Params params db :
  reachable u Params params db →
  (∀ s, s ∈ blocked_scripts db ↔ CanSend s db = false) ∧
  wrap32 (GetNumberOfFrozenScripts u db + 1)
  = wrap32 (Z.of_nat (size (blocked_scripts db))).
Proof.
  intros Hr. split; [intros s; apply elem_of_blocked_scripts|].
  destruct (reachable_counter_inv _ _ _ _ Hr) as (n & Hn & _ & Hc).
  unfold GetNumberOfFrozenScripts, ReadNumberFrozen. rewrite Hn. exact Hc.
Qed.

Lemma frozen_counter_invariant_witness :
  (∀ s, s ∈ blocked_scripts store_after_freeze
        ↔ CanSend s store_after_freeze = false) ∧
  wrap32 (GetNumberOfFrozenScripts 0 store_after_freeze + 1)
  = wrap32 (Z.of_nat (size (blocked_scripts store_after_freeze))).
Proof.
  apply (frozen_counter_invariant 0 CMainParams CMainParams store_after_freeze).
  apply (reachable_op 0 CMainParams CMainParams (OpFreeze [x51])).
  apply reachable_Init.
Defined.

(** C1 fails as stated: right after [Init] the counter is 0 while
    [CanSend] is already false for the dummy script. *)
Lemma frozen_counter_counterexample :
  ¬ (∀ db, reachable 0 CMainParams CMainParams db →
           GetNumberOfFrozenScripts 0 db
           = Z.of_nat (size (blocked_scripts db))).
Proof.
  intros H.
  specialize (H _ (reachable_Init 0 CMainParams CMainParams false)).
  vm_compute in H. discriminate H.
Qed.

Lemma Init_blocks_dummy :
  let db := (Init CMainParams false CMainParams empty_db).2 in
  GetNumberOfFrozenScripts 0 db = 0 ∧ CanSend DUMMY_SCRIPT db = false.
Proof. vm_compute. split; reflexivity. Qed.

(** Scenarios S4 and S5 of the specification, on the main-net store after
    [Init]: freezing [OP_1] gives counter 1 and [CanSend] false, unfreezing
    it gives counter 0 and [CanSend] true; reverting the freeze gives the
    same, and reverting it a second time reports a corrupted database. *)
Example freeze_toggle :
  let db1 := (FreezeScript 0 [x51] store_after_init).2 in
  let db2 := (UnfreezeScript 0 [x51] db1).2 in
  CanSend [x51] db1 = false ∧ GetNumberOfFrozenScripts 0 db1 = 1 ∧
  CanSend [x51] db2 = true ∧ GetNumberOfFrozenScripts 0 db2 = 0.
Proof. vm_compute. repeat split; reflexivity. Qed.

Example revert_freeze_twice :
  let db1 := (FreezeScript 0 [x51] store_after_init).2 in
  let db2 := (RevertFreezeScript 0 [x51] db1).2 in
  CanSend [x51] db2 = true ∧ GetNumberOfFrozenScripts 0 db2 = 0 ∧
  (RevertFreezeScript 0 [x51] db2).1 = false.
Proof. vm_compute. repeat split; reflexivity. Qed.

(** ** The cost table after [Init] *)

(** What [Init] stores on a fresh database, for any chain parameters: the
    REISSUE tag receives [SubFeeAmount()] and the SUB tag receives
    [ReissueFeeAmount()]. *)
Lemma Init_cost_table Params fWipe params :
  let db := (Init Params fWipe params empty_db).2 in
  GetCost GOVERNANCE_COST_ROOT db = RootFeeAmount params ∧
  GetCost GOVERNANCE_COST_REISSUE db = SubFeeAmount params ∧
  GetCost GOVERNANCE_COST_UNIQUE db = UniqueFeeAmount params ∧
  GetCost GOVERNANCE_COST_SUB db = ReissueFeeAmount params ∧
  GetCost GOVERNANCE_COST_USERNAME db = UsernameFeeAmount params.
Proof. destruct fWipe; vm_compute; repeat split; reflexivity. Qed.

(** C2 (the code at the failing input).  After [Init] on an empty database
    with the main-net parameters, [GetCost(GOVERNANCE_COST_SUB)] is the
    reissue fee (10000 coins) and [GetCost(GOVERNANCE_COST_REISSUE)] is the
    sub fee (100 coins): the two entries are swapped, and neither holds the
    fee of its own name. *)
Theorem Init_cost_sub_reissue_swapped :
  let db := (Init CMainParams false CMainParams empty_db).2 in
  GetCost GOVERNANCE_COST_SUB db = 10000 * COIN ∧
  SubFeeAmount CMainParams = 100 * COIN ∧
  GetCost GOVERNANCE_COST_REISSUE db = 100 * COIN ∧
  ReissueFeeAmount CMainParams = 10000 * COIN ∧
  GetCost GOVERNANCE_COST_SUB db ≠ SubFeeAmount CMainParams ∧
  GetCost GOVERNANCE_COST_REISSUE db ≠ ReissueFeeAmount CMainParams.
Proof. vm_compute. repeat split; try reflexivity; discriminate. Qed.

(** ** Reverting a freeze or an unfreeze *)

Lemma RevertFreezeScript_frozen u s db :
  ReadFreeze s db = Some true →
  RevertFreezeScript u s db
  = (true, with_freeze s false
             (wrap32 (GetNumberOfFrozenScripts u db - 1)) db).
Proof.
  intros H. unfold RevertFreezeScript. rewrite H. reflexivity.
Qed.

Lemma RevertFreezeScript_corrupt u s db :
  ReadFreeze s db ≠ Some true → RevertFreezeScript u s db = (false, db).
Proof.
  intros H. unfold RevertFreezeScript.
  destruct (ReadFreeze s db) as [[]|]; congruence.
Qed.

Lemma RevertUnfreezeScript_unfrozen u s db :
  ReadFreeze s db = Some false →
  RevertUnfreezeScript u s db
  = (true, with_freeze s true
             (wrap32 (GetNumberOfFrozenScripts u db + 1)) db).
Proof.
  intros H. unfold RevertUnfreezeScript. rewrite H. reflexivity.
Qed.

Lemma RevertUnfreezeScript_corrupt u s db :
  ReadFreeze s db ≠ Some false → RevertUnfreezeScript u s db = (false, db).
Proof.
  intros H. unfold RevertUnfreezeScript.
  destruct (ReadFreeze s db) as [[]|]; simpl; congruence.
Qed.

Lemma Init_ReadFreeze Params fWipe params s :
  s ≠ DUMMY_SCRIPT →
  ReadFreeze s (Init Params fWipe params empty_db).2 = None.
Proof.
  intros Hs. unfold ReadFreeze.
  assert (db_address (Init Params fWipe params empty_db).2
          = <[DUMMY_SCRIPT := true]> ∅) as -> by by destruct fWipe.
  rewrite lookup_insert_ne by done. apply lookup_empty.
Qed.

Lemma Init_number Params fWipe params :
  db_number_frozen (Init Params fWipe params empty_db).2 = Some 0.
Proof. by destruct fWipe. Qed.

Lemma freeze_then_revert_fresh u Params fWipe params s :
  s ≠ DUMMY_SCRIPT →
  let db := (RevertFreezeScript u s
               (FreezeScript u s (Init Params fWipe params empty_db).2).2).2 in
  GetNumberOfFrozenScripts u db = 0 ∧ CanSend s db = true.
Proof.
  intros Hs. simpl.
  set (db0 := (Init Params fWipe params empty_db).2).
  assert (H0 : ReadFreeze s db0 = None) by by apply Init_ReadFreeze.
  assert (HN : db_number_frozen db0 = Some 0) by apply Init_number.
  unfold FreezeScript. rewrite H0.
  unfold ReadNumberFrozen at 1. rewrite HN. simpl.
  unfold RevertFreezeScript, ReadFreeze. simpl.
  rewrite lookup_insert_eq. simpl.
  unfold GetNumberOfFrozenScripts, ReadNumberFrozen, CanSend, ScriptExist,
    ReadFreeze. simpl.
  rewrite lookup_insert_eq. split; [reflexivity|].
  rewrite bool_decide_eq_true_2 by eauto. reflexivity.
Qed.

(** C3 (as amended).  [RevertFreezeScript(s)] on a frozen entry returns
    true, sets the entry to false and takes one off the counter modulo 2^32,
    leaving everything else as it was; on an absent or unfrozen entry it
    returns false and the store is unchanged.  [RevertUnfreezeScript(s)] is
    the dual.  After [Init] on a fresh database, freezing and then reverting
    any script other than the dummy script gives counter 0 and
    [CanSend(s)] true. *)
Theorem revert_freeze_spec u s db :
  (ReadFreeze s db = Some true →
   RevertFreezeScript u s db
   = (true, with_freeze s false
              (wrap32 (GetNumberOfFrozenScripts u db - 1)) db)) ∧
  (ReadFreeze s db ≠ Some true → RevertFreezeScript u s db = (false, db)) ∧
  (ReadFreeze s db = Some false →
   RevertUnfreezeScript u s db
   = (true, with_freeze s true
              (wrap32 (GetNumberOfFrozenScripts u db + 1)) db)) ∧
  (ReadFreeze s db ≠ Some false → RevertUnfreezeScript u s db = (false, db)) ∧
  (∀ Params fWipe params,
     s ≠ DUMMY_SCRIPT →
     let db2 := (RevertFreezeScript u s
                   (FreezeScript u s (Init Params fWipe params empty_db).2).2).2 in
     GetNumberOfFrozenScripts u db2 = 0 ∧ CanSend s db2 = true).
Proof.
  split; [apply RevertFreezeScript_frozen|].
  split; [apply RevertFreezeScript_corrupt|].
  split; [apply RevertUnfreezeScript_unfrozen|].
  split; [apply RevertUnfreezeScript_corrupt|].
  intros Params fWipe params. apply freeze_then_revert_fresh.
Qed.

Lemma revert_freeze_spec_witness :
  ReadFreeze [x51] store_after_freeze = Some true ∧
  RevertFreezeScript 0 [x51] store_after_freeze
  = (true, with_freeze [x51] false
             (wrap32 (GetNumberOfFrozenScripts 0 store_after_freeze - 1))
             store_after_freeze) ∧
  ReadFreeze [x51] store_after_init ≠ Some true ∧
  RevertFreezeScript 0 [x51] store_after_init = (false, store_after_init) ∧
  [x51] ≠ DUMMY_SCRIPT ∧
  GetNumberOfFrozenScripts 0
    (RevertFreezeScript 0 [x51]
       (FreezeScript 0 [x51] (Init CMainParams false CMainParams empty_db).2).2).2 = 0.
Proof.
  pose proof (revert_freeze_spec 0 [x51] store_after_freeze)
    as (H1 & _ & _ & _ & H5).
  pose proof (revert_freeze_spec 0 [x51] store_after_init)
    as (_ & H2 & _ & _ & _).
  assert (Ha : ReadFreeze [x51] store_after_freeze = Some true)
    by (vm_compute; reflexivity).
  assert (Hb : ReadFreeze [x51] store_after_init ≠ Some true)
    by (vm_compute; discriminate).
  assert (Hc : [x51] ≠ DUMMY_SCRIPT) by discriminate.
  split; [exact Ha|]. split; [exact (H1 Ha)|].
  split; [exact Hb|]. split; [exact (H2 Hb)|].
  split; [exact Hc|]. exact (proj1 (H5 CMainParams false CMainParams Hc)).
Defined.

(** C3 fails as stated for the dummy script: after [Init] on a fresh
    database, [FreezeScript(DUMMY_SCRIPT)] finds the entry already frozen
    and leaves the counter at 0, and [RevertFreezeScript(DUMMY_SCRIPT)]
    then wraps the counter to 2^32 - 1. *)
Lemma revert_freeze_counterexample :
  let db2 := (RevertFreezeScript 0 DUMMY_SCRIPT
                (FreezeScript 0 DUMMY_SCRIPT
                   (Init CMainParams false CMainParams empty_db).2).2).2 in
  ReadFreeze DUMMY_SCRIPT (Init CMainParams false CMainParams empty_db).2 = Some true ∧
  GetNumberOfFrozenScripts 0 db2 = 4294967295 ∧
  GetNumberOfFrozenScripts 0 db2 ≠ 0.
Proof. vm_compute. repeat split; try reflexivity; discriminate. Qed.

(** ** Updating a cost or a fee script that is already stored *)

(** C10 (as amended).  When an entry for (type, height) exists,
    [UpdateCost] leaves the whole store, and so [GetCost], unchanged, and
    returns true exactly when the type is one of the five cost types; when
    an entry for the height exists, [UpdateFeeScript] leaves the store
    unchanged and returns true. *)
Theorem update_existing_is_noop db :
  (∀ cost type height,
     is_Some (ReadCost type height db) →
     (UpdateCost cost type height db).2 = db ∧
     GetCost type (UpdateCost cost type height db).2 = GetCost type db ∧
     (UpdateCost cost type height db).1 = known_cost_type type) ∧
  (∀ script height,
     is_Some (ReadFee height db) →
     UpdateFeeScript script height db = (true, db) ∧
     GetFeeScript (UpdateFeeScript script height db).2 = GetFeeScript db).
Proof.
  split.
  - intros cost type height [c Hc]. unfold UpdateCost. rewrite Hc.
    destruct (known_cost_type type); simpl; auto.
  - intros script height [c Hc]. unfold UpdateFeeScript. rewrite Hc.
    simpl. auto.
Qed.

Lemma update_existing_is_noop_witness :
  is_Some (ReadCost GOVERNANCE_COST_ROOT 0 store_after_init) ∧
  (UpdateCost 5 GOVERNANCE_COST_ROOT 0 store_after_init).2
  = store_after_init ∧
  (UpdateCost 5 GOVERNANCE_COST_ROOT 0 store_after_init).1 = true ∧
  is_Some (ReadFee 0 store_after_init) ∧
  UpdateFeeScript [x51] 0 store_after_init = (true, store_after_init).
Proof.
  pose proof (update_existing_is_noop store_after_init) as [H1 H2].
  assert (Ha : is_Some (ReadCost GOVERNANCE_COST_ROOT 0 store_after_init))
    by (vm_compute; eauto).
  assert (Hb : is_Some (ReadFee 0 store_after_init))
    by (vm_compute; eauto).
  destruct (H1 5 GOVERNANCE_COST_ROOT 0 Ha) as (E1 & _ & E3).
  destruct (H2 [x51] 0 Hb) as (E4 & _).
  split; [exact Ha|]. split; [exact E1|]. split; [exact E3|].
  split; [exact Hb|]. exact E4.
Defined.

(** C10 fails as stated for the dummy cost entry: [Init] stores an entry
    for (type 0, height 0), and [UpdateCost] on that key returns false. *)
Lemma update_existing_counterexample :
  is_Some (ReadCost DUMMY_TYPE 0 (Init CMainParams false CMainParams empty_db).2) ∧
  (UpdateCost 5 DUMMY_TYPE 0 (Init CMainParams false CMainParams empty_db).2).1 = false.
Proof. vm_compute. split; eauto. Qed.

(** ** The cost and fee walks

    The walk of [GetCost] keeps the entry of the type with the greatest
    height above -1, in whatever order the keys come. *)

Lemma GetCost_fold type l acc :
  (fold_left (GetCost_step type) l acc = acc ∧
   ∀ e, e ∈ l → e.1.1 = type → e.1.2 <= acc.1) ∨
  (∃ h c, fold_left (GetCost_step type) l acc = (h, c) ∧
          ((type, h), c) ∈ l ∧ acc.1 < h ∧
          ∀ e, e ∈ l → e.1.1 = type → e.1.2 <= h).
Proof.
  revert acc. induction l as [|e l IH]; intros acc; simpl.
  - left. split; [done|]. by intros e ?%elem_of_nil.
  - assert (Hstep :
      (GetCost_step type acc e = (e.1.2, e.2) ∧ e.1.1 = type ∧ acc.1 < e.1.2)
      ∨ (GetCost_step type acc e = acc ∧ (e.1.1 = type → e.1.2 <= acc.1))).
    { unfold GetCost_step.
      destruct (Z.eqb_spec e.1.1 type) as [Et|Et];
        [destruct (Z.gtb_spec e.1.2 acc.1) as [Eh|Eh]|]; cbn [andb];
        [left|right|right]; repeat split; try done; lia. }
    destruct Hstep as [(-> & Et & Eh)|[-> Hle]].
    + right.
      destruct (IH (e.1.2, e.2)) as [[Hr Hall]|(h & c & Hr & Hin & Hlt & Hall)];
        rewrite Hr; simpl in *.
      * exists e.1.2, e.2. split; [done|]. split.
        { destruct e as [[t h] c]. simpl in *. subst t. left. }
        split; [lia|]. intros e' [->|He']%elem_of_cons; [lia|].
        by apply Hall.
      * exists h, c. split; [done|]. split; [by right|].
        split; [lia|]. intros e' [->|He']%elem_of_cons; [lia|].
        by apply Hall.
    + destruct (IH acc) as [[Hr Hall]|(h & c & Hr & Hin & Hlt & Hall)];
        rewrite Hr.
      * left. split; [done|]. intros e' [->|He']%elem_of_cons; [done|].
        by apply Hall.
      * right. exists h, c. split; [done|]. split; [by right|].
        split; [lia|]. intros e' [->|He']%elem_of_cons; [|by apply Hall].
        intros Ht. specialize (Hle Ht). lia.
Qed.

Lemma elem_of_cost_entries db type height cost :
  ((type, height), cost) ∈ cost_entries db ↔
  ReadCost type height db = Some cost.
Proof.
  unfold cost_entries, ReadCost. rewrite merge_sort_Permutation.
  apply elem_of_map_to_list.
Qed.

Lemma GetCost_cases type db :
  (GetCost type db = 0 ∧ ∀ h c, ReadCost type h db = Some c → h < 0) ∨
  (∃ h c, GetCost type db = c ∧ ReadCost type h db = Some c ∧ 0 <= h ∧
          ∀ h' c', ReadCost type h' db = Some c' → h' <= h).
Proof.
  unfold GetCost.
  destruct (GetCost_fold type (cost_entries db) (-1, 0))
    as [[Hr Hall]|(h & c & Hr & Hin & Hlt & Hall)]; rewrite Hr; simpl in *.
  - left. split; [done|]. intros h c Hc.
    apply elem_of_cost_entries in Hc. specialize (Hall _ Hc eq_refl).
    simpl in Hall. lia.
  - right. exists h, c. split; [done|].
    split; [by apply elem_of_cost_entries|]. split; [lia|].
    intros h' c' Hc. apply elem_of_cost_entries in Hc.
    by apply (Hall _ Hc).
Qed.

Lemma GetCost_max type db h c :
  ReadCost type h db = Some c → 0 <= h →
  (∀ h' c', ReadCost type h' db = Some c' → h' <= h) →
  GetCost type db = c.
Proof.
  intros Hc Hh Hmax.
  destruct (GetCost_cases type db) as [[_ Hneg]|(h0 & c0 & -> & Hc0 & _ & Hmax0)].
  - specialize (Hneg _ _ Hc). lia.
  - assert (h0 = h) as -> by (specialize (Hmax _ _ Hc0); specialize (Hmax0 _ _ Hc); lia).
    congruence.
Qed.

Lemma GetCost_ext type db1 db2 :
  (∀ h, ReadCost type h db1 = ReadCost type h db2) →
  GetCost type db1 = GetCost type db2.
Proof.
  intros Heq.
  destruct (GetCost_cases type db2) as [[-> Hneg]|(h0 & c0 & -> & Hc0 & Hh0 & Hmax0)].
  - destruct (GetCost_cases type db1) as [[-> _]|(h & c & _ & Hc & Hh & _)]; [done|].
    rewrite Heq in Hc. specialize (Hneg _ _ Hc). lia.
  - apply (GetCost_max type db1 h0); [by rewrite Heq|done|].
    intros h' c'. rewrite Heq. apply Hmax0.
Qed.


Lemma GetFeeScript_fold l acc :
  (fold_left GetFeeScript_step l acc = acc ∧ ∀ e, e ∈ l → e.1 <= acc.1) ∨
  (∃ h s, fold_left GetFeeScript_step l acc = (h, s) ∧ (h, s) ∈ l ∧
          acc.1 < h ∧ ∀ e, e ∈ l → e.1 <= h).
Proof.
  revert acc. induction l as [|e l IH]; intros acc; simpl.
  - left. split; [done|]. by intros e ?%elem_of_nil.
  - assert (Hstep :
      (GetFeeScript_step acc e = e ∧ acc.1 < e.1)
      ∨ (GetFeeScript_step acc e = acc ∧ e.1 <= acc.1)).
    { unfold GetFeeScript_step.
      destruct (Z.gtb_spec e.1 acc.1) as [Eh|Eh]; [left|right];
        (split; [by destruct e|lia]). }
    destruct Hstep as [[-> Eh]|[-> Hle]].
    + right.
      destruct (IH e) as [[Hr Hall]|(h & s & Hr & Hin & Hlt & Hall)];
        rewrite Hr.
      * exists e.1, e.2. split; [by destruct e|]. split; [destruct e; left|].
        split; [lia|]. intros e' [->|He']%elem_of_cons; [lia|].
        by apply Hall.
      * exists h, s. split; [done|]. split; [by right|].
        split; [lia|]. intros e' [->|He']%elem_of_cons; [lia|].
        by apply Hall.
    + destruct (IH acc) as [[Hr Hall]|(h & s & Hr & Hin & Hlt & Hall)];
        rewrite Hr.
      * left. split; [done|]. intros e' [->|He']%elem_of_cons; [done|].
        by apply Hall.
      * right. exists h, s. split; [done|]. split; [by right|].
        split; [lia|]. intros e' [->|He']%elem_of_cons; [lia|].
        by apply Hall.
Qed.

Lemma elem_of_fee_entries db height script :
  (height, script) ∈ fee_entries db ↔ ReadFee height db = Some script.
Proof.
  unfold fee_entries, ReadFee. rewrite merge_sort_Permutation.
  apply elem_of_map_to_list.
Qed.

Lemma GetFeeScript_cases db :
  (GetFeeScript db = DUMMY_SCRIPT ∧
   ∀ h s, ReadFee h db = Some s → h < 0) ∨
  (∃ h s, GetFeeScript db = s ∧ ReadFee h db = Some s ∧ 0 <= h ∧
          ∀ h' s', ReadFee h' db = Some s' → h' <= h).
Proof.
  unfold GetFeeScript.
  destruct (GetFeeScript_fold (fee_entries db) (-1, DUMMY_SCRIPT))
    as [[Hr Hall]|(h & s & Hr & Hin & Hlt & Hall)]; rewrite Hr; simpl in *.
  - left. split; [done|]. intros h s Hs.
    apply elem_of_fee_entries in Hs. specialize (Hall _ Hs).
    simpl in Hall. lia.
  - right. exists h, s. split; [done|].
    split; [by apply elem_of_fee_entries|]. split; [lia|].
    intros h' s' Hs. apply elem_of_fee_entries in Hs.
    by apply (Hall _ Hs).
Qed.

Lemma GetFeeScript_max db h s :
  ReadFee h db = Some s → 0 <= h →
  (∀ h' s', ReadFee h' db = Some s' → h' <= h) →
  GetFeeScript db = s.
Proof.
  intros Hs Hh Hmax.
  destruct (GetFeeScript_cases db)
    as [[_ Hneg]|(h0 & s0 & -> & Hs0 & _ & Hmax0)].
  - specialize (Hneg _ _ Hs). lia.
  - assert (h0 = h) as ->
      by (specialize (Hmax _ _ Hs0); specialize (Hmax0 _ _ Hs); lia).
    congruence.
Qed.

Lemma GetCost_none type db :
  (∀ h c, ReadCost type h db = Some c → h < 0) → GetCost type db = 0.
Proof.
  intros Hneg.
  destruct (GetCost_cases type db) as [[-> _]|(h & c & _ & Hc & Hh & _)];
    [done|].
  specialize (Hneg _ _ Hc). lia.
Qed.

Lemma GetFeeScript_none db :
  (∀ h s, ReadFee h db = Some s → h < 0) → GetFeeScript db = DUMMY_SCRIPT.
Proof.
  intros Hneg.
  destruct (GetFeeScript_cases db) as [[-> _]|(h & c & _ & Hc & Hh & _)];
    [done|].
  specialize (Hneg _ _ Hc). lia.
Qed.

(** X1.  [GetCost(type)] returns the cost stored at the greatest height
    among the entries of the type whose height is not negative, and 0 when
    the type has no such entry: the walk starts from height -1 and cost
    0. *)
Theorem GetCost_spec type db :
  (∀ height cost,
     ReadCost type height db = Some cost → 0 <= height →
     (∀ h c, ReadCost type h db = Some c → h <= height) →
     GetCost type db = cost) ∧
  ((∀ h c, ReadCost type h db = Some c → h < 0) → GetCost type db = 0).
Proof.
  split; [intros height cost; apply GetCost_max|apply GetCost_none].
Qed.

Lemma ReadCost_UpdateCost cost type height db t h :
  known_cost_type type = true → ReadCost type height db = None →
  ReadCost t h (UpdateCost cost type height db).2
  = if decide ((t, h) = (type, height)) then Some cost else ReadCost t h db.
Proof.
  intros Hk Hn. unfold UpdateCost. rewrite Hk, Hn. simpl.
  unfold ReadCost. simpl. destruct (decide _) as [->|Hne].
  - apply lookup_insert_eq.
  - by apply lookup_insert_ne.
Qed.

(** X2.  [UpdateCost] at a height that is not negative and is above every
    stored height of the type (one of the five cost types) returns true,
    and [GetCost] of the type is then the new cost. *)
Theorem UpdateCost_takes_effect cost type height db :
  known_cost_type type = true → 0 <= height →
  (∀ h c, ReadCost type h db = Some c → h < height) →
  (UpdateCost cost type height db).1 = true ∧
  GetCost type (UpdateCost cost type height db).2 = cost.
Proof.
  intros Hk Hh Hlt.
  assert (Hn : ReadCost type height db = None).
  { destruct (ReadCost type height db) as [c|] eqn:E; [|done].
    specialize (Hlt _ _ E). lia. }
  split; [unfold UpdateCost; by rewrite Hk, Hn|].
  apply (GetCost_max _ _ height); [|done|].
  - rewrite ReadCost_UpdateCost by done. by rewrite decide_True.
  - intros h c. rewrite ReadCost_UpdateCost by done.
    destruct (decide _) as [[= ->]|_]; [lia|].
    intros Hc. specialize (Hlt _ _ Hc). lia.
Qed.

(** X3.  [UpdateCost] leaves [GetCost] of every other type unchanged, and
    leaves [GetCost] of its own type unchanged when the type already has
    an entry at a greater height. *)
Theorem UpdateCost_shadowed cost type height db t :
  t ≠ type ∨ (∃ h c, ReadCost type h db = Some c ∧ height < h) →
  GetCost t (UpdateCost cost type height db).2 = GetCost t db.
Proof.
  intros Hcase.
  destruct (known_cost_type type) eqn:Hk;
    [|unfold UpdateCost; by rewrite Hk].
  destruct (ReadCost type height db) as [c0|] eqn:Hn;
    [unfold UpdateCost; by rewrite Hk, Hn|].
  destruct Hcase as [Hne|(h1 & c1 & Hc1 & Hlt)].
  - apply GetCost_ext. intros h. rewrite ReadCost_UpdateCost by done.
    by rewrite decide_False by congruence.
  - destruct (decide (t = type)) as [->|Hne].
    2: { apply GetCost_ext. intros h. rewrite ReadCost_UpdateCost by done.
         by rewrite decide_False by congruence. }
    destruct (GetCost_cases type db)
      as [[-> Hneg]|(h0 & c0 & -> & Hc0 & Hh0 & Hmax0)].
    + apply GetCost_none. intros h c.
      rewrite ReadCost_UpdateCost by done.
      pose proof (Hneg _ _ Hc1).
      destruct (decide _) as [[= ->]|_]; [lia|]. apply Hneg.
    + pose proof (Hmax0 _ _ Hc1).
      apply (GetCost_max _ _ h0); [|done|].
      * rewrite ReadCost_UpdateCost by done.
        rewrite decide_False; [done|]. intros [= ->]. lia.
      * intros h c. rewrite ReadCost_UpdateCost by done.
        destruct (decide _) as [[= ->]|_]; [lia|]. apply Hmax0.
Qed.

Lemma db_eta db :
  {| db_init := db_init db; db_number_frozen := db_number_frozen db;
     db_address := db_address db; db_cost := db_cost db;
     db_fee_address := db_fee_address db |} = db.
Proof. by destruct db. Qed.

(** X4.  For one of the five cost types: [RevertUpdateCost] after an
    [UpdateCost] that wrote a new entry gives back the store as it was, and
    [UpdateCost] with the stored cost after a [RevertUpdateCost] that
    erased the entry gives back the store as well; both calls return
    true. *)
Theorem UpdateCost_RevertUpdateCost cost type height db :
  known_cost_type type = true →
  (ReadCost type height db = None →
   RevertUpdateCost type height (UpdateCost cost type height db).2
   = (true, db)) ∧
  (ReadCost type height db = Some cost →
   UpdateCost cost type height (RevertUpdateCost type height db).2
   = (true, db)).
Proof.
  intros Hk. split; intros Hr.
  - unfold UpdateCost. rewrite Hk, Hr. simpl.
    unfold RevertUpdateCost, ReadCost. simpl. rewrite lookup_insert_eq.
    unfold WriteBatch. simpl. rewrite delete_insert_id by done.
    by rewrite db_eta.
  - unfold RevertUpdateCost. rewrite Hr. simpl.
    unfold UpdateCost, ReadCost. rewrite Hk. simpl.
    rewrite lookup_delete_eq. unfold WriteBatch. simpl.
    rewrite insert_delete_id by done. by rewrite db_eta.
Qed.


Lemma ReadFee_UpdateFeeScript script height db h :
  ReadFee height db = None →
  ReadFee h (UpdateFeeScript script height db).2
  = if decide (h = height) then Some script else ReadFee h db.
Proof.
  intros Hn. unfold UpdateFeeScript. rewrite Hn. simpl.
  unfold ReadFee. simpl. destruct (decide _) as [->|Hne].
  - apply lookup_insert_eq.
  - by apply lookup_insert_ne.
Qed.

(** X5.  [GetFeeScript] returns the script stored at the greatest height
    that is not negative, and the dummy script when there is no such
    entry. *)
Theorem GetFeeScript_spec db :
  (∀ height script,
     ReadFee height db = Some script → 0 <= height →
     (∀ h s, ReadFee h db = Some s → h <= height) →
     GetFeeScript db = script) ∧
  ((∀ h s, ReadFee h db = Some s → h < 0) → GetFeeScript db = DUMMY_SCRIPT).
Proof.
  split; [intros height script; apply GetFeeScript_max
         |apply GetFeeScript_none].
Qed.

(** X6.  [UpdateFeeScript] at a height that is not negative and is above
    every stored height returns true and makes its script the one
    [GetFeeScript] returns; when an entry at a greater height exists,
    [GetFeeScript] is unchanged. *)
Theorem UpdateFeeScript_GetFeeScript script height db :
  (0 <= height → (∀ h s, ReadFee h db = Some s → h < height) →
   UpdateFeeScript script height db
   = (true, (UpdateFeeScript script height db).2) ∧
   GetFeeScript (UpdateFeeScript script height db).2 = script) ∧
  ((∃ h s, ReadFee h db = Some s ∧ height < h) →
   GetFeeScript (UpdateFeeScript script height db).2 = GetFeeScript db).
Proof.
  split.
  - intros Hh Hlt.
    assert (Hn : ReadFee height db = None).
    { destruct (ReadFee height db) as [c|] eqn:E; [|done].
      specialize (Hlt _ _ E). lia. }
    split; [unfold UpdateFeeScript; by rewrite Hn|].
    apply (GetFeeScript_max _ height); [|done|].
    + rewrite ReadFee_UpdateFeeScript by done. by rewrite decide_True.
    + intros h s. rewrite ReadFee_UpdateFeeScript by done.
      destruct (decide _) as [->|_]; [lia|].
      intros Hs. specialize (Hlt _ _ Hs). lia.
  - intros (h1 & s1 & Hs1 & Hlt).
    destruct (ReadFee height db) as [s0|] eqn:Hn;
      [unfold UpdateFeeScript; by rewrite Hn|].
    destruct (GetFeeScript_cases db)
      as [[-> Hneg]|(h0 & s0 & -> & Hs0 & Hh0 & Hmax0)].
    + apply GetFeeScript_none. intros h s.
      rewrite ReadFee_UpdateFeeScript by done.
      pose proof (Hneg _ _ Hs1).
      destruct (decide _) as [->|_]; [lia|]. apply Hneg.
    + pose proof (Hmax0 _ _ Hs1).
      apply (GetFeeScript_max _ h0); [|done|].
      * rewrite ReadFee_UpdateFeeScript by done.
        rewrite decide_False; [done|]. intros ->. lia.
      * intros h s. rewrite ReadFee_UpdateFeeScript by done.
        destruct (decide _) as [->|_]; [lia|]. apply Hmax0.
Qed.

(** X7.  [RevertUpdateFeeScript] after an [UpdateFeeScript] that wrote a
    new entry gives back the store as it was, and [UpdateFeeScript] with
    the stored script after a [RevertUpdateFeeScript] that erased the entry
    gives it back as well; both calls return true. *)
Theorem UpdateFeeScript_RevertUpdateFeeScript script height db :
  (ReadFee height db = None →
   RevertUpdateFeeScript height (UpdateFeeScript script height db).2
   = (true, db)) ∧
  (ReadFee height db = Some script →
   UpdateFeeScript script height (RevertUpdateFeeScript height db).2
   = (true, db)).
Proof.
  split; intros Hr.
  - unfold UpdateFeeScript. rewrite Hr. simpl.
    unfold RevertUpdateFeeScript, ReadFee. simpl. rewrite lookup_insert_eq.
    unfold WriteBatch. simpl. rewrite delete_insert_id by done.
    by rewrite db_eta.
  - unfold RevertUpdateFeeScript. rewrite Hr. simpl.
    unfold UpdateFeeScript, ReadFee. simpl.
    rewrite lookup_delete_eq. unfold WriteBatch. simpl.
    rewrite insert_delete_id by done. by rewrite db_eta.
Qed.

(** ** Freezing and unfreezing *)

Lemma CanSend_lookup s db :
  CanSend s db = negb (default false (ReadFreeze s db)).
Proof.
  unfold CanSend, ScriptExist.
  destruct (ReadFreeze s db) as [[]|]; reflexivity.
Qed.

Lemma FreezeScript_address u s db :
  (FreezeScript u s db).1 = true ∧
  db_address (FreezeScript u s db).2 = <[s := true]> (db_address db).
Proof.
  unfold FreezeScript, ReadFreeze.
  destruct (db_address db !! s) as [[]|]; simpl; done.
Qed.

Lemma UnfreezeScript_address u s db :
  (UnfreezeScript u s db).1 = true ∧
  db_address (UnfreezeScript u s db).2 = <[s := false]> (db_address db).
Proof.
  unfold UnfreezeScript, ReadFreeze.
  destruct (db_address db !! s) as [[]|]; simpl; done.
Qed.

(** X8.  [FreezeScript(s)] returns true and leaves [CanSend(s)] false;
    [UnfreezeScript(s)] returns true and leaves [CanSend(s)] true; neither
    changes [CanSend] of another script. *)
Theorem FreezeScript_CanSend u s db :
  (FreezeScript u s db).1 = true ∧
  CanSend s (FreezeScript u s db).2 = false ∧
  (UnfreezeScript u s db).1 = true ∧
  CanSend s (UnfreezeScript u s db).2 = true ∧
  (∀ s', s' ≠ s →
     CanSend s' (FreezeScript u s db).2 = CanSend s' db ∧
     CanSend s' (UnfreezeScript u s db).2 = CanSend s' db).
Proof.
  destruct (FreezeScript_address u s db) as [Hf1 Hf2].
  destruct (UnfreezeScript_address u s db) as [Hu1 Hu2].
  rewrite !CanSend_lookup. unfold ReadFreeze. rewrite Hf2, Hu2.
  rewrite !lookup_insert_eq.
  split; [done|]. split; [done|]. split; [done|]. split; [done|].
  intros s' Hne. rewrite !CanSend_lookup. unfold ReadFreeze.
  rewrite Hf2, Hu2. by rewrite !lookup_insert_ne.
Qed.

(** X9.  Freezing a script twice is freezing it once, and so for
    unfreezing: the second call returns true and leaves the whole store,
    the counter included, as the first call left it. *)
Theorem FreezeScript_idempotent u s db :
  FreezeScript u s (FreezeScript u s db).2
  = (true, (FreezeScript u s db).2) ∧
  UnfreezeScript u s (UnfreezeScript u s db).2
  = (true, (UnfreezeScript u s db).2).
Proof.
  split.
  - destruct (FreezeScript_address u s db) as [_ Ha].
    set (db1 := (FreezeScript u s db).2) in *.
    unfold FreezeScript, ReadFreeze. rewrite Ha, lookup_insert_eq.
    unfold WriteBatch. simpl. rewrite Ha, insert_insert_eq, <- Ha.
    by rewrite db_eta.
  - destruct (UnfreezeScript_address u s db) as [_ Ha].
    set (db1 := (UnfreezeScript u s db).2) in *.
    unfold UnfreezeScript, ReadFreeze. rewrite Ha, lookup_insert_eq.
    unfold WriteBatch. simpl. rewrite Ha, insert_insert_eq, <- Ha.
    by rewrite db_eta.
Qed.

Lemma wrap32_succ_pred n : 0 <= n < 2 ^ 32 → wrap32 (wrap32 (n + 1) - 1) = n.
Proof.
  intros Hn. unfold wrap32.
  rewrite Zminus_mod_idemp_l. replace (n + 1 - 1) with n by lia.
  apply Z.mod_small. lia.
Qed.

Lemma wrap32_pred_succ n : 0 <= n < 2 ^ 32 → wrap32 (wrap32 (n - 1) + 1) = n.
Proof.
  intros Hn. unfold wrap32.
  rewrite Zplus_mod_idemp_l. replace (n - 1 + 1) with n by lia.
  apply Z.mod_small. lia.
Qed.

(** X10.  When the script is not frozen and the counter holds [n]:
    [FreezeScript] sets the counter to [n + 1] modulo 2^32; on the store it
    leaves, [UnfreezeScript] and [RevertFreezeScript] do the same, and
    either gives back the counter [n] and [CanSend] of every script as it
    was before the freeze. *)
Theorem freeze_round_trip u s db n :
  ReadFreeze s db ≠ Some true →
  db_number_frozen db = Some n → 0 <= n < 2 ^ 32 →
  let db1 := (FreezeScript u s db).2 in
  GetNumberOfFrozenScripts u db1 = wrap32 (n + 1) ∧
  UnfreezeScript u s db1 = RevertFreezeScript u s db1 ∧
  (RevertFreezeScript u s db1).1 = true ∧
  GetNumberOfFrozenScripts u (RevertFreezeScript u s db1).2 = n ∧
  (∀ s', CanSend s' (RevertFreezeScript u s db1).2 = CanSend s' db).
Proof.
  intros Hs Hn Hr db1.
  assert (Hdb1 : db1 = with_freeze s true (wrap32 (n + 1)) db).
  { unfold db1, FreezeScript, ReadNumberFrozen. rewrite Hn.
    destruct (ReadFreeze s db) as [[]|]; try done. }
  rewrite Hdb1.
  unfold GetNumberOfFrozenScripts, UnfreezeScript, RevertFreezeScript,
    ReadNumberFrozen, ReadFreeze. simpl. rewrite lookup_insert_eq. simpl.
  split; [done|]. split.
  { unfold WriteBatch. simpl. done. }
  split; [done|]. split; [by apply wrap32_succ_pred|].
  intros s'. rewrite !CanSend_lookup. unfold ReadFreeze. simpl.
  rewrite insert_insert_eq.
  destruct (decide (s' = s)) as [->|Hne].
  - rewrite lookup_insert_eq. unfold ReadFreeze in Hs.
    destruct (db_address db !! s) as [[]|]; done.
  - by rewrite lookup_insert_ne.
Qed.

(** X11.  A revert does not undo a call that changed nothing.  When the
    script is already frozen, [FreezeScript] followed by
    [RevertFreezeScript] returns true and leaves it unfrozen, with the
    counter one lower (modulo 2^32) than before; when it is not frozen,
    [UnfreezeScript] followed by [RevertUnfreezeScript] returns true and
    leaves it frozen, with the counter one higher. *)
Theorem revert_after_noop u s db :
  (ReadFreeze s db = Some true →
   let db2 := (RevertFreezeScript u s (FreezeScript u s db).2).2 in
   (RevertFreezeScript u s (FreezeScript u s db).2).1 = true ∧
   CanSend s db = false ∧ CanSend s db2 = true ∧
   GetNumberOfFrozenScripts u db2
   = wrap32 (GetNumberOfFrozenScripts u db - 1)) ∧
  (ReadFreeze s db ≠ Some true →
   let db2 := (RevertUnfreezeScript u s (UnfreezeScript u s db).2).2 in
   (RevertUnfreezeScript u s (UnfreezeScript u s db).2).1 = true ∧
   CanSend s db = true ∧ CanSend s db2 = false ∧
   GetNumberOfFrozenScripts u db2
   = wrap32 (GetNumberOfFrozenScripts u db + 1)).
Proof.
  split.
  - intros Hs. cbv zeta. unfold FreezeScript. rewrite Hs. simpl.
    unfold RevertFreezeScript, GetNumberOfFrozenScripts, ReadNumberFrozen.
    unfold ReadFreeze in *. simpl. rewrite lookup_insert_eq. simpl.
    rewrite !CanSend_lookup. unfold ReadFreeze. simpl.
    rewrite lookup_insert_eq, Hs. done.
  - intros Hs. cbv zeta. unfold UnfreezeScript.
    unfold RevertUnfreezeScript, GetNumberOfFrozenScripts, ReadNumberFrozen.
    rewrite !CanSend_lookup. unfold ReadFreeze in *.
    destruct (db_address db !! s) as [[]|] eqn:E; try done; simpl;
      rewrite lookup_insert_eq; simpl;
      rewrite ?CanSend_lookup; unfold ReadFreeze; simpl;
      rewrite ?lookup_insert_eq; done.
Qed.

(** X12.  No freeze, unfreeze or revert call erases a freeze entry: a
    script for which [ScriptExist] is true keeps it true. *)
Theorem ScriptExist_kept u o db s :
  ScriptExist s db = true → ScriptExist s (run_op u o db).2 = true.
Proof.
  unfold ScriptExist, ReadFreeze. intros Hs%bool_decide_eq_true_1.
  apply bool_decide_eq_true_2.
  assert (Hins : ∀ s' b, is_Some (<[s' := b]> (db_address db) !! s)).
  { intros s' b. destruct (decide (s = s')) as [->|Hne].
    - rewrite lookup_insert_eq. eauto.
    - by rewrite lookup_insert_ne. }
  destruct o as [s'|s'|s'|s']; simpl;
    unfold FreezeScript, UnfreezeScript, RevertFreezeScript,
      RevertUnfreezeScript, ReadFreeze;
    destruct (db_address db !! s') as [[]|]; simpl; done.
Qed.

Lemma run_op_tables u o db :
  db_cost (run_op u o db).2 = db_cost db ∧
  db_fee_address (run_op u o db).2 = db_fee_address db ∧
  db_init (run_op u o db).2 = db_init db.
Proof.
  destruct o as [s|s|s|s]; simpl;
    unfold FreezeScript, UnfreezeScript, RevertFreezeScript,
      RevertUnfreezeScript, ReadFreeze;
    destruct (db_address db !! s) as [[]|]; simpl; done.
Qed.

(** X13.  The three families do not disturb one another: a freeze,
    unfreeze or revert call leaves [GetCost] of every type and
    [GetFeeScript] unchanged, and [UpdateCost], [RevertUpdateCost],
    [UpdateFeeScript] and [RevertUpdateFeeScript] leave [CanSend] of every
    script and the frozen counter unchanged. *)
Theorem families_independent u db :
  (∀ o type,
     GetCost type (run_op u o db).2 = GetCost type db ∧
     GetFeeScript (run_op u o db).2 = GetFeeScript db) ∧
  (∀ s cost type height script,
     let after db' :=
       CanSend s db' = CanSend s db ∧
       GetNumberOfFrozenScripts u db' = GetNumberOfFrozenScripts u db in
     after (UpdateCost cost type height db).2 ∧
     after (RevertUpdateCost type height db).2 ∧
     after (UpdateFeeScript script height db).2 ∧
     after (RevertUpdateFeeScript height db).2).
Proof.
  split.
  - intros o type. destruct (run_op_tables u o db) as (Hc & Hf & _).
    split.
    + unfold GetCost, cost_entries. by rewrite Hc.
    + unfold GetFeeScript, fee_entries. by rewrite Hf.
  - intros s cost type height script after. unfold after.
    split; [|split; [|split]].
    + unfold UpdateCost. destruct (negb _); [done|].
      by destruct (ReadCost type height db).
    + unfold RevertUpdateCost. by destruct (ReadCost type height db).
    + unfold UpdateFeeScript. by destruct (ReadFee height db).
    + unfold RevertUpdateFeeScript. by destruct (ReadFee height db).
Qed.

Lemma reachable_init u Params params db :
  reachable u Params params db → db_init db = Some true.
Proof.
  induction 1 as [fWipe|o db Hr IH].
  - by destruct fWipe.
  - destruct (run_op_tables u o db) as (_ & _ & ->). done.
Qed.


(** X14.  On a store reached from [Init] by freeze, unfreeze and revert
    calls, [Init] without wipe changes nothing: the init flag is still
    set, and the counter, the freeze entries, the costs and the fee scripts
    stay as they are. *)
Theorem Init_restart u Params params Params' params' db :
  reachable u Params params db → Init Params' false params' db = (true, db).
Proof.
  intros Hi%reachable_init. unfold Init. by rewrite Hi.
Qed.

(** ** Listing the freeze entries *)

Lemma elem_of_freeze_entries ser db s b :
  (s, b) ∈ freeze_entries ser db ↔
  ReadFreeze s db = Some b ∧
  bytes_leb (ser_FreezeEntry ser DUMMY_SCRIPT) (ser_FreezeEntry ser s) = true.
Proof.
  unfold freeze_entries, ReadFreeze.
  rewrite list_elem_of_filter, merge_sort_Permutation, elem_of_map_to_list.
  unfold freeze_key_le. simpl. tauto.
Qed.

Lemma NoDup_freeze_entries ser db : NoDup (freeze_entries ser db).*1.
Proof.
  unfold freeze_entries.
  assert (Hnd : NoDup (merge_sort (freeze_key_le ser)
                         (map_to_list (db_address db))).*1).
  { rewrite merge_sort_Permutation. apply NoDup_fst_map_to_list. }
  revert Hnd. generalize (merge_sort (freeze_key_le ser)
                            (map_to_list (db_address db))).
  intros l. induction l as [|e l IH]; [done|].
  rewrite fmap_cons. intros [Hn Hnd]%NoDup_cons. rewrite filter_cons.
  destruct (decide _); [|by apply IH].
  rewrite fmap_cons. apply NoDup_cons. split; [|by apply IH].
  intros (y & Hy & [_ Hin]%list_elem_of_filter)%list_elem_of_fmap.
  apply Hn. rewrite Hy. by apply list_elem_of_fmap_2.
Qed.

(** X15.  [DumpFreezeStats] lists exactly the freeze entries whose key is
    not below the key of the dummy script, and [GetFrozenScripts] exactly
    the scripts among them for which [CanSend] is false, each once: a
    frozen script whose key sorts below the dummy key is not listed. *)
Theorem GetFrozenScripts_spec ser db :
  (∀ s b, (s, b) ∈ (DumpFreezeStats ser [] db).2 ↔
          ReadFreeze s db = Some b ∧
          bytes_leb (ser_FreezeEntry ser DUMMY_SCRIPT)
            (ser_FreezeEntry ser s) = true) ∧
  (∀ s, s ∈ (GetFrozenScripts ser [] db).2 ↔
        CanSend s db = false ∧
        bytes_leb (ser_FreezeEntry ser DUMMY_SCRIPT)
          (ser_FreezeEntry ser s) = true) ∧
  NoDup (DumpFreezeStats ser [] db).2.*1 ∧
  NoDup (GetFrozenScripts ser [] db).2.
Proof.
  split; [|split; [|split]].
  - intros s b. simpl. apply elem_of_freeze_entries.
  - intros s. simpl. rewrite list_elem_of_fmap. split.
    + intros ([s' b] & -> & [Hb Hin]%list_elem_of_filter). simpl in *.
      subst b. apply elem_of_freeze_entries in Hin as [Hr Hk].
      split; [|done]. rewrite CanSend_lookup. by rewrite Hr.
    + intros [Hc Hk]. exists (s, true). split; [done|].
      apply list_elem_of_filter. split; [done|].
      apply elem_of_freeze_entries. split; [|done].
      rewrite CanSend_lookup in Hc.
      destruct (ReadFreeze s db) as [[]|]; done.
  - simpl. apply NoDup_freeze_entries.
  - simpl. pose proof (NoDup_freeze_entries ser db) as Hnd.
    revert Hnd. generalize (freeze_entries ser db). intros l.
    induction l as [|e l IH]; [done|].
    rewrite fmap_cons. intros [Hn Hnd]%NoDup_cons. rewrite filter_cons.
    destruct (decide _); [|by apply IH].
    rewrite fmap_cons. apply NoDup_cons. split; [|by apply IH].
    intros (y & Hy & [_ Hin]%list_elem_of_filter)%list_elem_of_fmap.
    apply Hn. rewrite Hy. by apply list_elem_of_fmap_2.
Qed.

(** With one length byte before the bytes of a script, the one-byte
    script [OP_1] sorts below the six-byte dummy script: frozen, it is not
    among the frozen scripts listed. *)
Example GetFrozenScripts_short_script :
  CanSend [x51] store_after_freeze = false ∧
  (GetFrozenScripts ser_short_script [] store_after_freeze).2
  = [DUMMY_SCRIPT].
Proof. vm_compute. split; reflexivity. Qed.

Lemma GetCost_spec_witness :
  GetCost GOVERNANCE_COST_ROOT store_after_init = 10000 * COIN ∧
  GetCost 7 store_after_init = 0.
Proof.
  split.
  - apply (proj1 (GetCost_spec GOVERNANCE_COST_ROOT store_after_init) 0).
    + vm_compute. reflexivity.
    + lia.
    + assert (HF : map_Forall (λ k _, k.1 = GOVERNANCE_COST_ROOT → k.2 <= 0)
                     (db_cost store_after_init)).
      { apply (bool_decide_unpack _). vm_compute. exact I. }
      intros h c Hc. exact (HF (GOVERNANCE_COST_ROOT, h) c Hc eq_refl).
  - apply (proj2 (GetCost_spec 7 store_after_init)).
    assert (HF : map_Forall (λ k _, k.1 = 7 → k.2 < 0)
                   (db_cost store_after_init)).
    { apply (bool_decide_unpack _). vm_compute. exact I. }
    intros h c Hc. exact (HF (7, h) c Hc eq_refl).
Defined.

Lemma UpdateCost_takes_effect_witness :
  (UpdateCost (5 * COIN) GOVERNANCE_COST_ROOT 10 store_after_init).1 = true ∧
  GetCost GOVERNANCE_COST_ROOT
    (UpdateCost (5 * COIN) GOVERNANCE_COST_ROOT 10 store_after_init).2
  = 5 * COIN.
Proof.
  apply UpdateCost_takes_effect.
  - reflexivity.
  - lia.
  - assert (HF : map_Forall (λ k _, k.1 = GOVERNANCE_COST_ROOT → k.2 < 10)
                   (db_cost store_after_init)).
    { apply (bool_decide_unpack _). vm_compute. exact I. }
    intros h c Hc. exact (HF (GOVERNANCE_COST_ROOT, h) c Hc eq_refl).
Defined.

Lemma UpdateCost_shadowed_witness :
  GetCost GOVERNANCE_COST_ROOT
    (UpdateCost (5 * COIN) GOVERNANCE_COST_ROOT (-3) store_after_init).2
  = GetCost GOVERNANCE_COST_ROOT store_after_init.
Proof.
  apply UpdateCost_shadowed. right. exists 0, (10000 * COIN).
  split; [vm_compute; reflexivity|lia].
Defined.

Lemma UpdateCost_RevertUpdateCost_witness :
  RevertUpdateCost GOVERNANCE_COST_ROOT 10
    (UpdateCost (5 * COIN) GOVERNANCE_COST_ROOT 10 store_after_init).2
  = (true, store_after_init) ∧
  UpdateCost (10000 * COIN) GOVERNANCE_COST_ROOT 0
    (RevertUpdateCost GOVERNANCE_COST_ROOT 0 store_after_init).2
  = (true, store_after_init).
Proof.
  assert (Ha : ReadCost GOVERNANCE_COST_ROOT 10 store_after_init = None)
    by (vm_compute; reflexivity).
  assert (Hb : ReadCost GOVERNANCE_COST_ROOT 0 store_after_init
               = Some (10000 * COIN)) by (vm_compute; reflexivity).
  pose proof (UpdateCost_RevertUpdateCost (5 * COIN) GOVERNANCE_COST_ROOT 10
                store_after_init eq_refl) as [H1 _].
  pose proof (UpdateCost_RevertUpdateCost (10000 * COIN)
                GOVERNANCE_COST_ROOT 0 store_after_init eq_refl) as [_ H2].
  split; [exact (H1 Ha)|exact (H2 Hb)].
Defined.

Lemma GetFeeScript_spec_witness :
  GetFeeScript store_after_init = TokenFeeScript CMainParams ∧
  GetFeeScript empty_db = DUMMY_SCRIPT.
Proof.
  split.
  - apply (proj1 (GetFeeScript_spec store_after_init) 0).
    + vm_compute. reflexivity.
    + lia.
    + assert (HF : map_Forall (λ k _, k <= 0)
                     (db_fee_address store_after_init)).
      { apply (bool_decide_unpack _). vm_compute. exact I. }
      intros h c Hc. exact (HF h c Hc).
  - apply (proj2 (GetFeeScript_spec empty_db)).
    intros h c Hc. unfold ReadFee in Hc. simpl in Hc.
    by rewrite lookup_empty in Hc.
Defined.

Lemma UpdateFeeScript_GetFeeScript_witness :
  GetFeeScript (UpdateFeeScript [x51] 10 store_after_init).2 = [x51] ∧
  GetFeeScript (UpdateFeeScript [x51] (-3) store_after_init).2
  = GetFeeScript store_after_init.
Proof.
  split.
  - apply (proj1 (UpdateFeeScript_GetFeeScript [x51] 10 store_after_init)).
    + lia.
    + assert (HF : map_Forall (λ k _, k < 10)
                     (db_fee_address store_after_init)).
      { apply (bool_decide_unpack _). vm_compute. exact I. }
      intros h c Hc. exact (HF h c Hc).
  - apply (proj2 (UpdateFeeScript_GetFeeScript [x51] (-3) store_after_init)).
    exists 0, (TokenFeeScript CMainParams).
    split; [vm_compute; reflexivity|lia].
Defined.

Lemma UpdateFeeScript_RevertUpdateFeeScript_witness :
  RevertUpdateFeeScript 10 (UpdateFeeScript [x51] 10 store_after_init).2
  = (true, store_after_init) ∧
  UpdateFeeScript (TokenFeeScript CMainParams) 0
    (RevertUpdateFeeScript 0 store_after_init).2
  = (true, store_after_init).
Proof.
  assert (Ha : ReadFee 10 store_after_init = None)
    by (vm_compute; reflexivity).
  assert (Hb : ReadFee 0 store_after_init = Some (TokenFeeScript CMainParams))
    by (vm_compute; reflexivity).
  pose proof (UpdateFeeScript_RevertUpdateFeeScript [x51] 10
                store_after_init) as [H1 _].
  pose proof (UpdateFeeScript_RevertUpdateFeeScript
                (TokenFeeScript CMainParams) 0 store_after_init) as [_ H2].
  split; [exact (H1 Ha)|exact (H2 Hb)].
Defined.

Lemma freeze_round_trip_witness :
  GetNumberOfFrozenScripts 0 store_after_freeze = 1 ∧
  UnfreezeScript 0 [x51] store_after_freeze
  = RevertFreezeScript 0 [x51] store_after_freeze ∧
  GetNumberOfFrozenScripts 0
    (RevertFreezeScript 0 [x51] store_after_freeze).2 = 0.
Proof.
  assert (Ha : ReadFreeze [x51] store_after_init ≠ Some true)
    by (vm_compute; discriminate).
  assert (Hb : db_number_frozen store_after_init = Some 0) by reflexivity.
  assert (Hc : 0 <= 0 < 2 ^ 32) by lia.
  destruct (freeze_round_trip 0 [x51] store_after_init 0 Ha Hb Hc)
    as (H1 & H2 & _ & H4 & _).
  split; [exact H1|]. split; [exact H2|exact H4].
Defined.

Lemma revert_after_noop_witness :
  CanSend DUMMY_SCRIPT store_after_init = false ∧
  CanSend DUMMY_SCRIPT
    (RevertFreezeScript 0 DUMMY_SCRIPT
       (FreezeScript 0 DUMMY_SCRIPT store_after_init).2).2 = true ∧
  CanSend [x51] store_after_init = true ∧
  CanSend [x51]
    (RevertUnfreezeScript 0 [x51]
       (UnfreezeScript 0 [x51] store_after_init).2).2 = false.
Proof.
  assert (Ha : ReadFreeze DUMMY_SCRIPT store_after_init = Some true)
    by (vm_compute; reflexivity).
  assert (Hb : ReadFreeze [x51] store_after_init ≠ Some true)
    by (vm_compute; discriminate).
  destruct (proj1 (revert_after_noop 0 DUMMY_SCRIPT store_after_init) Ha)
    as (_ & H1 & H2 & _).
  destruct (proj2 (revert_after_noop 0 [x51] store_after_init) Hb)
    as (_ & H3 & H4 & _).
  split; [exact H1|]. split; [exact H2|]. split; [exact H3|exact H4].
Defined.

Lemma ScriptExist_kept_witness :
  ScriptExist [x51] store_after_freeze = true ∧
  ScriptExist [x51]
    (run_op 0 (OpRevertFreeze [x51]) store_after_freeze).2 = true.
Proof.
  assert (Ha : ScriptExist [x51] store_after_freeze = true)
    by (vm_compute; reflexivity).
  split; [exact Ha|].
  exact (ScriptExist_kept 0 (OpRevertFreeze [x51]) store_after_freeze [x51]
           Ha).
Defined.

Lemma Init_restart_witness :
  Init CMainParams false CMainParams store_after_freeze = (true, store_after_freeze).
Proof.
  apply (Init_restart 0 CMainParams CMainParams CMainParams CMainParams
           store_after_freeze).
  apply (reachable_op 0 CMainParams CMainParams (OpFreeze [x51])).
  apply reachable_Init.
Defined.


(** X30.  [Init] on an empty database returns true and leaves the counter
    at 0, the fee script of the selected parameters [Params()], whatever
    the parameters passed as argument, as [GetFeeScript()], an entry for
    the dummy script and for no other script, [CanSend] true for every
    script but the dummy script, and cost 0 for every type that is not one
    of the five cost types. *)
Theorem Init_fresh_store u Params fWipe params :
  let db := (Init Params fWipe params empty_db).2 in
  (Init Params fWipe params empty_db).1 = true ∧
  GetNumberOfFrozenScripts u db = 0 ∧
  GetFeeScript db = TokenFeeScript Params ∧
  (∀ s, ScriptExist s db = bool_decide (s = DUMMY_SCRIPT)) ∧
  (∀ s, CanSend s db = bool_decide (s ≠ DUMMY_SCRIPT)) ∧
  (∀ type, known_cost_type type = false → GetCost type db = 0).
Proof.
  intros db.
  assert (Ha : db_address db = <[DUMMY_SCRIPT := true]> ∅)
    by by destruct fWipe.
  split; [by destruct fWipe|]. split; [by destruct fWipe|].
  split; [by destruct fWipe|]. split; [|split].
  - intros s. unfold ScriptExist, ReadFreeze. rewrite Ha.
    destruct (decide (s = DUMMY_SCRIPT)) as [->|Hne].
    + rewrite lookup_insert_eq, !bool_decide_eq_true_2; eauto.
    + rewrite lookup_insert_ne, lookup_empty by done.
      rewrite !bool_decide_eq_false_2; [done..|]. by intros [? ?].
  - intros s. rewrite CanSend_lookup. unfold ReadFreeze. rewrite Ha.
    destruct (decide (s = DUMMY_SCRIPT)) as [->|Hne].
    + rewrite lookup_insert_eq. by rewrite bool_decide_eq_false_2 by tauto.
    + rewrite lookup_insert_ne, lookup_empty by done.
      by rewrite bool_decide_eq_true_2.
  - intros type Hk.
    assert (HF : map_Forall (λ k c, known_cost_type k.1 = false → c = 0)
                   (db_cost db)).
    { destruct fWipe; apply (bool_decide_unpack _); vm_compute; exact I. }
    destruct (GetCost_cases type db) as [[-> _]|(h & c & -> & Hc & _)];
      [done|].
    exact (HF (type, h) c Hc Hk).
Qed.

Lemma Init_fresh_store_witness :
  GetFeeScript (Init CTestNetParams false CMainParams empty_db).2
  = TokenFeeScript CTestNetParams ∧
  CanSend [x51] (Init CTestNetParams false CMainParams empty_db).2 = true ∧
  GetCost 7 (Init CTestNetParams false CMainParams empty_db).2 = 0.
Proof.
  destruct (Init_fresh_store 0 CTestNetParams false CMainParams)
    as (_ & _ & H3 & _ & H5 & H6).
  split; [exact H3|]. split.
  - etransitivity; [exact (H5 [x51])|reflexivity].
  - exact (H6 7 eq_refl).
Defined.

End GovernanceProofs.


Module PowProofs.
Import Pow.

Example GetCompact_powLimit :
  GetCompact (powLimit MainConsensus) = 0x1f3fffff.
Proof. reflexivity. Qed.

Example GetCompact_posLimit :
  GetCompact (posLimit MainConsensus) = 0x1b00ffff.
Proof. reflexivity. Qed.

Example GetCompact_regtest :
  GetCompact (powLimit RegTestConsensus) = 0x207fffff.
Proof. reflexivity. Qed.

Example SetCompact_genesis :
  SetCompact 0x1f3fffff = (0x3fffff * 2 ^ 224, false, false).
Proof. reflexivity. Qed.

Lemma SetCompact_nonneg nCompact : 0 <= (SetCompact nCompact).1.1.
Proof.
  unfold SetCompact. cbn [fst].
  assert (0 <= Z.land nCompact 8388607) by (apply Z.land_nonneg; lia).
  destruct (Z.shiftr nCompact 24 <=? 3).
  - by apply Z.shiftr_nonneg.
  - unfold wrap256. apply Z.mod_pos_bound. lia.
Qed.

(** C5.  [CheckProofOfWork(h, nBits)] is true exactly when [nBits] decodes
    to a target that is not negative, not zero, not overflowing and at most
    [powLimit], and [h] is at most that target. *)
Theorem CheckProofOfWork_iff hash nBits params :
  CheckProofOfWork hash nBits params = true ↔
  let '(bnTarget, fNegative, fOverflow) := SetCompact nBits in
  fNegative = false ∧ bnTarget ≠ 0 ∧ fOverflow = false ∧
  bnTarget <= powLimit params ∧ hash <= bnTarget.
Proof.
  unfold CheckProofOfWork.
  destruct (SetCompact nBits) as [[bnTarget fNegative] fOverflow].
  destruct fNegative; simpl.
  { split; [discriminate | intros (? & _); discriminate]. }
  destruct (Z.eqb_spec bnTarget 0) as [->|Hz]; simpl.
  { split; [discriminate | intros (_ & ? & _); congruence]. }
  destruct fOverflow; simpl.
  { split; [discriminate | intros (_ & _ & ? & _); discriminate]. }
  destruct (Z.gtb_spec bnTarget (powLimit params)); simpl.
  { split; [discriminate | intros (_ & _ & _ & ? & _); lia]. }
  destruct (Z.gtb_spec hash bnTarget); simpl.
  { split; [discriminate | intros (_ & _ & _ & _ & ?); lia]. }
  split; [|reflexivity]. intros _. repeat split; try done; lia.
Qed.

(** Scenario S6 of the specification: with a target spacing of 64, blocks
    0 and 640 seconds apart keep their spacing, and a larger gap is clamped
    to 640. *)
Example spec_actual_spacing_boundary :
  spec_actual_spacing 1000 1000 64 = 0 ∧
  spec_actual_spacing 1640 1000 64 = 640 ∧
  spec_actual_spacing 1641 1000 64 = 640 ∧
  spec_actual_spacing 1000 1001 64 = 64.
Proof. repeat split; reflexivity. Qed.

(** ** No retargeting *)

Lemma GetLastBlockIndex_kind pindex fProofOfStake b p rest :
  GetLastBlockIndex pindex fProofOfStake = b :: p :: rest →
  IsProofOfStake b = fProofOfStake.
Proof.
  induction pindex as [|x pprev IH]; simpl; [discriminate|].
  destruct pprev as [|y pprev']; [discriminate|].
  destruct (Bool.eqb (IsProofOfStake x) fProofOfStake) eqn:E; simpl.
  - intros [= -> _ _]. by apply Bool.eqb_prop.
  - exact IH.
Qed.

Lemma GetLastBlockIndex_nonnull b pprev fProofOfStake :
  GetLastBlockIndex (b :: pprev) fProofOfStake ≠ [].
Proof.
  revert b. induction pprev as [|x l IH]; intros b; simpl; [discriminate|].
  destruct (negb _); [apply IH|discriminate].
Qed.

Lemma CalculateNextTargetRequired_no_retargeting b t params :
  no_retargeting (IsProofOfStake b) params = true →
  CalculateNextTargetRequired b t params = Some (nBits b).
Proof.
  unfold no_retargeting, CalculateNextTargetRequired.
  destruct (IsProofOfStake b); cbn [negb andb]; intros ->; reflexivity.
Qed.

(** C8 (as amended).  When the no-retargeting flag of the kind is set and
    the chain passes the guards of [GetNextTargetRequired] (the latest block
    of the kind has a predecessor, and so has the latest block of the kind
    before it), the result is the [nBits] of the latest block of that kind;
    when the chain does not pass the guards, the result is the compact
    target limit of the kind, whatever the flags. *)
Theorem GetNextTargetRequired_no_retargeting pindexLast fProofOfStake params :
  (no_retargeting fProofOfStake params = true →
   has_retarget_history pindexLast fProofOfStake = true →
   ∃ pindexPrev pprev,
     GetLastBlockIndex pindexLast fProofOfStake = pindexPrev :: pprev ∧
     IsProofOfStake pindexPrev = fProofOfStake ∧
     GetNextTargetRequired pindexLast fProofOfStake params
     = Some (nBits pindexPrev)) ∧
  (has_retarget_history pindexLast fProofOfStake = false →
   GetNextTargetRequired pindexLast fProofOfStake params
   = Some (GetCompact (if fProofOfStake then posLimit params
                       else powLimit params))).
Proof.
  unfold has_retarget_history, GetNextTargetRequired.
  generalize (GetCompact (if fProofOfStake then posLimit params
                          else powLimit params)).
  intros limit. split.
  - intros Hflag Hhist.
    destruct pindexLast as [|tip rest]; [discriminate|].
    destruct (GetLastBlockIndex (tip :: rest) fProofOfStake)
      as [|pindexPrev [|p pprev]] eqn:E1; try discriminate.
    pose proof (GetLastBlockIndex_kind _ _ _ _ _ E1) as Hkind.
    exists pindexPrev, (p :: pprev). split; [reflexivity|]. split; [done|].
    destruct (GetLastBlockIndex (p :: pprev) fProofOfStake)
      as [|pp [|q ppp]] eqn:E2; try discriminate.
    apply CalculateNextTargetRequired_no_retargeting. by rewrite Hkind.
  - intros Hhist.
    destruct pindexLast as [|tip rest]; [reflexivity|].
    destruct (GetLastBlockIndex (tip :: rest) fProofOfStake)
      as [|pindexPrev [|p pprev]] eqn:E1.
    + by apply GetLastBlockIndex_nonnull in E1.
    + reflexivity.
    + destruct (GetLastBlockIndex (p :: pprev) fProofOfStake)
        as [|pp [|q ppp]] eqn:E2; try discriminate; try reflexivity.
      by apply GetLastBlockIndex_nonnull in E2.
Qed.

Lemma GetNextTargetRequired_no_retargeting_witness :
  no_retargeting false TestNetConsensus = true ∧
  has_retarget_history testnet_chain false = true ∧
  GetNextTargetRequired testnet_chain false TestNetConsensus
  = Some 0x1f3fffff.
Proof.
  pose proof (GetNextTargetRequired_no_retargeting testnet_chain false
                TestNetConsensus) as [H _].
  assert (Ha : no_retargeting false TestNetConsensus = true) by reflexivity.
  assert (Hb : has_retarget_history testnet_chain false = true)
    by reflexivity.
  split; [exact Ha|]. split; [exact Hb|].
  destruct (H Ha Hb) as (b & p & E & _ & ->).
  vm_compute in E. injection E as <- _. reflexivity.
Defined.

(** C8 fails as stated on the test network before the first
    proof-of-stake block: the tip and every block before it carry the
    proof-of-work [nBits] 0x1f3fffff, the flag [fPosNoRetargeting] is set,
    and the next proof-of-stake target is the compact [posLimit]
    0x1b00ffff. *)
Lemma GetNextTargetRequired_counterexample :
  no_retargeting true TestNetConsensus = true ∧
  GetNextTargetRequired testnet_chain true TestNetConsensus
  = Some 0x1b00ffff ∧
  nBits <$> head testnet_chain = Some 0x1f3fffff ∧
  nBits <$> head (GetLastBlockIndex testnet_chain true) = Some 0x1f3fffff.
Proof. vm_compute. repeat split; reflexivity. Qed.

(** ** The retarget formula *)

Lemma spec_saturate_eq t limit :
  (if (t <=? 0) || (t >? limit) then limit else t) = spec_saturate t limit.
Proof.
  unfold spec_saturate.
  destruct (Z.leb_spec t 0), (Z.gtb_spec t limit), (Z.ltb_spec 0 t),
    (Z.leb_spec t limit); simpl; try reflexivity; lia.
Qed.

Lemma spec_actual_spacing_eq prevTime prevPrevTime s :
  (if (if prevTime - prevPrevTime <? 0 then s else prevTime - prevPrevTime)
      >? s * 10
   then s * 10
   else if prevTime - prevPrevTime <? 0 then s else prevTime - prevPrevTime)
  = spec_actual_spacing prevTime prevPrevTime s.
Proof.
  unfold spec_actual_spacing. cbv zeta. by rewrite (Z.mul_comm s 10).
Qed.

Lemma CalculateNextTargetRequired_retargets pindexLast nFirstBlockTime params :
  no_retargeting (IsProofOfStake pindexLast) params = false →
  0 < nTargetSpacing params →
  0 <= nTargetTimespan params →
  let interval := nTargetTimespan params / nTargetSpacing params in
  let actualSpacing :=
    spec_actual_spacing (GetBlockTime pindexLast) nFirstBlockTime
      (nTargetSpacing params) in
  let factor := (interval - 1) * nTargetSpacing params + 2 * actualSpacing in
  let divisor := (interval + 1) * nTargetSpacing params in
  0 <= factor < 2 ^ 32 →
  divisor < 2 ^ 64 →
  (SetCompact (nBits pindexLast)).1.1 * factor < 2 ^ 256 →
  CalculateNextTargetRequired pindexLast nFirstBlockTime params
  = Some (spec_next_target pindexLast nFirstBlockTime params).
Proof.
  intros Hflag Hs Ht interval actualSpacing factor divisor Hf Hd Hp.
  pose proof (SetCompact_nonneg (nBits pindexLast)) as Hnn.
  assert (Hi : 0 <= interval) by (apply Z.div_pos; lia).
  assert (Hd0 : 0 < divisor) by (unfold divisor; nia).
  unfold CalculateNextTargetRequired, spec_next_target, GetTargetLimit.
  unfold no_retargeting in Hflag.
  destruct (IsProofOfStake pindexLast); cbn [negb andb];
    rewrite Hflag; cbn [andb];
    (destruct (Z.eqb_spec (nTargetSpacing params) 0) as [?|_]; [lia|]);
    rewrite Z.quot_div_nonneg by lia;
    rewrite !spec_actual_spacing_eq;
    fold interval; fold actualSpacing;
    replace ((interval - 1) * nTargetSpacing params + actualSpacing
             + actualSpacing) with factor by (unfold factor; lia);
    fold divisor;
    unfold mul_u32, div_u64, wrap256, wrap32, wrap64;
    rewrite (Z.mod_small factor) by lia;
    rewrite (Z.mod_small (_ * factor)) by nia;
    rewrite (Z.mod_small divisor) by lia;
    (destruct (Z.eqb_spec divisor 0) as [?|_]; [lia|]);
    rewrite spec_saturate_eq; reflexivity.
Qed.

(** C4 (as amended).  When the no-retargeting flag of the block's kind is
    set, [CalculateNextTargetRequired] returns the block's [nBits].  When it
    is not set, the spacing is positive, and the multiplication stays
    within its operand widths (the factor below 2^32, the divisor below
    2^64, the product below 2^256), it returns the compact encoding of the
    formula of the specification. *)
Theorem CalculateNextTargetRequired_formula pindexLast nFirstBlockTime params :
  (no_retargeting (IsProofOfStake pindexLast) params = true →
   CalculateNextTargetRequired pindexLast nFirstBlockTime params
   = Some (nBits pindexLast)) ∧
  (no_retargeting (IsProofOfStake pindexLast) params = false →
   0 < nTargetSpacing params →
   0 <= nTargetTimespan params →
   let interval := nTargetTimespan params / nTargetSpacing params in
   let actualSpacing :=
     spec_actual_spacing (GetBlockTime pindexLast) nFirstBlockTime
       (nTargetSpacing params) in
   let factor := (interval - 1) * nTargetSpacing params + 2 * actualSpacing in
   let divisor := (interval + 1) * nTargetSpacing params in
   0 <= factor < 2 ^ 32 →
   divisor < 2 ^ 64 →
   (SetCompact (nBits pindexLast)).1.1 * factor < 2 ^ 256 →
   CalculateNextTargetRequired pindexLast nFirstBlockTime params
   = Some (spec_next_target pindexLast nFirstBlockTime params)).
Proof.
  split.
  - apply CalculateNextTargetRequired_no_retargeting.
  - apply CalculateNextTargetRequired_retargets.
Qed.

Lemma CalculateNextTargetRequired_formula_witness :
  no_retargeting (IsProofOfStake mainnet_block) MainConsensus = false ∧
  CalculateNextTargetRequired mainnet_block 1589879327 MainConsensus
  = Some (spec_next_target mainnet_block 1589879327 MainConsensus) ∧
  no_retargeting (IsProofOfStake testnet_genesis) TestNetConsensus = true ∧
  CalculateNextTargetRequired testnet_genesis 0 TestNetConsensus
  = Some (nBits testnet_genesis).
Proof.
  pose proof (CalculateNextTargetRequired_formula mainnet_block 1589879327
                MainConsensus) as [_ H].
  pose proof (CalculateNextTargetRequired_formula testnet_genesis 0
                TestNetConsensus) as [H' _].
  split; [reflexivity|]. split.
  - refine (H _ _ _ _ _ _).
    + vm_compute. reflexivity.
    + vm_compute. reflexivity.
    + vm_compute. discriminate.
    + vm_compute. split; [discriminate|reflexivity].
    + vm_compute. reflexivity.
    + vm_compute. reflexivity.
  - split; [reflexivity|]. apply H'. reflexivity.
Defined.

(** C4 fails as stated when the flag is set: on the test network, after a
    block at the target limit found 30 seconds after its predecessor, the
    code returns the block's [nBits] 0x1f3fffff, while the formula gives a
    lower target, 0x1f3bbfff. *)
Lemma CalculateNextTargetRequired_counterexample :
  let pindexLast :=
    {| nTime := 1630926658; nBits := 0x1f3fffff; IsProofOfStake := false |} in
  CalculateNextTargetRequired pindexLast 1630926628 TestNetConsensus
  = Some 0x1f3fffff ∧
  spec_next_target pindexLast 1630926628 TestNetConsensus = 0x1f3bbfff ∧
  CalculateNextTargetRequired pindexLast 1630926628 TestNetConsensus
  ≠ Some (spec_next_target pindexLast 1630926628 TestNetConsensus).
Proof. vm_compute. repeat split; try reflexivity; discriminate. Qed.

(** With the 256-bit product of the model, the formula is also left on the
    main network when the previous target is at [powLimit] and the block
    was slower than the target spacing: the product exceeds 2^256 and
    wraps, and the result is a target some fourteen times lower instead of
    the limit. *)
Example CalculateNextTargetRequired_product_wraps :
  let pindexLast :=
    {| nTime := 1589879427; nBits := 0x1f3fffff; IsProofOfStake := false |} in
  CalculateNextTargetRequired pindexLast 1589879327 MainConsensus
  = Some 0x1f047ffe ∧
  spec_next_target pindexLast 1589879327 MainConsensus = 0x1f3fffff.
Proof. vm_compute. split; reflexivity. Qed.

(** ** More about the proof-of-work check and the retarget engine *)

(** X25.  A hash that passes [CheckProofOfWork] for some [nBits] is at most
    [powLimit], and every smaller hash passes for the same [nBits]. *)
Theorem CheckProofOfWork_downward hash nBits params :
  CheckProofOfWork hash nBits params = true →
  hash <= powLimit params ∧
  ∀ hash', hash' <= hash → CheckProofOfWork hash' nBits params = true.
Proof.
  unfold CheckProofOfWork.
  destruct (SetCompact nBits) as [[bnTarget fNegative] fOverflow].
  destruct fNegative; [discriminate|].
  destruct (Z.eqb_spec bnTarget 0); [discriminate|].
  destruct fOverflow; [discriminate|].
  destruct (Z.gtb_spec bnTarget (powLimit params)); [discriminate|].
  cbn [orb].
  destruct (Z.gtb_spec hash bnTarget); [discriminate|].
  intros _. split; [lia|]. intros hash' Hle.
  destruct (Z.gtb_spec hash' bnTarget); [lia|reflexivity].
Qed.

Lemma CheckProofOfWork_downward_witness :
  CheckProofOfWork (2 ^ 200) 0x1e0fffff MainConsensus = true ∧
  2 ^ 200 <= powLimit MainConsensus ∧
  CheckProofOfWork 12345 0x1e0fffff MainConsensus = true.
Proof.
  assert (Ha : CheckProofOfWork (2 ^ 200) 0x1e0fffff MainConsensus = true)
    by (vm_compute; reflexivity).
  destruct (CheckProofOfWork_downward _ _ _ Ha) as [H1 H2].
  split; [exact Ha|]. split; [exact H1|].
  apply H2. vm_compute. discriminate.
Defined.

(** X26.  A block of the other kind on top of a non-empty chain does not
    change the next target of a kind: [GetNextTargetRequired] reads the
    chain through [GetLastBlockIndex] only. *)
Theorem GetNextTargetRequired_skips_other_kind b rest fProofOfStake params :
  rest ≠ [] → IsProofOfStake b ≠ fProofOfStake →
  GetNextTargetRequired (b :: rest) fProofOfStake params
  = GetNextTargetRequired rest fProofOfStake params.
Proof.
  intros Hrest Hkind. destruct rest as [|p pprev]; [done|].
  unfold GetNextTargetRequired.
  assert (E : GetLastBlockIndex (b :: p :: pprev) fProofOfStake
              = GetLastBlockIndex (p :: pprev) fProofOfStake).
  { cbn [GetLastBlockIndex].
    destruct (Bool.eqb (IsProofOfStake b) fProofOfStake) eqn:Eb;
      [|reflexivity].
    by apply Bool.eqb_prop in Eb. }
  by rewrite E.
Qed.

Lemma GetNextTargetRequired_skips_other_kind_witness :
  GetNextTargetRequired
    ({| nTime := 1630926700; nBits := 0x1b00ffff; IsProofOfStake := true |}
     :: testnet_chain) false TestNetConsensus
  = GetNextTargetRequired testnet_chain false TestNetConsensus.
Proof.
  apply GetNextTargetRequired_skips_other_kind; discriminate.
Defined.

(** X27.  With retargeting on, after a block found exactly one target
    spacing after its predecessor, [CalculateNextTargetRequired] returns
    the compact form of the block's own target, provided that target lies
    in (0, targetLimit] and the multiplication stays within its operand
    widths. *)
Theorem CalculateNextTargetRequired_on_schedule
    pindexLast nFirstBlockTime params :
  no_retargeting (IsProofOfStake pindexLast) params = false →
  0 < nTargetSpacing params →
  0 <= nTargetTimespan params →
  GetBlockTime pindexLast - nFirstBlockTime = nTargetSpacing params →
  let interval := nTargetTimespan params / nTargetSpacing params in
  let prevTarget := (SetCompact (nBits pindexLast)).1.1 in
  let targetLimit :=
    if IsProofOfStake pindexLast then posLimit params else powLimit params in
  (interval + 1) * nTargetSpacing params < 2 ^ 32 →
  prevTarget * ((interval + 1) * nTargetSpacing params) < 2 ^ 256 →
  0 < prevTarget <= targetLimit →
  CalculateNextTargetRequired pindexLast nFirstBlockTime params
  = Some (GetCompact prevTarget).
Proof.
  intros Hflag Hs Ht Hsp interval prevTarget targetLimit Hf Hp Hrange.
  assert (Hi : 0 <= interval) by (apply Z.div_pos; lia).
  assert (Hact : spec_actual_spacing (GetBlockTime pindexLast)
                   nFirstBlockTime (nTargetSpacing params)
                 = nTargetSpacing params).
  { unfold spec_actual_spacing. rewrite Hsp.
    destruct (Z.ltb_spec (nTargetSpacing params) 0); [lia|].
    destruct (Z.gtb_spec (nTargetSpacing params)
                (10 * nTargetSpacing params)); [lia|reflexivity]. }
  assert (Hfac : (interval - 1) * nTargetSpacing params
                 + 2 * nTargetSpacing params
                 = (interval + 1) * nTargetSpacing params) by lia.
  rewrite CalculateNextTargetRequired_retargets; try done.
  - unfold spec_next_target. fold interval prevTarget targetLimit.
    rewrite Hact, Hfac.
    rewrite Z.div_mul by nia.
    unfold spec_saturate.
    destruct (Z.ltb_spec 0 prevTarget); [|lia].
    destruct (Z.leb_spec prevTarget targetLimit); [|lia]. reflexivity.
  - fold interval. rewrite Hact, Hfac. nia.
  - fold interval. nia.
  - fold interval prevTarget. by rewrite Hact, Hfac.
Qed.

Lemma CalculateNextTargetRequired_on_schedule_witness :
  CalculateNextTargetRequired mainnet_block 1589879363 MainConsensus
  = Some (GetCompact (SetCompact (nBits mainnet_block)).1.1).
Proof.
  refine (CalculateNextTargetRequired_on_schedule mainnet_block 1589879363
            MainConsensus _ _ _ _ _ _ _).
  - reflexivity.
  - vm_compute. reflexivity.
  - vm_compute. discriminate.
  - vm_compute. reflexivity.
  - vm_compute. reflexivity.
  - vm_compute. reflexivity.
  - vm_compute. split; [reflexivity|discriminate].
Defined.

(** X28.  With retargeting on and a positive target limit, the target
    [CalculateNextTargetRequired] encodes lies in (0, targetLimit], whatever
    the previous target and the spacing of the blocks, and also when the
    256-bit product wraps. *)
Theorem CalculateNextTargetRequired_saturates
    pindexLast nFirstBlockTime params :
  no_retargeting (IsProofOfStake pindexLast) params = false →
  0 < nTargetSpacing params →
  0 <= nTargetTimespan params →
  (nTargetTimespan params / nTargetSpacing params + 1)
  * nTargetSpacing params < 2 ^ 64 →
  let targetLimit :=
    if IsProofOfStake pindexLast then posLimit params else powLimit params in
  0 < targetLimit →
  ∃ target,
    CalculateNextTargetRequired pindexLast nFirstBlockTime params
    = Some (GetCompact target) ∧ 0 < target <= targetLimit.
Proof.
  intros Hflag Hs Ht Hd targetLimit Hlimit.
  assert (Hi : 0 <= nTargetTimespan params / nTargetSpacing params)
    by (apply Z.div_pos; lia).
  unfold CalculateNextTargetRequired, GetTargetLimit.
  unfold no_retargeting in Hflag. unfold targetLimit in *.
  destruct (IsProofOfStake pindexLast); cbn [negb andb];
    rewrite Hflag; cbn [andb];
    (destruct (Z.eqb_spec (nTargetSpacing params) 0) as [?|_]; [lia|]);
    rewrite Z.quot_div_nonneg by lia;
    unfold div_u64, wrap64;
    rewrite (Z.mod_small ((_ + 1) * _)) by nia;
    (destruct (Z.eqb_spec ((nTargetTimespan params / nTargetSpacing params
                            + 1) * nTargetSpacing params) 0) as [?|_];
     [nia|]);
    match goal with
    | |- ∃ _, Some (GetCompact (if (?t <=? 0) || (?t >? ?l) then _ else _))
              = _ ∧ _ =>
        destruct (Z.leb_spec t 0); cbn [orb];
        [|destruct (Z.gtb_spec t l)]; eexists; (split; [reflexivity|lia])
    end.
Qed.

Lemma CalculateNextTargetRequired_saturates_witness :
  ∃ target,
    CalculateNextTargetRequired
      {| nTime := 1589879427; nBits := 0x1f3fffff; IsProofOfStake := false |}
      1589879327 MainConsensus
    = Some (GetCompact target) ∧ 0 < target <= powLimit MainConsensus.
Proof.
  refine (CalculateNextTargetRequired_saturates
            {| nTime := 1589879427; nBits := 0x1f3fffff;
               IsProofOfStake := false |}
            1589879327 MainConsensus _ _ _ _ _).
  - reflexivity.
  - vm_compute. reflexivity.
  - vm_compute. discriminate.
  - vm_compute. reflexivity.
  - vm_compute. reflexivity.
Defined.

End PowProofs.


Module LRUProofs.
Import LRU.

Section Proofs.

Context {K : Type} `{Countable K} {V : Type}.

Implicit Types (c : CLRUCache K V) (l : list (@list_node K V))
  (m : gmap K nat) (k key : K) (i n : nat).

Local Open Scope nat_scope.

Lemma NoDup_fmap_elem_eq {A B} (f : A → B) (l : list A) x y :
  NoDup (f <$> l) → x ∈ l → y ∈ l → f x = f y → x = y.
Proof.
  induction l as [|a l IH]; simpl; intros Hnd Hx Hy Hf.
  - by apply elem_of_nil in Hx.
  - apply NoDup_cons in Hnd as [Hn Hnd].
    apply elem_of_cons in Hx as [->|Hx]; apply elem_of_cons in Hy as [->|Hy].
    + reflexivity.
    + exfalso. apply Hn. rewrite Hf. by apply list_elem_of_fmap_2.
    + exfalso. apply Hn. rewrite <- Hf. by apply list_elem_of_fmap_2.
    + by apply IH.
Qed.

Lemma NoDup_fmap_filter {A B} (f : A → B) (P : A → Prop)
    `{∀ x, Decision (P x)} (l : list A) :
  NoDup (f <$> l) → NoDup (f <$> filter P l).
Proof.
  induction l as [|a l IH]; simpl; [done|].
  intros [Hn Hnd]%NoDup_cons. rewrite filter_cons.
  destruct (decide (P a)); [|by apply IH].
  simpl. apply NoDup_cons. split; [|by apply IH].
  intros (y & Hy & Hin)%list_elem_of_fmap. apply Hn.
  apply list_elem_of_filter in Hin as [_ Hin].
  rewrite Hy. by apply list_elem_of_fmap_2.
Qed.

Lemma filter_all {A} (P : A → Prop) `{∀ x, Decision (P x)} (l : list A) :
  (∀ x, x ∈ l → P x) → filter P l = l.
Proof.
  induction l as [|a l IH]; intros Hall; [done|].
  rewrite filter_cons_True by (apply Hall; left).
  f_equal. apply IH. intros x Hx. apply Hall. by right.
Qed.

Lemma sync_nil n : sync (K:=K) (V:=V) [] ∅ n.
Proof.
  repeat split; try constructor.
  - intros Hk. by rewrite lookup_empty in Hk.
  - intros [v Hv]. by apply elem_of_nil in Hv.
  - intros e He. by apply elem_of_nil in He.
Qed.

Lemma sync_key_lookup l m n e :
  sync l m n → e ∈ l → m !! node_key e = Some (node_id e).
Proof.
  intros (_ & _ & Hm & _) He. apply Hm. exists (node_value e).
  by destruct e as [i [k v]].
Qed.

Lemma sync_push l m n n' i k v :
  sync l m n → m !! k = None → i ∉ node_id <$> l → i < n' → n ≤ n' →
  sync ((i, (k, v)) :: l) (<[k := i]> m) n'.
Proof.
  intros Hs Hk Hi Hlt Hle.
  pose proof Hs as (Hid & Hkey & Hm & Hn).
  repeat split.
  - simpl. apply NoDup_cons. done.
  - simpl. apply NoDup_cons. split; [|done].
    intros (e & He & Hin)%list_elem_of_fmap.
    pose proof (sync_key_lookup _ _ _ _ Hs Hin) as Hl.
    unfold node_key in He at 1. simpl in He. rewrite <- He in Hl. congruence.
  - intros Hl. destruct (decide (k0 = k)) as [->|Hne].
    + rewrite lookup_insert_eq in Hl. injection Hl as <-. exists v. left.
    + rewrite lookup_insert_ne in Hl by done.
      apply Hm in Hl as [v0 Hv0]. exists v0. by right.
  - intros [v0 Hv0]. apply elem_of_cons in Hv0 as [E|Hin].
    + injection E as -> -> ->. apply lookup_insert_eq.
    + assert (Hl : m !! k0 = Some i0) by (apply Hm; eauto).
      destruct (decide (k0 = k)) as [->|Hne]; [congruence|].
      by rewrite lookup_insert_ne.
  - intros e [->|Hin]%elem_of_cons; [done|].
    specialize (Hn e Hin). lia.
Qed.

Lemma sync_erase l m n i k :
  sync l m n → m !! k = Some i → sync (list_erase i l) (delete k m) n.
Proof.
  intros Hs Hk. pose proof Hs as (Hid & Hkey & Hm & Hn).
  apply Hm in Hk as [v Hv].
  unfold list_erase. repeat split.
  - by apply NoDup_fmap_filter.
  - by apply NoDup_fmap_filter.
  - intros Hl. destruct (decide (k0 = k)) as [->|Hne].
    + by rewrite lookup_delete_eq in Hl.
    + rewrite lookup_delete_ne in Hl by done.
      apply Hm in Hl as [v0 Hv0]. exists v0.
      apply list_elem_of_filter. split; [|done].
      unfold node_id. simpl. intros ->.
      assert (E : (i, (k0, v0)) = (i, (k, v)))
        by by apply (NoDup_fmap_elem_eq node_id l).
      congruence.
  - intros [v0 [Hne Hin]%list_elem_of_filter].
    unfold node_id in Hne. simpl in Hne.
    assert (Hl : m !! k0 = Some i0) by (apply Hm; eauto).
    destruct (decide (k0 = k)) as [->|Hk0].
    + exfalso. apply Hne.
      assert (E : (i0, (k, v0)) = (i, (k, v)))
        by by apply (NoDup_fmap_elem_eq node_key l).
      congruence.
    + by rewrite lookup_delete_ne.
  - intros e [_ Hin]%list_elem_of_filter. by apply Hn.
Qed.

Lemma list_erase_not_elem l i : i ∉ node_id <$> list_erase i l.
Proof.
  intros (e & He & [Hne _]%list_elem_of_filter)%list_elem_of_fmap.
  congruence.
Qed.

Lemma sync_size l m n : sync l m n → size m = length l.
Proof.
  intros (Hid & Hkey & Hm & Hn).
  assert (Hd : dom m = list_to_set (node_key <$> l)).
  { apply set_eq. intros k.
    rewrite elem_of_dom, elem_of_list_to_set, list_elem_of_fmap. split.
    - intros [i [v Hv]%Hm]. by exists (i, (k, v)).
    - intros ([i [k' v]] & -> & Hin). exists i. apply Hm. by exists v. }
  rewrite <- size_dom, Hd, size_list_to_set by done.
  apply length_fmap.
Qed.

Lemma removelast_erase l e :
  NoDup (node_id <$> l) → last l = Some e →
  removelast l = list_erase (node_id e) l.
Proof.
  intros Hnd [l' ->]%last_Some.
  rewrite removelast_last. unfold list_erase.
  rewrite fmap_app in Hnd. apply NoDup_app in Hnd as (_ & Hdis & _).
  rewrite filter_app, filter_cons_False, filter_nil, app_nil_r
    by (intros Hc; by apply Hc).
  symmetry. apply filter_all. intros x Hx Heq.
  apply (Hdis (node_id x)); [by apply list_elem_of_fmap_2|].
  rewrite Heq. simpl. left.
Qed.

(** ** The operations keep the invariant *)

Lemma wf_new_cache max_size : wf (new_cache (K:=K) (V:=V) max_size).
Proof. apply sync_nil. Qed.

Lemma wf_Clear c : wf (Clear c).
Proof. apply sync_nil. Qed.

Lemma wf_SetSize size c : wf c → wf (SetSize size c).
Proof. done. Qed.

Lemma wf_Erase key c : wf c → wf (Erase key c).
Proof.
  intros Hwf. unfold Erase.
  destruct (cacheItemsMap c !! key) as [i|] eqn:E; [|done].
  by apply (sync_erase _ _ _ _ _ Hwf).
Qed.

(** The state of [Put] before the capacity test. *)
Lemma Put_inserted key value c :
  wf c →
  ∃ l m,
    sync l m (S (next_node c)) ∧
    head l = Some (next_node c, (key, value)) ∧
    size m ≤ S (size (cacheItemsMap c)) ∧
    Put key value c =
      if decide (maxSize c < size m) then
        match last l with
        | Some e =>
            mkCLRUCache (removelast l) (delete (node_key e) m) (maxSize c)
              (S (next_node c))
        | None => mkCLRUCache l m (maxSize c) (S (next_node c))
        end
      else mkCLRUCache l m (maxSize c) (S (next_node c)).
Proof.
  intros Hwf. pose proof Hwf as (Hid & Hkey & Hm & Hn).
  assert (Hfresh : ∀ l', (∀ e, e ∈ l' → e ∈ cacheItemsList c) →
                         next_node c ∉ node_id <$> l').
  { intros l' Hsub (e & He & Hin)%list_elem_of_fmap.
    specialize (Hn e (Hsub e Hin)). lia. }
  unfold Put. destruct (cacheItemsMap c !! key) as [i|] eqn:E.
  - assert (Hi : i ≠ next_node c).
    { apply Hm in E as [v Hv]. specialize (Hn _ Hv).
      unfold node_id in Hn. simpl in Hn. lia. }
    assert (He : list_erase i ((next_node c, (key, value))
                               :: cacheItemsList c)
                 = (next_node c, (key, value))
                   :: list_erase i (cacheItemsList c)).
    { unfold list_erase.
      by rewrite filter_cons_True by (unfold node_id; simpl; congruence). }
    cbn [fst snd]. rewrite !He.
    cbn [list_begin head fmap option_fmap option_map node_id fst].
    exists ((next_node c, (key, value)) :: list_erase i (cacheItemsList c)),
      (<[key := next_node c]> (delete key (cacheItemsMap c))).
    split; [|split; [reflexivity|split; [|reflexivity]]].
    + apply (sync_push _ _ (next_node c)); [| |  |lia|lia].
      * by apply (sync_erase _ _ _ _ _ Hwf).
      * apply lookup_delete_eq.
      * apply Hfresh. by intros e [_ ?]%list_elem_of_filter.
    + rewrite map_size_insert_None by apply lookup_delete_eq.
      rewrite map_size_delete_Some by eauto. lia.
  - cbn [fst snd list_begin head fmap option_fmap option_map node_id].
    exists ((next_node c, (key, value)) :: cacheItemsList c),
      (<[key := next_node c]> (cacheItemsMap c)).
    split; [|split; [reflexivity|split; [|reflexivity]]].
    + apply (sync_push _ _ (next_node c)); [done|done| |lia|lia].
      by apply Hfresh.
    + by rewrite map_size_insert_None.
Qed.

Lemma wf_Put key value c : wf c → wf (Put key value c).
Proof.
  intros Hwf.
  destruct (Put_inserted key value c Hwf) as (l & m & Hs & Hh & _ & ->).
  destruct (decide _); [|done].
  destruct (last l) as [e|] eqn:El; [|done].
  unfold wf. simpl.
  rewrite (removelast_erase l e) by (apply Hs || done).
  apply sync_erase; [done|].
  apply (sync_key_lookup _ _ _ _ Hs). by apply last_Some_elem_of.
Qed.

Lemma Put_Size key value c :
  wf c → Size (Put key value c) ≤ Nat.max (Size c) (MaxSize c).
Proof.
  intros Hwf.
  destruct (Put_inserted key value c Hwf) as (l & m & Hs & Hh & Hsz & ->).
  unfold Size, MaxSize. destruct (decide _) as [Hgt|Hle]; simpl; [|lia].
  destruct (last l) as [e|] eqn:El.
  - simpl. rewrite map_size_delete_Some; [lia|].
    rewrite (sync_key_lookup _ _ _ _ Hs); [eauto|].
    by apply last_Some_elem_of.
  - destruct l as [|e0 l0]; [discriminate|].
    rewrite last_cons in El. destruct (last l0); discriminate.
Qed.

Lemma Get_spliced key c r :
  Get key c = Some r →
  ∃ i e, cacheItemsMap c !! key = Some i ∧ e ∈ cacheItemsList c ∧
         node_id e = i ∧
         r = (node_value e,
              mkCLRUCache (e :: list_erase i (cacheItemsList c))
                (cacheItemsMap c) (maxSize c) (next_node c)).
Proof.
  unfold Get. destruct (cacheItemsMap c !! key) as [i|]; [|discriminate].
  unfold list_deref.
  destruct (head _) as [e|] eqn:Eh; [|discriminate].
  intros [= <-]. exists i, e. apply head_Some_elem_of in Eh.
  apply list_elem_of_filter in Eh as [? ?]. done.
Qed.

Lemma wf_Get key c r : wf c → Get key c = Some r → wf r.2.
Proof.
  intros Hwf (i & e & Hl & Hin & Hi & ->)%Get_spliced.
  pose proof Hwf as (Hid & Hkey & Hm & Hn).
  destruct e as [i' [k v]]. unfold node_id in Hi. simpl in Hi. subst i'.
  assert (k = key) as ->.
  { apply Hm in Hl as [v' Hv'].
    assert (E : (i, (k, v)) = (i, (key, v')))
      by by apply (NoDup_fmap_elem_eq node_id (cacheItemsList c)).
    congruence. }
  unfold wf. simpl.
  assert (Hp : sync ((i, (key, v)) :: list_erase i (cacheItemsList c))
                 (<[key := i]> (delete key (cacheItemsMap c)))
                 (next_node c)).
  { apply (sync_push _ _ (next_node c)); [| | | |lia].
    - by apply (sync_erase _ _ _ _ _ Hwf).
    - apply lookup_delete_eq.
    - apply list_erase_not_elem.
    - by apply (Hn _ Hin). }
  by rewrite insert_delete_eq, insert_id in Hp.
Qed.

Lemma wf_run_op c o : wf c → wf (run_op c o).
Proof.
  intros Hwf. destruct o as [key value|key|key| |size]; simpl.
  - by apply wf_Put.
  - destruct (Get key c) as [r|] eqn:E; [|done]. by eapply wf_Get.
  - by apply wf_Erase.
  - apply wf_Clear.
  - by apply wf_SetSize.
Qed.

Lemma wf_run ops c : wf c → wf (run ops c).
Proof.
  revert c. induction ops as [|o ops IH]; intros c Hwf; [done|].
  simpl. apply IH. by apply wf_run_op.
Qed.

Lemma Size_run_op c o :
  wf c → Size c ≤ MaxSize c →
  (∀ size, o = OpSetSize size → Size c ≤ size) →
  Size (run_op c o) ≤ MaxSize (run_op c o).
Proof.
  intros Hwf Hb Hset. destruct o as [key value|key|key| |size]; simpl.
  - pose proof (Put_Size key value c Hwf) as HP.
    assert (MaxSize (Put key value c) = MaxSize c) as ->; [|lia].
    destruct (Put_inserted key value c Hwf) as (l & m & _ & _ & _ & ->).
    destruct (decide _); [destruct (last l)|]; reflexivity.
  - destruct (Get key c) as [r|] eqn:E; [|done].
    apply Get_spliced in E as (i & e & _ & _ & _ & ->). done.
  - unfold Erase. destruct (cacheItemsMap c !! key) eqn:E; [|done].
    unfold Size, MaxSize in *. simpl.
    rewrite map_size_delete_Some by eauto. lia.
  - unfold Size, MaxSize, Clear. simpl. rewrite map_size_empty. lia.
  - unfold Size, MaxSize, SetSize. simpl. by apply Hset.
Qed.

Lemma Size_run ops c :
  wf c → Size c ≤ MaxSize c → no_shrink ops c = true →
  Size (run ops c) ≤ MaxSize (run ops c).
Proof.
  revert c. induction ops as [|o ops IH]; intros c Hwf Hb Hns; [done|].
  simpl in *. apply andb_true_iff in Hns as [Ho Hns].
  apply IH; [by apply wf_run_op| |done].
  apply Size_run_op; [done..|].
  intros size ->. by apply bool_decide_eq_true_1 in Ho.
Qed.

Lemma wf_keys c :
  wf c →
  dom (cacheItemsMap c) = list_to_set (list_keys c) ∧
  NoDup (list_keys c) ∧
  length (cacheItemsList c) = Size c.
Proof.
  intros Hwf. pose proof Hwf as (Hid & Hkey & Hm & Hn).
  split; [|split; [done|]].
  - apply set_eq. intros k. unfold list_keys.
    rewrite elem_of_dom, elem_of_list_to_set, list_elem_of_fmap. split.
    + intros [i [v Hv]%Hm]. by exists (i, (k, v)).
    + intros ([i [k' v]] & -> & Hin). exists i. apply Hm. by exists v.
  - symmetry. by eapply sync_size.
Qed.

(** ** The recency list as a list of pairs *)

Lemma fmap_filter_agree {A B} (f : A → B) (P : A → Prop) (Q : B → Prop)
    `{∀ x, Decision (P x)} `{∀ y, Decision (Q y)} (l : list A) :
  (∀ x, x ∈ l → P x ↔ Q (f x)) → f <$> filter P l = filter Q (f <$> l).
Proof.
  induction l as [|a l IH]; intros Hag; [done|].
  rewrite fmap_cons, !filter_cons.
  assert (Ha : P a ↔ Q (f a)) by (apply Hag; left).
  assert (IH' : f <$> filter P l = filter Q (f <$> l)).
  { apply IH. intros x Hx. apply Hag. by right. }
  destruct (decide (P a)), (decide (Q (f a))); try tauto.
  by rewrite fmap_cons, IH'.
Qed.

Lemma fmap_removelast {A B} (f : A → B) (l : list A) :
  f <$> removelast l = removelast (f <$> l).
Proof.
  induction l as [|a [|b l] IH]; [done..|].
  change (f <$> a :: removelast (b :: l) = f a :: removelast (f <$> b :: l)).
  by rewrite fmap_cons, IH.
Qed.

Lemma elem_of_removelast {A} (l : list A) (x : A) :
  x ∈ removelast l → x ∈ l.
Proof.
  induction l as [|a [|b l] IH]; [done| |].
  - by intros ?%elem_of_nil.
  - change (x ∈ a :: removelast (b :: l) → x ∈ a :: b :: l).
    intros [->|Hx]%elem_of_cons; [left|right; by apply IH].
Qed.

Lemma list_erase_items l m n i k :
  sync l m n → m !! k = Some i →
  snd <$> list_erase i l = filter (λ p, p.1 ≠ k) (snd <$> l).
Proof.
  intros Hs Hk. pose proof Hs as (Hid & Hkey & Hm & Hn).
  apply Hm in Hk as [v Hv].
  unfold list_erase. apply fmap_filter_agree.
  intros [i' [k' v']] Hin. unfold node_id. simpl. split.
  - intros Hne ->. apply Hne.
    assert (E : (i', (k, v')) = (i, (k, v)))
      by by apply (NoDup_fmap_elem_eq node_key l).
    congruence.
  - intros Hne ->. apply Hne.
    assert (E : (i, (k', v')) = (i, (k, v)))
      by by apply (NoDup_fmap_elem_eq node_id l).
    congruence.
Qed.

Lemma absent_items l m n k :
  sync l m n → m !! k = None →
  filter (λ p, p.1 ≠ k) (snd <$> l) = snd <$> l.
Proof.
  intros (Hid & Hkey & Hm & Hn) Hk. apply filter_all.
  intros [k' v'] ([i' [k'' v'']] & [= -> ->] & Hin)%list_elem_of_fmap.
  simpl. intros ->.
  assert (Hl : m !! k = Some i') by (apply Hm; eauto). congruence.
Qed.

(** The state of [Put] before the capacity test, with the pairs of the
    list. *)
Lemma Put_inserted_items key value c :
  wf c →
  ∃ l m,
    sync l m (S (next_node c)) ∧
    snd <$> l
    = (key, value) :: filter (λ p, p.1 ≠ key) (GetItemsList c) ∧
    Put key value c =
      if decide (maxSize c < size m) then
        match last l with
        | Some e =>
            mkCLRUCache (removelast l) (delete (node_key e) m) (maxSize c)
              (S (next_node c))
        | None => mkCLRUCache l m (maxSize c) (S (next_node c))
        end
      else mkCLRUCache l m (maxSize c) (S (next_node c)).
Proof.
  intros Hwf. pose proof Hwf as (Hid & Hkey & Hm & Hn).
  assert (Hfresh : ∀ l', (∀ e, e ∈ l' → e ∈ cacheItemsList c) →
                         next_node c ∉ node_id <$> l').
  { intros l' Hsub (e & He & Hin)%list_elem_of_fmap.
    specialize (Hn e (Hsub e Hin)). lia. }
  unfold Put, GetItemsList.
  destruct (cacheItemsMap c !! key) as [i|] eqn:E.
  - assert (Hi : i ≠ next_node c).
    { apply Hm in E as [v Hv]. specialize (Hn _ Hv).
      unfold node_id in Hn. simpl in Hn. lia. }
    assert (He : list_erase i ((next_node c, (key, value))
                               :: cacheItemsList c)
                 = (next_node c, (key, value))
                   :: list_erase i (cacheItemsList c)).
    { unfold list_erase.
      by rewrite filter_cons_True by (unfold node_id; simpl; congruence). }
    cbn [fst snd]. rewrite !He.
    cbn [list_begin head fmap option_fmap option_map node_id fst].
    exists ((next_node c, (key, value)) :: list_erase i (cacheItemsList c)),
      (<[key := next_node c]> (delete key (cacheItemsMap c))).
    split; [|split; [|reflexivity]].
    + apply (sync_push _ _ (next_node c)); [| |  |lia|lia].
      * by apply (sync_erase _ _ _ _ _ Hwf).
      * apply lookup_delete_eq.
      * apply Hfresh. by intros e [_ ?]%list_elem_of_filter.
    + rewrite fmap_cons. simpl. f_equal.
      by apply (list_erase_items _ _ _ _ _ Hwf).
  - cbn [fst snd list_begin head fmap option_fmap option_map node_id].
    exists ((next_node c, (key, value)) :: cacheItemsList c),
      (<[key := next_node c]> (cacheItemsMap c)).
    split; [|split; [|reflexivity]].
    + apply (sync_push _ _ (next_node c)); [done|done| |lia|lia].
      by apply Hfresh.
    + rewrite fmap_cons. simpl. f_equal. symmetry.
      by apply (absent_items _ _ _ _ Hwf).
Qed.

Lemma items_node l m n k v :
  sync l m n → (k, v) ∈ snd <$> l →
  ∃ i, m !! k = Some i ∧ (i, (k, v)) ∈ l.
Proof.
  intros Hs ([i [k' v']] & [= <- <-] & Hin)%list_elem_of_fmap.
  exists i. split; [|done]. apply Hs. eauto.
Qed.

Lemma Exists_items k c :
  wf c → Exists k c = true ↔ k ∈ (GetItemsList c).*1.
Proof.
  intros (Hid & Hkey & Hm & Hn). unfold Exists, GetItemsList.
  rewrite bool_decide_eq_true. split.
  - intros [i [v Hv]%Hm]. apply list_elem_of_fmap. exists (k, v).
    split; [done|]. apply list_elem_of_fmap. by exists (i, (k, v)).
  - intros ([k' v] & -> & ([i [k'' v']] & [= -> ->] & Hin)%list_elem_of_fmap)
             %list_elem_of_fmap.
    exists i. apply Hm. by exists v'.
Qed.

Lemma Get_hit key value c :
  wf c → (key, value) ∈ GetItemsList c →
  ∃ c', Get key c = Some (value, c') ∧
        GetItemsList c'
        = (key, value) :: filter (λ p, p.1 ≠ key) (GetItemsList c) ∧
        MaxSize c' = MaxSize c ∧ Size c' = Size c.
Proof.
  intros Hwf Hin. pose proof Hwf as (Hid & Hkey & Hm & Hn).
  destruct (items_node _ _ _ _ _ Hwf Hin) as (i & Hi & Hnode).
  unfold Get. rewrite Hi. unfold list_deref.
  destruct (head _) as [e|] eqn:Eh.
  - pose proof (head_Some_elem_of _ _ Eh) as [He1 He2]%list_elem_of_filter.
    assert (e = (i, (key, value))) as ->
      by by apply (NoDup_fmap_elem_eq node_id (cacheItemsList c)).
    eexists. split; [reflexivity|]. unfold GetItemsList, MaxSize, Size.
    simpl. split; [|done]. f_equal.
    by apply (list_erase_items _ _ _ _ _ Hwf).
  - apply head_None in Eh.
    assert (Hf : (i, (key, value))
                 ∈ filter (λ e, node_id e = i) (cacheItemsList c))
      by by apply list_elem_of_filter.
    rewrite Eh in Hf. by apply elem_of_nil in Hf.
Qed.

(** X17.  On a well-formed cache, [Get(key)] of a key that is held
    returns its value and moves its pair to the front of the recency list,
    leaving the other pairs in their order and [Size()] and [MaxSize()] as
    they were; [Get(key)] of a key that is not held throws; and
    [Exists(key)] tells whether the key is held. *)
Theorem Get_spec key c :
  wf c →
  (∀ value, (key, value) ∈ GetItemsList c →
     ∃ c', Get key c = Some (value, c') ∧
           GetItemsList c'
           = (key, value) :: filter (λ p, p.1 ≠ key) (GetItemsList c) ∧
           MaxSize c' = MaxSize c ∧ Size c' = Size c) ∧
  (key ∉ (GetItemsList c).*1 → Get key c = None) ∧
  (Exists key c = true ↔ key ∈ (GetItemsList c).*1).
Proof.
  intros Hwf. split; [intros value; by apply Get_hit|].
  split; [|by apply Exists_items].
  intros Hk. unfold Get.
  destruct (cacheItemsMap c !! key) as [i|] eqn:E; [|done].
  exfalso. apply Hk. apply Exists_items; [done|].
  unfold Exists. apply bool_decide_eq_true_2. eauto.
Qed.

(** X18.  On a well-formed cache, [Erase(key)] removes the pair of the
    key and nothing else, keeps the order of the other pairs, and
    [Exists(key)] is false afterwards. *)
Theorem Erase_items key c :
  wf c →
  GetItemsList (Erase key c)
  = filter (λ p, p.1 ≠ key) (GetItemsList c) ∧
  Exists key (Erase key c) = false ∧
  MaxSize (Erase key c) = MaxSize c.
Proof.
  intros Hwf. unfold Erase, Exists, GetItemsList, MaxSize.
  destruct (cacheItemsMap c !! key) as [i|] eqn:E; simpl.
  - split; [by apply (list_erase_items _ _ _ _ _ Hwf)|].
    split; [|done]. apply bool_decide_eq_false_2.
    rewrite lookup_delete_eq. by intros [? ?].
  - split; [symmetry; by apply (absent_items _ _ _ _ Hwf)|].
    split; [|done]. apply bool_decide_eq_false_2.
    rewrite E. by intros [? ?].
Qed.

Lemma Put_items_eq key value c :
  wf c →
  GetItemsList (Put key value c)
  = (let l := (key, value) :: filter (λ p, p.1 ≠ key) (GetItemsList c) in
     if decide (MaxSize c < length l) then removelast l else l).
Proof.
  intros Hwf.
  destruct (Put_inserted_items key value c Hwf) as (l & m & Hs & Hl & ->).
  cbv zeta. rewrite <- Hl, length_fmap.
  pose proof (sync_size _ _ _ Hs) as Hsz.
  unfold MaxSize, GetItemsList.
  unfold list_node in *.
  repeat case_decide; try lia; [|reflexivity].
  destruct (last l) as [e|] eqn:El; simpl.
  - by rewrite fmap_removelast.
  - destruct l as [|e0 l0]; [simpl in *; lia|].
    rewrite last_cons in El. destruct (last l0); discriminate.
Qed.

Lemma removelast_take {A} (l : list A) n :
  length l = S n → removelast l = take n l.
Proof.
  revert n. induction l as [|a [|b l] IH]; intros n Hlen; [done| |].
  - simpl in Hlen. by assert (n = 0) as -> by lia.
  - destruct n as [|n]; [simpl in Hlen; lia|].
    change (a :: removelast (b :: l) = a :: take n (b :: l)).
    f_equal. apply IH. simpl in *. lia.
Qed.

Lemma Put_MaxSize key value c :
  wf c → MaxSize (Put key value c) = MaxSize c.
Proof.
  intros Hwf.
  destruct (Put_inserted_items key value c Hwf) as (l0 & m & _ & _ & ->).
  unfold MaxSize. destruct (decide _); [destruct (last l0)|]; reflexivity.
Qed.

(** X16.  On a well-formed cache, [Put(key, value)] puts the pair at the
    front of the recency list, drops the old pair of the key, and, when
    the list is then longer than [MaxSize()], drops the one pair at its
    end, the least recently used; when the cache held at most [MaxSize()]
    pairs, the result is the first [MaxSize()] pairs of that list. *)
Theorem Put_items key value c :
  wf c →
  let l := (key, value) :: filter (λ p, p.1 ≠ key) (GetItemsList c) in
  GetItemsList (Put key value c)
  = (if decide (MaxSize c < length l) then removelast l else l) ∧
  MaxSize (Put key value c) = MaxSize c ∧
  (Size c ≤ MaxSize c →
   GetItemsList (Put key value c) = take (MaxSize c) l).
Proof.
  intros Hwf l.
  pose proof (Put_items_eq key value c Hwf) as Hitems. cbv zeta in Hitems.
  fold l in Hitems. split; [done|]. split.
  - by apply Put_MaxSize.
  - intros Hsize. rewrite Hitems.
    assert (Hlen : length l ≤ S (Size c)).
    { unfold l. simpl. apply le_n_S.
      etransitivity; [apply length_filter|].
      unfold GetItemsList. rewrite length_fmap.
      pose proof (proj2 (proj2 (wf_keys c Hwf))) as Hk.
      unfold list_node in *. lia. }
    case_decide.
    + apply removelast_take. lia.
    + symmetry. apply take_ge. lia.
Qed.

(** X19.  On a well-formed cache of capacity at least 1, [Get(key)] right
    after [Put(key, value)] returns [value] and leaves the recency list as
    [Put] left it. *)
Theorem Put_Get key value c :
  wf c → 0 < MaxSize c →
  ∃ c', Get key (Put key value c) = Some (value, c') ∧
        GetItemsList c' = GetItemsList (Put key value c).
Proof.
  intros Hwf Hmax.
  pose proof (wf_Put key value c Hwf) as Hwf'.
  pose proof (Put_items_eq key value c Hwf) as Hitems. cbv zeta in Hitems.
  set (rest := filter (λ p : K * V, p.1 ≠ key) (GetItemsList c)) in *.
  assert (Hhead : ∃ rest', GetItemsList (Put key value c)
                           = (key, value) :: rest' ∧
                           ∀ p, p ∈ rest' → p.1 ≠ key).
  { rewrite Hitems. case_decide as Hlen.
    - destruct rest as [|p rest0] eqn:Er; [simpl in Hlen; lia|].
      exists (removelast (p :: rest0)). split; [done|].
      intros q Hq%elem_of_removelast. rewrite <- Er in Hq.
      unfold rest in Hq. by apply list_elem_of_filter in Hq as [? _].
    - exists rest. split; [done|].
      intros q Hq. unfold rest in Hq.
      by apply list_elem_of_filter in Hq as [? _]. }
  destruct Hhead as (rest' & Heq & Hrest).
  destruct (Get_hit key value (Put key value c) Hwf')
    as (c' & HG & Hl & _); [rewrite Heq; left|].
  exists c'. split; [done|]. rewrite Hl, Heq.
  rewrite filter_cons_False by (simpl; tauto).
  f_equal. apply filter_all. intros p Hp. by apply Hrest.
Qed.

Lemma Put_empty_zero key value c :
  cacheItemsList c = [] → cacheItemsMap c = ∅ → maxSize c = 0 →
  Put key value c = mkCLRUCache [] ∅ 0 (S (next_node c)).
Proof.
  intros Hl Hm Hz. unfold Put. rewrite Hm, lookup_empty, Hl, Hz. simpl.
  rewrite insert_empty, map_size_singleton. simpl.
  unfold node_key. simpl. by rewrite delete_singleton_eq.
Qed.

Lemma run_no_SetSize_empty (ops : list (CacheOp K V)) c :
  no_SetSize ops = true →
  cacheItemsList c = [] → cacheItemsMap c = ∅ → maxSize c = 0 →
  cacheItemsList (run ops c) = [] ∧ cacheItemsMap (run ops c) = ∅ ∧
  maxSize (run ops c) = 0.
Proof.
  revert c. induction ops as [|o ops IH]; intros c Hops Hl Hm Hz; [done|].
  simpl in Hops. apply andb_true_iff in Hops as [Ho Hops].
  simpl. destruct o as [key value|key|key| |size]; try discriminate; simpl.
  - rewrite Put_empty_zero by done. by apply IH.
  - unfold Get. rewrite Hm, lookup_empty. by apply IH.
  - unfold Erase. rewrite Hm, lookup_empty. by apply IH.
  - by apply IH.
Qed.

(** X20.  A cache that was reset by [SetNull], as the default constructor
    does, has capacity 0 and holds nothing after any sequence of [Put],
    [Get], [Erase] and [Clear]: each [Put] evicts the pair it inserted. *)
Theorem default_cache_holds_nothing (ops : list (CacheOp K V)) c :
  no_SetSize ops = true →
  GetItemsList (run ops (SetNull c)) = [] ∧
  Size (run ops (SetNull c)) = 0 ∧
  ∀ key, Exists key (run ops (SetNull c)) = false.
Proof.
  intros Hops.
  destruct (run_no_SetSize_empty ops (SetNull c) Hops)
    as (Hl & Hm & Hz); [done..|].
  unfold GetItemsList, Size, Exists. rewrite Hl, Hm.
  split; [done|]. split; [apply map_size_empty|].
  intros key. apply bool_decide_eq_false_2. rewrite lookup_empty.
  by intros [? ?].
Qed.

(** C9 (as amended).  After any sequence of [Put], [Get], [Erase], [Clear]
    and [SetSize] on a new cache, the map and the recency list hold the
    same keys, each once, and as many entries, and the map sends each key
    to the list node that holds it; and the cache holds at most [MaxSize()]
    entries provided no [SetSize] of the sequence set the capacity below
    the number of entries held at that time.  On the cache so reached,
    [Put] puts its pair at the front of the recency list, drops the old
    pair of the key and, when the list is then longer than [MaxSize()],
    evicts the one pair at its end and leaves [MaxSize()] as it was; [Get]
    of a held key moves its pair to the front, so that the pair at the end
    is the least recently used one; and [SetSize] sets the capacity and
    evicts nothing. *)
Theorem cache_sync_and_bound (max_size : nat) (ops : list (CacheOp K V)) :
  let c := run ops (new_cache max_size) in
  dom (cacheItemsMap c) = list_to_set (list_keys c) ∧
  NoDup (list_keys c) ∧
  length (cacheItemsList c) = Size c ∧
  (∀ k i, cacheItemsMap c !! k = Some i ↔
          ∃ v, (i, (k, v)) ∈ cacheItemsList c) ∧
  (no_shrink ops (new_cache max_size) = true → Size c ≤ MaxSize c) ∧
  (∀ key value,
     let l := (key, value) :: filter (λ p, p.1 ≠ key) (GetItemsList c) in
     GetItemsList (Put key value c)
     = (if decide (MaxSize c < length l) then removelast l else l) ∧
     MaxSize (Put key value c) = MaxSize c) ∧
  (∀ key value,
     (key, value) ∈ GetItemsList c →
     ∃ c', Get key c = Some (value, c') ∧
           GetItemsList c'
           = (key, value) :: filter (λ p, p.1 ≠ key) (GetItemsList c)) ∧
  (∀ size,
     GetItemsList (SetSize size c) = GetItemsList c ∧
     cacheItemsMap (SetSize size c) = cacheItemsMap c ∧
     MaxSize (SetSize size c) = size).
Proof.
  intros c.
  assert (Hwf : wf c) by apply wf_run, wf_new_cache.
  destruct (wf_keys c Hwf) as (Hd & Hnd & Hlen).
  split; [done|]. split; [done|]. split; [done|].
  split; [apply Hwf|]. split; [|split; [|split]].
  - apply Size_run; [apply wf_new_cache|].
    unfold Size, MaxSize. simpl. rewrite map_size_empty. lia.
  - intros key value l. split.
    + by apply Put_items_eq.
    + by apply Put_MaxSize.
  - intros key value Hin.
    destruct (Get_hit key value c Hwf Hin) as (c' & HG & Hl & _).
    by exists c'.
  - done.
Qed.

End Proofs.

(** On a cache of capacity 2, the third [Put] evicts key 1, the least
    recently used, and [Get 2] moves key 2 to the front. *)
Example sample_run_keys :
  list_keys (run [OpPut 1 10; OpPut 2 20; OpPut 3 30]%nat (new_cache 2))
  = [3; 2]%nat ∧
  list_keys (run [OpPut 1 10; OpPut 2 20; OpPut 3 30; OpGet 2]%nat
               (new_cache 2))
  = [2; 3]%nat ∧
  list_keys (run sample_ops (new_cache 2)) = [2]%nat.
Proof. vm_compute. repeat split; reflexivity. Qed.

Lemma cache_sync_and_bound_witness :
  no_shrink sample_ops (new_cache 2) = true ∧
  (Size (run sample_ops (new_cache 2))
   ≤ MaxSize (run sample_ops (new_cache 2)))%nat ∧
  GetItemsList (run [OpPut 1 10; OpPut 2 20; OpGet 1]%nat (new_cache 2))
  = [(1, 10); (2, 20)]%nat ∧
  GetItemsList
    (Put 3 30 (run [OpPut 1 10; OpPut 2 20; OpGet 1] (new_cache 2)))%nat
  = [(3, 30); (1, 10)]%nat.
Proof.
  pose proof (cache_sync_and_bound 2%nat sample_ops)
    as (_ & _ & _ & _ & Hb & _).
  pose proof (cache_sync_and_bound 2%nat [OpPut 1 10; OpPut 2 20; OpGet 1]%nat)
    as (_ & _ & _ & _ & _ & HP & _).
  assert (Hn : no_shrink sample_ops (new_cache 2) = true)
    by (vm_compute; reflexivity).
  split; [exact Hn|]. split; [exact (Hb Hn)|].
  split; [vm_compute; reflexivity|].
  destruct (HP 3 30)%nat as [HP1 _].
  etransitivity; [exact HP1|]. vm_compute. reflexivity.
Defined.

(** C9 fails as stated once [SetSize] shrinks the capacity: it changes
    [maxSize] only, and a later [Put] evicts a single entry. *)
Lemma cache_bound_counterexample :
  let c := run shrinking_ops (new_cache 2) in
  Size c = 2%nat ∧ MaxSize c = 1%nat ∧ ¬ (Size c ≤ MaxSize c)%nat.
Proof. vm_compute. repeat split; try reflexivity. lia. Qed.

Lemma wf_sample_cache : wf sample_cache.
Proof. apply wf_run, wf_new_cache. Qed.

Lemma Put_items_witness :
  GetItemsList sample_cache = [(2, 20); (1, 10)]%nat ∧
  GetItemsList (Put 3 30 sample_cache)%nat = [(3, 30); (2, 20)]%nat ∧
  GetItemsList (Put 1 11 sample_cache)%nat = [(1, 11); (2, 20)]%nat.
Proof.
  destruct (Put_items 3 30 sample_cache wf_sample_cache)%nat as (H1 & _ & _).
  destruct (Put_items 1 11 sample_cache wf_sample_cache)%nat as (H2 & _ & _).
  split; [reflexivity|]. split.
  - etransitivity; [exact H1|]. vm_compute. reflexivity.
  - etransitivity; [exact H2|]. vm_compute. reflexivity.
Defined.

Lemma Get_spec_witness :
  (∃ c', Get 1%nat sample_cache = Some (10%nat, c') ∧
         GetItemsList c' = [(1, 10); (2, 20)]%nat) ∧
  Get 7%nat sample_cache = None.
Proof.
  destruct (Get_spec 1%nat sample_cache wf_sample_cache) as (H1 & _ & _).
  destruct (Get_spec 7%nat sample_cache wf_sample_cache) as (_ & H2 & _).
  split.
  - destruct (H1 10%nat) as (c' & HG & Hl & _).
    + vm_compute. right. left.
    + exists c'. split; [exact HG|].
      etransitivity; [exact Hl|]. vm_compute. reflexivity.
  - apply H2. vm_compute.
    intros Hin. repeat (apply elem_of_cons in Hin as [Hin|Hin];
                        [discriminate Hin|]).
    by apply elem_of_nil in Hin.
Defined.

Lemma Erase_items_witness :
  GetItemsList (Erase 2%nat sample_cache) = [(1, 10)]%nat ∧
  Exists 2%nat (Erase 2%nat sample_cache) = false.
Proof.
  destruct (Erase_items 2%nat sample_cache wf_sample_cache) as (H1 & H2 & _).
  split; [|exact H2].
  etransitivity; [exact H1|]. vm_compute. reflexivity.
Defined.

Lemma Put_Get_witness :
  ∃ c', Get 3%nat (Put 3 30 sample_cache)%nat = Some (30%nat, c') ∧
        GetItemsList c' = GetItemsList (Put 3 30 sample_cache)%nat.
Proof.
  apply (Put_Get 3%nat 30%nat sample_cache wf_sample_cache).
  vm_compute. lia.
Defined.

Lemma default_cache_holds_nothing_witness :
  GetItemsList (run [OpPut 1 10; OpPut 2 20; OpGet 1]%nat
                  (SetNull sample_cache)) = [].
Proof.
  apply (default_cache_holds_nothing
           [OpPut 1 10; OpPut 2 20; OpGet 1]%nat sample_cache).
  reflexivity.
Defined.

End LRUProofs.


Module MinerProofs.
Import Miner.

(** ** Sums over lists of entries *)

Lemma sum_over_app f l1 l2 :
  sum_over f (l1 ++ l2) = sum_over f l1 + sum_over f l2.
Proof. induction l1 as [|x l1 IH]; simpl; [done|]. rewrite IH. lia. Qed.

Lemma sum_over_nonneg f l : (∀ x, 0 <= f x) → 0 <= sum_over f l.
Proof.
  intros Hf. induction l as [|x l IH]; simpl; [done|].
  specialize (Hf x). lia.
Qed.

Lemma sum_over_Permutation f l1 l2 :
  l1 ≡ₚ l2 → sum_over f l1 = sum_over f l2.
Proof. induction 1; simpl; lia. Qed.

Lemma sum_over_le f g l :
  (∀ x, f x <= g x) → sum_over f l <= sum_over g l.
Proof.
  intros Hfg. induction l as [|x l IH]; simpl; [done|].
  specialize (Hfg x). lia.
Qed.

Lemma sum_over_scale c f l :
  sum_over (λ x, c * f x) l = c * sum_over f l.
Proof. induction l as [|x l IH]; simpl; [lia|]. rewrite IH. lia. Qed.

Lemma sum_over_filter_mono f (P Q : nat → Prop)
    `{∀ x, Decision (P x)} `{∀ x, Decision (Q x)} l :
  (∀ x, 0 <= f x) → (∀ x, Q x → P x) →
  sum_over f (filter Q l) <= sum_over f (filter P l).
Proof.
  intros Hf HQP. induction l as [|x l IH]; [done|].
  rewrite !filter_cons. specialize (Hf x).
  destruct (decide (Q x)) as [HQ|HQ], (decide (P x)) as [HP|HP]; simpl;
    try lia.
  exfalso. auto.
Qed.

Lemma sum_over_filter_le f (P : nat → Prop) `{∀ x, Decision (P x)} l :
  (∀ x, 0 <= f x) → sum_over f (filter P l) <= sum_over f l.
Proof.
  intros Hf. induction l as [|x l IH]; [done|].
  rewrite filter_cons. specialize (Hf x).
  destruct (decide (P x)); simpl; lia.
Qed.

Lemma filter_ext_elem {A} (P Q : A → Prop)
    `{∀ x, Decision (P x)} `{∀ x, Decision (Q x)} (l : list A) :
  (∀ x, x ∈ l → (P x ↔ Q x)) → filter P l = filter Q l.
Proof.
  induction l as [|x l IH]; intros Hext; [done|].
  assert (Hx : P x ↔ Q x) by (apply Hext; left).
  assert (Hl : filter P l = filter Q l).
  { apply IH. intros y Hy. apply Hext. by right. }
  rewrite !filter_cons, Hl.
  destruct (decide (P x)), (decide (Q x)); tauto.
Qed.

Lemma sum_over_filter_remove f (P Q : nat → Prop)
    `{∀ x, Decision (P x)} `{∀ x, Decision (Q x)} l y :
  NoDup l → y ∈ l → P y →
  (∀ x, Q x ↔ P x ∧ x ≠ y) →
  sum_over f (filter Q l) = sum_over f (filter P l) - f y.
Proof.
  intros Hnd Hy HP HQ. induction l as [|x l IH]; [by apply elem_of_nil in Hy|].
  apply NoDup_cons in Hnd as [Hx Hnd].
  rewrite !filter_cons.
  apply elem_of_cons in Hy as [->|Hy].
  - destruct (decide (Q x)) as [HQx|HQx]; [apply HQ in HQx; tauto|].
    destruct (decide (P x)); [|tauto]. simpl.
    assert (filter Q l = filter P l) as ->; [|lia].
    apply filter_ext_elem. intros z Hz. rewrite HQ.
    split; [tauto|]. intros ?. split; [done|]. by intros ->.
  - specialize (IH Hnd Hy).
    assert (x ≠ y) by (by intros ->).
    destruct (decide (Q x)) as [HQx|HQx], (decide (P x)) as [HPx|HPx];
      simpl; try lia.
    + apply HQ in HQx. tauto.
    + exfalso. apply HQx. apply HQ. done.
Qed.

(** ** Sets as lists *)

Lemma elem_of_set_insert x y (s : list nat) :
  y ∈ set_insert x s ↔ y = x ∨ y ∈ s.
Proof.
  unfold set_insert. case_bool_decide as Hx.
  - split; [tauto|]. by intros [->|?].
  - rewrite elem_of_app, list_elem_of_singleton. tauto.
Qed.

Lemma set_insert_fresh x (s : list nat) : x ∉ s → set_insert x s = s ++ [x].
Proof. intros Hx. unfold set_insert. by rewrite bool_decide_eq_false_2. Qed.

Section Assembler.

Variable mempool : CTxMemPool.
Variable IsFinalTx : nat → bool.
Variable CompareModifiedEntry :
  CTxMemPoolModifiedEntry → CTxMemPoolModifiedEntry → bool.
Variable blockMinFeeRate_GetFee : Z → Z.
Variable WITNESS_SCALE_FACTOR : Z.
Variable MAX_BLOCK_SIGOPS_COST : Z.
Variable nBlockMaxWeight : Z.

Hypothesis Hpool : consistent mempool WITNESS_SCALE_FACTOR.
Hypothesis Hweight_limit : 4000 <= nBlockMaxWeight < 2 ^ 63.
Hypothesis Hsigops_limit : 400 <= MAX_BLOCK_SIGOPS_COST < 2 ^ 63.

Local Abbreviation anc := (CalculateMemPoolAncestors mempool).
Local Abbreviation desc := (CalculateDescendants mempool).
Local Abbreviation size_of := (size_of mempool).
Local Abbreviation weight_of := (weight_of mempool).
Local Abbreviation sigops_of := (sigops_of mempool).
Local Abbreviation count_of := (count_of mempool).
Local Abbreviation pending := (pending mempool).
Local Abbreviation modified_ok := (modified_ok mempool).
Local Abbreviation block_ok :=
  (block_ok mempool MAX_BLOCK_SIGOPS_COST nBlockMaxWeight).
Local Abbreviation loop_inv :=
  (loop_inv mempool MAX_BLOCK_SIGOPS_COST nBlockMaxWeight).
Local Abbreviation outside := (outside mempool).
Local Abbreviation candidates_in_pool := (candidates_in_pool mempool).
Local Abbreviation progress := (progress mempool).
Local Abbreviation AddToBlock := (AddToBlock mempool).
Local Abbreviation TestPackage :=
  (TestPackage WITNESS_SCALE_FACTOR MAX_BLOCK_SIGOPS_COST nBlockMaxWeight).
Local Abbreviation SortForBlock := (SortForBlock mempool).
Local Abbreviation package_of := (package_of mempool).
Local Abbreviation UpdatePackagesForAdded := (UpdatePackagesForAdded mempool).
Local Abbreviation evaluate_candidate :=
  (evaluate_candidate mempool IsFinalTx blockMinFeeRate_GetFee
     WITNESS_SCALE_FACTOR MAX_BLOCK_SIGOPS_COST nBlockMaxWeight).
Local Abbreviation addPackageTxs_step :=
  (addPackageTxs_step mempool IsFinalTx CompareModifiedEntry
     blockMinFeeRate_GetFee WITNESS_SCALE_FACTOR MAX_BLOCK_SIGOPS_COST
     nBlockMaxWeight).
Local Abbreviation addPackageTxs_loop :=
  (addPackageTxs_loop mempool IsFinalTx CompareModifiedEntry
     blockMinFeeRate_GetFee WITNESS_SCALE_FACTOR MAX_BLOCK_SIGOPS_COST
     nBlockMaxWeight).

Implicit Types (a : BlockAssembler) (st : LoopState) (x y it : nat)
  (B P s inB : list nat) (m : list CTxMemPoolModifiedEntry)
  (e : CTxMemPoolModifiedEntry).

Lemma wrap64_small z : 0 <= z < 2 ^ 64 → wrap64 z = z.
Proof. intros. unfold wrap64. apply Z.mod_small. lia. Qed.

(** *** [pending] *)

Lemma pending_ext f B B' x :
  (∀ y, y ∈ B ↔ y ∈ B') → pending f B x = pending f B' x.
Proof.
  intros HB. unfold pending. f_equal. f_equal.
  apply list_filter_iff. intros y. by rewrite HB.
Qed.

Lemma pending_mono f B y x :
  (∀ z, 0 <= f z) → pending f (B ++ [y]) x <= pending f B x.
Proof.
  intros Hf. unfold pending.
  assert (sum_over f (filter (λ b : nat, b ∉ B ++ [y]) (anc x))
          <= sum_over f (filter (λ b : nat, b ∉ B) (anc x))); [|lia].
  apply sum_over_filter_mono; [done|].
  intros z Hz Hin. apply Hz. apply elem_of_app. by left.
Qed.

Lemma pending_remove f B y x :
  y ∈ anc x → y ∉ B →
  pending f (B ++ [y]) x = pending f B x - f y.
Proof.
  intros Hy HB. unfold pending.
  rewrite (sum_over_filter_remove f (λ b : nat, b ∉ B) (λ b : nat, b ∉ B ++ [y])
             (anc x) y); [lia|by apply (ancestors_NoDup _ _ Hpool)|done..|].
  intros z. rewrite elem_of_app, list_elem_of_singleton. tauto.
Qed.

Lemma pending_le_full f B x :
  (∀ z, 0 <= f z) → pending f B x <= f x + sum_over f (anc x).
Proof.
  intros Hf. unfold pending.
  pose proof (sum_over_filter_le f (λ b : nat, b ∉ B) (anc x) Hf). lia.
Qed.

Lemma pending_nonneg f B x : (∀ z, 0 <= f z) → 0 <= pending f B x.
Proof.
  intros Hf. unfold pending.
  pose proof (sum_over_nonneg f (filter (λ b : nat, b ∉ B) (anc x)) Hf).
  specialize (Hf x). lia.
Qed.

Lemma not_own_ancestor x : x ∉ anc x.
Proof.
  intros Hx. pose proof (ancestors_count _ _ Hpool x x Hx). lia.
Qed.

(** *** The package *)

Lemma package_of_eq a it :
  package_of a it = filter (λ y, y ∉ inBlock a) (anc it) ++ [it].
Proof.
  unfold package_of, onlyUnconfirmed. apply set_insert_fresh.
  intros [_ Hin]%list_elem_of_filter. by apply not_own_ancestor in Hin.
Qed.

Lemma package_of_NoDup a it : NoDup (package_of a it).
Proof.
  rewrite package_of_eq. apply NoDup_app. split; [|split].
  - apply NoDup_filter, (ancestors_NoDup _ _ Hpool).
  - intros y [_ Hin]%list_elem_of_filter ->%list_elem_of_singleton.
    by apply not_own_ancestor in Hin.
  - apply NoDup_singleton.
Qed.

Lemma elem_of_package_of a it y :
  y ∈ package_of a it ↔ y = it ∨ (y ∈ anc it ∧ y ∉ inBlock a).
Proof.
  rewrite package_of_eq, elem_of_app, list_elem_of_singleton,
    list_elem_of_filter. tauto.
Qed.

Lemma package_of_sum f a it :
  sum_over f (package_of a it) = pending f (inBlock a) it.
Proof.
  rewrite package_of_eq, sum_over_app. unfold pending. simpl. lia.
Qed.

Lemma package_of_closed a it y b :
  y ∈ package_of a it → b ∈ anc y →
  b ∈ inBlock a ∨ b ∈ package_of a it.
Proof.
  intros Hy Hb.
  assert (Hbit : b ∈ anc it).
  { apply elem_of_package_of in Hy as [->|[Hy _]]; [done|].
    by apply (ancestors_closed _ _ Hpool it y b). }
  destruct (decide (b ∈ inBlock a)); [by left|right].
  apply elem_of_package_of. by right.
Qed.

(** *** Sorting the package *)

Local Instance CompareTxIterByAncestorCount_total :
  Total (CompareTxIterByAncestorCount mempool).
Proof.
  intros x y. unfold CompareTxIterByAncestorCount. lia.
Qed.

Local Instance CompareTxIterByAncestorCount_trans :
  Transitive (CompareTxIterByAncestorCount mempool).
Proof.
  intros x y z. unfold CompareTxIterByAncestorCount. lia.
Qed.

Lemma SortForBlock_Permutation P : SortForBlock P ≡ₚ P.
Proof. apply merge_sort_Permutation. Qed.

Lemma SortForBlock_order P s1 x s2 b :
  SortForBlock P = s1 ++ x :: s2 → b ∈ s2 → count_of x <= count_of b.
Proof.
  intros Hs Hb.
  pose proof (StronglySorted_merge_sort (CompareTxIterByAncestorCount mempool)
                P) as Hsorted.
  fold (SortForBlock P) in Hsorted. rewrite Hs in Hsorted.
  replace (s1 ++ x :: s2) with ((s1 ++ [x]) ++ s2) in Hsorted
    by by rewrite <- app_assoc.
  assert (HR : CompareTxIterByAncestorCount mempool x b).
  { eapply StronglySorted_app_1_elem_of; [done| |done].
    apply elem_of_app. right. left. }
  unfold CompareTxIterByAncestorCount in HR.
  unfold Miner.count_of. unfold entry in HR. lia.
Qed.

(** *** Adding the sorted package *)

Lemma add_package s a m :
  let r := fold_left (λ am x, (AddToBlock am.1 x, modified_erase x am.2))
             s (a, m) in
  vtx r.1 = vtx a ++ s ∧
  (∀ x, x ∈ inBlock r.1 ↔ x ∈ inBlock a ∨ x ∈ s) ∧
  (∀ e, e ∈ r.2 ↔ e ∈ m ∧ iter e ∉ s) ∧
  (0 <= nBlockWeight a →
   nBlockWeight a + sum_over weight_of s < 2 ^ 64 →
   nBlockWeight r.1 = nBlockWeight a + sum_over weight_of s) ∧
  (0 <= nBlockSigOpsCost a →
   nBlockSigOpsCost a + sum_over sigops_of s < 2 ^ 64 →
   nBlockSigOpsCost r.1 = nBlockSigOpsCost a + sum_over sigops_of s).
Proof.
  revert a m. induction s as [|y s IH]; intros a m; simpl.
  - split; [|split; [|split; [|split]]]; try (intros; lia).
    + by rewrite app_nil_r.
    + intros x. split; [tauto|].
      intros [? | Hx]; [done|]. by apply elem_of_nil in Hx.
    + intros e. split; [|tauto].
      intros ?. split; [done|]. by intros ?%elem_of_nil.
  - destruct (IH (AddToBlock a y) (modified_erase y m))
      as (Hv & Hin & Hm & Hw & Hs).
    pose proof (weight_nonneg _ _ Hpool y) as Hwy.
    pose proof (sigops_nonneg _ _ Hpool y) as Hsy.
    pose proof (sum_over_nonneg weight_of s (weight_nonneg _ _ Hpool)).
    pose proof (sum_over_nonneg sigops_of s (sigops_nonneg _ _ Hpool)).
    split; [|split; [|split; [|split]]].
    + rewrite Hv. simpl. by rewrite <- app_assoc.
    + intros x. rewrite Hin. simpl. rewrite elem_of_set_insert, elem_of_cons.
      tauto.
    + intros e. rewrite Hm. unfold modified_erase.
      rewrite list_elem_of_filter, elem_of_cons. tauto.
    + intros Hge Hlt. rewrite Hw; simpl; unfold entry;
        fold (weight_of y); rewrite wrap64_small by lia; lia.
    + intros Hge Hlt. rewrite Hs; simpl; unfold entry;
        fold (sigops_of y); rewrite wrap64_small by lia; lia.
Qed.

Lemma ancestors_first_app (l s : list nat) it a :
  (∀ x, x ∈ inBlock a ↔ x ∈ l) →
  ancestors_first mempool l →
  s ≡ₚ package_of a it →
  (∀ s1 x s2 b, s = s1 ++ x :: s2 → b ∈ s2 → count_of x <= count_of b) →
  ancestors_first mempool (l ++ s).
Proof.
  intros Hin Hl Hperm Hsorted l1 x l2 Heq b Hb.
  apply app_eq_inv in Heq as [(k & Hk1 & Hk2)|(k & Hk1 & Hk2)].
  - destruct k as [|x' k].
    + simpl in Hk2. rewrite app_nil_r in Hk1. subst l1.
      assert (Hx : x ∈ package_of a it).
      { rewrite <- Hperm, <- Hk2. left. }
      destruct (package_of_closed _ _ _ _ Hx Hb) as [Hb'|Hb'].
      * by apply Hin.
      * exfalso. rewrite <- Hperm, <- Hk2 in Hb'.
        pose proof (ancestors_count _ _ Hpool x b Hb) as Hc.
        apply elem_of_cons in Hb' as [->|Hb']; [lia|].
        pose proof (Hsorted [] x l2 b (eq_sym Hk2) Hb'). lia.
    + injection Hk2 as <- Hk2. apply (Hl l1 x k); [|done].
      by rewrite Hk1.
  - subst l1. apply elem_of_app.
    assert (Hx : x ∈ package_of a it).
    { rewrite <- Hperm, Hk2. apply elem_of_app. right. left. }
    destruct (package_of_closed _ _ _ _ Hx Hb) as [Hb'|Hb'].
    + left. by apply Hin.
    + right. rewrite <- Hperm, Hk2 in Hb'.
      pose proof (ancestors_count _ _ Hpool x b Hb) as Hc.
      apply elem_of_app in Hb' as [Hb'|Hb']; [done|].
      apply elem_of_cons in Hb' as [->|Hb']; [lia|].
      pose proof (Hsorted k x l2 b Hk2 Hb'). lia.
Qed.

(** *** The budget *)

Lemma TestPackage_budget a packageSize packageSigOpsCost it :
  block_ok a →
  pending size_of (inBlock a) it <= packageSize →
  packageSize <= GetSizeWithAncestors (mapTx mempool it) →
  pending sigops_of (inBlock a) it <= packageSigOpsCost →
  packageSigOpsCost <= GetSigOpCostWithAncestors (mapTx mempool it) →
  TestPackage a packageSize packageSigOpsCost = true →
  nBlockWeight a + sum_over weight_of (package_of a it) < nBlockMaxWeight ∧
  nBlockSigOpsCost a + sum_over sigops_of (package_of a it)
  < MAX_BLOCK_SIGOPS_COST.
Proof.
  intros (_ & _ & Hw & Hwle & Hs & Hsle) Hp1 Hp2 Hq1 Hq2 Htest.
  pose proof (scale_pos _ _ Hpool) as Hscale.
  pose proof (size_range _ _ Hpool it) as Hsr.
  pose proof (sigops_range _ _ Hpool it) as Hgr.
  pose proof (pending_nonneg size_of (inBlock a) it (size_nonneg _ _ Hpool)).
  pose proof (pending_nonneg sigops_of (inBlock a) it
                (sigops_nonneg _ _ Hpool)).
  pose proof (sum_over_nonneg weight_of (vtx a) (weight_nonneg _ _ Hpool)).
  pose proof (sum_over_nonneg sigops_of (vtx a) (sigops_nonneg _ _ Hpool)).
  assert (Hsum : sum_over weight_of (package_of a it)
                 <= WITNESS_SCALE_FACTOR * packageSize).
  { transitivity (sum_over (λ x, WITNESS_SCALE_FACTOR * size_of x)
                    (package_of a it)).
    - apply sum_over_le, (weight_size _ _ Hpool).
    - rewrite sum_over_scale, package_of_sum. nia. }
  rewrite (package_of_sum sigops_of).
  unfold Miner.TestPackage in Htest.
  rewrite (wrap64_small (WITNESS_SCALE_FACTOR * packageSize)) in Htest by nia.
  rewrite !wrap64_small in Htest by nia.
  destruct (Z.geb_spec (nBlockWeight a + WITNESS_SCALE_FACTOR * packageSize)
              nBlockMaxWeight); [discriminate|].
  destruct (Z.geb_spec (nBlockSigOpsCost a + packageSigOpsCost)
              MAX_BLOCK_SIGOPS_COST); [discriminate|].
  lia.
Qed.

(** *** Modified entries *)

Lemma modified_ok_ext B B' e :
  (∀ y, y ∈ B ↔ y ∈ B') → modified_ok B e → modified_ok B' e.
Proof.
  intros HB (H1 & H2 & H3 & H4). unfold Miner.modified_ok.
  by rewrite <- !(pending_ext _ B B' _ HB).
Qed.

Lemma modified_ok_mono B y e : modified_ok B e → modified_ok (B ++ [y]) e.
Proof.
  intros (H1 & H2 & H3 & H4).
  pose proof (pending_mono size_of B y (iter e) (size_nonneg _ _ Hpool)).
  pose proof (pending_mono sigops_of B y (iter e) (sigops_nonneg _ _ Hpool)).
  unfold Miner.modified_ok. repeat split; lia.
Qed.

Lemma ModifiedEntry_of_ok B x : modified_ok B (ModifiedEntry_of mempool x).
Proof.
  unfold Miner.modified_ok, ModifiedEntry_of, entry. simpl.
  rewrite (size_with_ancestors _ _ Hpool), (sigops_with_ancestors _ _ Hpool).
  pose proof (pending_le_full size_of B x (size_nonneg _ _ Hpool)).
  pose proof (pending_le_full sigops_of B x (sigops_nonneg _ _ Hpool)).
  repeat split; lia.
Qed.

Lemma without_parent_ok B y e :
  y ∈ anc (iter e) → y ∉ B → modified_ok B e →
  modified_ok (B ++ [y]) (without_parent mempool y e).
Proof.
  intros Hy HB (H1 & H2 & H3 & H4).
  pose proof (pending_remove size_of B y (iter e) Hy HB) as E1.
  pose proof (pending_remove sigops_of B y (iter e) Hy HB) as E2.
  pose proof (pending_nonneg size_of (B ++ [y]) (iter e)
                (size_nonneg _ _ Hpool)).
  pose proof (size_nonneg _ _ Hpool y) as Hsy.
  pose proof (sigops_nonneg _ _ Hpool y) as Hgy.
  pose proof (scale_pos _ _ Hpool) as Hscale.
  pose proof (size_range _ _ Hpool (iter e)) as Hsr.
  unfold Miner.modified_ok, without_parent, entry. simpl.
  fold (size_of y). fold (sigops_of y).
  rewrite wrap64_small by nia.
  repeat split; lia.
Qed.

Lemma modified_find_None x m :
  modified_find x m = None → ∀ e, e ∈ m → iter e ≠ x.
Proof.
  unfold modified_find. intros Hnone e He Hx.
  assert (Hin : e ∈ filter (λ e', iter e' = x) m)
    by by apply list_elem_of_filter.
  destruct (filter _ m); [by apply elem_of_nil in Hin|discriminate].
Qed.

Lemma modified_begin_elem m e :
  modified_begin CompareModifiedEntry m = Some e → e ∈ m.
Proof.
  destruct m as [|e0 m]; simpl; [discriminate|]. intros [= <-].
  assert (Hgen : ∀ l b, fold_left (λ best e', if CompareModifiedEntry e' best
                                        then e' else best) l b ∈ b :: l).
  { induction l as [|z l IH]; intros b; simpl; [left|].
    specialize (IH (if CompareModifiedEntry z b then z else b)).
    destruct (CompareModifiedEntry z b).
    - right. exact IH.
    - apply elem_of_cons in IH as [->|IH]; [left|right; by right]. }
  apply Hgen.
Qed.

(** The entries after the descendants of one added transaction [y] have
    been updated. *)
Lemma update_for_added_ok P inB B y :
  y ∈ P → y ∉ inB → y ∉ B →
  (∀ x b, x ∈ inB → b ∈ anc x → b ∈ inB) →
  ∀ acc,
    (∀ e, e ∈ acc.1 → (iter e ∉ inB) ∧ (iter e ∉ P) ∧ modified_ok B e) →
    ∀ e, e ∈ (update_for_added mempool P acc y).1 →
         (iter e ∉ inB) ∧ (iter e ∉ P) ∧ modified_ok (B ++ [y]) e.
Proof.
  intros HyP HyinB HyB Hclosed acc Hacc. unfold update_for_added.
  pose proof (descendants_NoDup _ _ Hpool y) as Hnd.
  assert (Hgen : ∀ post pre acc',
    desc y = pre ++ post →
    (∀ e, e ∈ acc'.1 →
          (iter e ∉ inB) ∧ (iter e ∉ P) ∧
          (iter e ∈ pre → modified_ok (B ++ [y]) e) ∧
          (iter e ∉ pre → modified_ok B e)) →
    ∀ e, e ∈ (fold_left (update_descendant mempool P y) post acc').1 →
         (iter e ∉ inB) ∧ (iter e ∉ P) ∧ modified_ok (B ++ [y]) e).
  { induction post as [|d post IH]; intros pre acc' Hd Hinv; simpl.
    - intros e He. destruct (Hinv e He) as (H1 & H2 & H3 & H4).
      split; [done|]. split; [done|].
      destruct (decide (iter e ∈ pre)); [by apply H3|].
      by apply modified_ok_mono, H4.
    - apply (IH (pre ++ [d])); [by rewrite <- app_assoc|].
      assert (Hdpre : d ∉ pre).
      { rewrite Hd in Hnd. apply NoDup_app in Hnd as (_ & Hdis & _).
        intros Hin. apply (Hdis d Hin). left. }
      assert (Hpre : ∀ z, z ≠ d → (z ∈ pre ++ [d] ↔ z ∈ pre)).
      { intros z Hz. rewrite elem_of_app, list_elem_of_singleton. tauto. }
      unfold update_descendant. case_bool_decide as HdP.
      + intros e He. destruct (Hinv e He) as (H1 & H2 & H3 & H4).
        assert (iter e ≠ d) by (by intros <-).
        rewrite Hpre by done. done.
      + assert (Hdy : y ∈ anc d).
        { destruct (descendants_ancestors _ _ Hpool y d) as [->|?]; try done.
          rewrite Hd. apply elem_of_app. right. left. }
        assert (HdinB : d ∉ inB).
        { intros Hin. apply HyinB. by apply (Hclosed d y). }
        destruct (modified_find d acc'.1) as [e0|] eqn:Efind; simpl.
        * intros e' (e & -> & He)%list_elem_of_fmap.
          destruct (Hinv e He) as (H1 & H2 & H3 & H4).
          case_bool_decide as Hed.
          -- cbn [iter without_parent]. rewrite Hed.
             split; [done|]. split; [done|]. split.
             ++ intros _. apply without_parent_ok; [by rewrite Hed|done|].
                apply H4. by rewrite Hed.
             ++ intros Hn. exfalso. apply Hn. apply elem_of_app. right. left.
          -- rewrite Hpre by done. done.
        * intros e [He|He]%elem_of_app;
            [|apply list_elem_of_singleton in He; subst e].
          -- destruct (Hinv e He) as (H1 & H2 & H3 & H4).
             pose proof (modified_find_None _ _ Efind e He).
             rewrite Hpre by done. done.
          -- cbn [iter without_parent ModifiedEntry_of].
             split; [done|]. split; [done|]. split.
             ++ intros _. apply without_parent_ok; [done..|].
                apply ModifiedEntry_of_ok.
             ++ intros Hn. exfalso. apply Hn. apply elem_of_app. right. left. }
  apply (Hgen (desc y) [] acc); [done|].
  intros e He. destruct (Hacc e He) as (H1 & H2 & H3).
  split; [done|]. split; [done|]. split; [by intros ?%elem_of_nil|done].
Qed.

Lemma UpdatePackagesForAdded_ok P inB m :
  NoDup P →
  (∀ y, y ∈ P → y ∉ inB) →
  (∀ x b, x ∈ inB → b ∈ anc x → b ∈ inB) →
  (∀ e, e ∈ m → (iter e ∉ inB) ∧ (iter e ∉ P) ∧ modified_ok inB e) →
  ∀ e, e ∈ (UpdatePackagesForAdded P m).1 →
       (iter e ∉ inB) ∧ (iter e ∉ P) ∧ modified_ok (inB ++ P) e.
Proof.
  intros HndP HPinB Hclosed Hm. unfold Miner.UpdatePackagesForAdded.
  assert (Hgen : ∀ rest D acc,
    P = D ++ rest →
    (∀ e, e ∈ acc.1 → (iter e ∉ inB) ∧ (iter e ∉ P) ∧ modified_ok (inB ++ D) e) →
    ∀ e, e ∈ (fold_left (update_for_added mempool P) rest acc).1 →
         (iter e ∉ inB) ∧ (iter e ∉ P) ∧ modified_ok (inB ++ P) e).
  { induction rest as [|y rest IH]; intros D acc HP Hacc; simpl.
    - rewrite app_nil_r in HP. by subst D.
    - apply (IH (D ++ [y])); [by rewrite <- app_assoc|].
      intros e He. rewrite app_assoc.
      assert (HyP : y ∈ P).
      { rewrite HP. apply elem_of_app. right. left. }
      apply (update_for_added_ok P inB (inB ++ D) y) with (acc := acc);
        try done; [by apply HPinB|].
      intros [Hin|Hin]%elem_of_app; [by apply (HPinB y)|].
      rewrite HP in HndP. apply NoDup_app in HndP as (_ & Hdis & _).
      apply (Hdis y Hin). left. }
  apply (Hgen P [] (m, 0)); [done|].
  intros e He. rewrite app_nil_r. by apply Hm.
Qed.

(** *** One pass of the loop keeps the invariant *)

Lemma block_ok_closed a x b :
  block_ok a → x ∈ inBlock a → b ∈ anc x → b ∈ inBlock a.
Proof.
  intros (Hin & Hfirst & _) Hx Hb.
  apply Hin in Hx. apply list_elem_of_split in Hx as (l1 & l2 & Hv).
  apply Hin. rewrite Hv. apply elem_of_app. left. by apply (Hfirst l1 x l2).
Qed.

Lemma fail_candidate_inv st it (fUsingModified : bool) mi' failures :
  loop_inv st →
  loop_inv (fail_candidate st it fUsingModified mi' failures).
Proof.
  intros [Hb Hm]. split; [done|]. simpl. intros e He. apply Hm.
  destruct fUsingModified; [|done].
  by apply list_elem_of_filter in He as [_ ?].
Qed.

Lemma package_added_inv st it mi' failures selected updated_count :
  loop_inv st →
  it ∉ inBlock (asm st) →
  nBlockWeight (asm st) + sum_over weight_of (package_of (asm st) it)
  < nBlockMaxWeight →
  nBlockSigOpsCost (asm st) + sum_over sigops_of (package_of (asm st) it)
  < MAX_BLOCK_SIGOPS_COST →
  let added :=
    fold_left (λ am x, (AddToBlock am.1 x, modified_erase x am.2))
      (SortForBlock (package_of (asm st) it)) (asm st, mapModifiedTx st) in
  let updated := UpdatePackagesForAdded (package_of (asm st) it) added.2 in
  loop_inv {|
    asm := added.1;
    mapModifiedTx := updated.1;
    failedTx := failedTx st;
    mi := mi';
    nConsecutiveFailed := failures;
    nPackagesSelected := selected;
    nDescendantsUpdated := updated_count
  |}.
Proof.
  intros [Hb Hm] Hit Hwlt Hslt added updated.
  set (a := asm st) in *. set (P := package_of a it) in *.
  set (s := SortForBlock P) in *.
  pose proof (SortForBlock_Permutation P) as Hperm. fold s in Hperm.
  destruct (add_package s a (mapModifiedTx st))
    as (Hv & Hin & Hmod & Hw & Hs).
  fold added in Hv, Hin, Hmod, Hw, Hs.
  pose proof Hb as (Hin0 & Hfirst & Hw0 & Hwle & Hs0 & Hsle).
  pose proof (sum_over_nonneg weight_of (vtx a) (weight_nonneg _ _ Hpool)).
  pose proof (sum_over_nonneg sigops_of (vtx a) (sigops_nonneg _ _ Hpool)).
  rewrite <- (sum_over_Permutation weight_of s P Hperm) in Hwlt.
  rewrite <- (sum_over_Permutation sigops_of s P Hperm) in Hslt.
  split; simpl.
  - split; [|split; [|split; [|split; [|split]]]].
    + intros x. rewrite Hin, Hv, elem_of_app, Hin0. done.
    + rewrite Hv. apply (ancestors_first_app _ _ it a); try done.
      intros s1 x s2 b Heq. by apply (SortForBlock_order P s1 x s2 b).
    + rewrite Hw, Hv, sum_over_app by lia. lia.
    + rewrite Hw by lia. lia.
    + rewrite Hs, Hv, sum_over_app by lia. lia.
    + rewrite Hs by lia. lia.
  - intros e He.
    destruct (UpdatePackagesForAdded_ok P (inBlock a) added.2) with (e := e)
      as (H1 & H2 & H3); try done.
    + apply package_of_NoDup.
    + intros y [->|[_ ?]]%elem_of_package_of; done.
    + intros x b. by apply block_ok_closed.
    + intros e' [He' Hs']%Hmod. destruct (Hm e' He') as [? ?].
      split; [done|]. split; [by rewrite <- Hperm|done].
    + split.
      * rewrite Hin. rewrite Hperm. tauto.
      * apply (modified_ok_ext (inBlock a ++ P)); [|done].
        intros y. rewrite Hin, elem_of_app, Hperm. done.
Qed.

Lemma evaluate_candidate_inv st it modit mi' :
  loop_inv st →
  (∀ e, modit = Some e → e ∈ mapModifiedTx st ∧ iter e = it) →
  match evaluate_candidate st it modit mi' with
  | Continue st' | Return st' => loop_inv st'
  | AssertionFailed => True
  end.
Proof.
  intros Hinv Hmodit. unfold Miner.evaluate_candidate.
  case_bool_decide as Hit; [done|].
  destruct (_ <? _); [by apply fail_candidate_inv|].
  destruct (TestPackage _ _ _) eqn:Htest; cbn [negb].
  2: { destruct (_ && _); by apply fail_candidate_inv. }
  destruct (TestPackageTransactions _ _); cbn [negb];
    [|by apply fail_candidate_inv].
  assert (Hbudget :
    nBlockWeight (asm st) + sum_over weight_of (package_of (asm st) it)
    < nBlockMaxWeight ∧
    nBlockSigOpsCost (asm st) + sum_over sigops_of (package_of (asm st) it)
    < MAX_BLOCK_SIGOPS_COST).
  { destruct Hinv as [Hb Hm]. destruct modit as [e|].
    - destruct (Hmodit e eq_refl) as [He <-].
      destruct (Hm e He) as (_ & H1 & H2 & H3 & H4).
      by apply (TestPackage_budget _ _ _ _ Hb H1 H2 H3 H4).
    - destruct (ModifiedEntry_of_ok (inBlock (asm st)) it)
        as (H1 & H2 & H3 & H4).
      by apply (TestPackage_budget _ _ _ _ Hb H1 H2 H3 H4). }
  destruct Hbudget as [Hw Hs].
  by apply package_added_inv.
Qed.

Lemma addPackageTxs_step_inv st :
  loop_inv st →
  match addPackageTxs_step st with
  | Continue st' | Return st' => loop_inv st'
  | AssertionFailed => True
  end.
Proof.
  intros Hinv. unfold Miner.addPackageTxs_step.
  destruct (mi st) as [|it mi'].
  - destruct (modified_begin _ _) as [modit|] eqn:Eb; [|done].
    apply evaluate_candidate_inv; [done|].
    intros e [= <-]. split; [|done]. by apply modified_begin_elem in Eb.
  - destruct (SkipMapTxEntry _ _ _ _); [done|].
    destruct (modified_begin _ _) as [modit|] eqn:Eb.
    + destruct (CompareModifiedEntry _ _).
      * apply evaluate_candidate_inv; [done|].
        intros e [= <-]. split; [|done]. by apply modified_begin_elem in Eb.
      * by apply evaluate_candidate_inv.
    + by apply evaluate_candidate_inv.
Qed.

Lemma addPackageTxs_loop_inv fuel st st' :
  loop_inv st → addPackageTxs_loop fuel st = Done st' → loop_inv st'.
Proof.
  revert st. induction fuel as [|fuel IH]; intros st Hinv; simpl.
  - destruct (mi st), (mapModifiedTx st); try discriminate.
    by intros [= <-].
  - pose proof (addPackageTxs_step_inv st Hinv) as Hstep.
    destruct (mi st), (mapModifiedTx st); try (by intros [= <-]);
      destruct (addPackageTxs_step st); try discriminate;
      try (by intros [= <-]); by apply IH.
Qed.

Lemma addPackageTxs_init_inv :
  loop_inv (addPackageTxs_init mempool resetBlock).
Proof.
  split; simpl.
  - split; [done|]. split; [|simpl; lia].
    intros l1 x l2 Heq. by destruct l1.
  - intros e He. by apply elem_of_nil in He.
Qed.

(** *** The loop ends *)

Lemma fold_left_preserves {A C} (I : A → Prop) (f : A → C → A)
    (l : list C) (acc : A) :
  (∀ (acc' : A) (c : C), c ∈ l → I acc' → I (f acc' c)) →
  I acc → I (fold_left f l acc).
Proof.
  revert acc. induction l as [|c l IH]; intros acc Hf Hacc; simpl; [done|].
  apply IH.
  - intros acc' c' Hc'. apply Hf. by right.
  - apply Hf; [left|done].
Qed.

Lemma length_filter_lt_strict {A} (P Q : A → Prop)
    `{∀ z, Decision (P z)} `{∀ z, Decision (Q z)} (l : list A) (c : A) :
  (∀ z : A, Q z → P z) → c ∈ l → P c → ¬ Q c →
  (length (filter Q l) < length (filter P l))%nat.
Proof.
  intros HQP Hc HP HQ. induction l as [|z l IH];
    [by apply elem_of_nil in Hc|].
  assert (Hle : (length (filter Q l) ≤ length (filter P l))%nat).
  { clear IH Hc. induction l as [|z' l IH]; [done|].
    rewrite !filter_cons.
    destruct (decide (Q z')) as [Hz|Hz], (decide (P z')) as [Hz'|Hz'];
      simpl; try lia.
    exfalso. auto. }
  rewrite !filter_cons.
  apply elem_of_cons in Hc as [<-|Hc].
  - destruct (decide (Q c)); [done|]. destruct (decide (P c)); [|done].
    simpl. lia.
  - specialize (IH Hc).
    destruct (decide (Q z)) as [Hz|Hz], (decide (P z)) as [Hz'|Hz'];
      simpl; try lia.
    exfalso. auto.
Qed.

Lemma UpdatePackagesForAdded_pool P m :
  (∀ e, e ∈ m → iter e ∈ ancestor_score mempool) →
  ∀ e, e ∈ (UpdatePackagesForAdded P m).1 → iter e ∈ ancestor_score mempool.
Proof.
  intros Hm. unfold Miner.UpdatePackagesForAdded.
  apply (fold_left_preserves
           (λ acc, ∀ e, e ∈ acc.1 → iter e ∈ ancestor_score mempool));
    [|done].
  intros acc y _ Hacc. unfold update_for_added.
  apply (fold_left_preserves
           (λ acc, ∀ e, e ∈ acc.1 → iter e ∈ ancestor_score mempool));
    [|done].
  intros acc' d Hd Hacc'. unfold update_descendant.
  case_bool_decide; [done|].
  pose proof (descendants_pool _ _ Hpool y d Hd) as HdU.
  destruct (modified_find d acc'.1); simpl.
  - intros e' (e & -> & He)%list_elem_of_fmap.
    case_bool_decide; [|by apply Hacc'].
    simpl. by apply Hacc'.
  - intros e [He|He]%elem_of_app; [by apply Hacc'|].
    apply list_elem_of_singleton in He. by subst e.
Qed.

Lemma evaluate_candidate_progress st it modit mi' :
  loop_inv st → candidates_in_pool st →
  it ∈ ancestor_score mempool → it ∉ inBlock (asm st) →
  (∀ x, x ∈ mi' → x ∈ ancestor_score mempool) →
  (∀ e, modit = Some e → e ∈ mapModifiedTx st ∧ iter e = it) →
  (length mi' ≤ length (mi st))%nat →
  (modit = None → (length mi' < length (mi st))%nat) →
  progress st (evaluate_candidate st it modit mi').
Proof.
  intros Hinv [Hmi Hmod] HitU Hit Hmi' Hmodit Hle Hlt.
  assert (Hfail : ∀ failures,
    progress st (Continue (fail_candidate st it
                             (bool_decide (is_Some modit)) mi' failures))).
  { intros failures. split.
    - split; simpl; [done|]. intros e He. apply Hmod.
      case_bool_decide; [|done]. by apply list_elem_of_filter in He as [_ ?].
    - left. unfold Miner.outside, to_visit. simpl. split; [done|].
      destruct modit as [e|].
      + destruct (Hmodit e eq_refl) as [He Hie].
        rewrite bool_decide_eq_true_2 by eauto.
        assert (length (modified_erase it (mapModifiedTx st))
                < length (mapModifiedTx st))%nat; [|lia].
        apply (length_filter_lt _ _ e); [done|]. by intros Hne.
      + rewrite bool_decide_eq_false_2 by (by intros [? ?]).
        specialize (Hlt eq_refl). lia. }
  unfold Miner.evaluate_candidate.
  rewrite bool_decide_eq_false_2 by done.
  destruct (_ <? _); [done|].
  destruct (TestPackage _ _ _) eqn:Htest; cbn [negb].
  2: { destruct (_ && _); [done|]. apply Hfail. }
  destruct (TestPackageTransactions _ _); cbn [negb]; [|apply Hfail].
  set (a := asm st). set (P := package_of a it).
  destruct (add_package (SortForBlock P) a (mapModifiedTx st))
    as (_ & Hin & Hm' & _ & _).
  split.
  - split; simpl; [done|]. apply UpdatePackagesForAdded_pool.
    intros e [He _]%Hm'. by apply Hmod.
  - right. unfold Miner.outside. simpl.
    apply (length_filter_lt_strict _ _ _ it); try done.
    + intros x Hx Hx'. apply Hx. apply Hin. by left.
    + intros Hn. apply Hn. apply Hin. right.
      rewrite (SortForBlock_Permutation P). apply elem_of_package_of.
      by left.
Qed.

Lemma addPackageTxs_step_progress st :
  loop_inv st → candidates_in_pool st →
  mi st ≠ [] ∨ mapModifiedTx st ≠ [] →
  progress st (addPackageTxs_step st).
Proof.
  intros Hinv Hcand Hne. pose proof Hcand as [Hmi Hmod].
  pose proof Hinv as [_ Hm].
  assert (Hmodified : ∀ modit mi',
    modified_begin CompareModifiedEntry (mapModifiedTx st) = Some modit →
    (∀ x, x ∈ mi' → x ∈ ancestor_score mempool) →
    (length mi' ≤ length (mi st))%nat →
    progress st (evaluate_candidate st (iter modit) (Some modit) mi')).
  { intros modit mi' Eb Hmi' Hle.
    pose proof (modified_begin_elem _ _ Eb) as He.
    apply evaluate_candidate_progress; try done.
    - by apply Hmod.
    - by apply Hm.
    - by intros e [= <-]. }
  unfold Miner.addPackageTxs_step.
  destruct (mi st) as [|it mi'] eqn:Emi.
  - destruct (modified_begin _ _) as [modit|] eqn:Eb.
    + apply Hmodified; [done| |try rewrite Emi; simpl; lia].
      by intros x ?%elem_of_nil.
    + destruct (mapModifiedTx st); [|discriminate]. by destruct Hne.
  - assert (Hmi' : ∀ x, x ∈ mi' → x ∈ ancestor_score mempool).
    { intros x Hx. apply Hmi. by right. }
    assert (HitU : it ∈ ancestor_score mempool) by (apply Hmi; left).
    destruct (SkipMapTxEntry _ _ _ _) eqn:Eskip.
    { split; [done|]. left. unfold Miner.outside, to_visit. simpl.
      try rewrite Emi. simpl. lia. }
    assert (Hit : it ∉ inBlock (asm st)).
    { unfold SkipMapTxEntry in Eskip.
      apply orb_false_iff in Eskip as [Eskip _].
      apply orb_false_iff in Eskip as [_ Eskip].
      by apply bool_decide_eq_false_1 in Eskip. }
    assert (Hnone : progress st (evaluate_candidate st it None mi')).
    { apply evaluate_candidate_progress; try done.
      - try rewrite Emi. simpl. lia.
      - intros _. try rewrite Emi. simpl. lia. }
    destruct (modified_begin _ _) as [modit|] eqn:Eb; [|done].
    destruct (CompareModifiedEntry _ _); [|done].
    apply Hmodified; [done| |try rewrite Emi; simpl; lia].
    intros x Hx. apply Hmi. by try rewrite Emi.
Qed.

Lemma addPackageTxs_loop_terminates st :
  loop_inv st → candidates_in_pool st →
  ∃ fuel st', addPackageTxs_loop fuel st = Done st'.
Proof.
  remember (outside st) as na eqn:Ena.
  assert (Hna : (outside st ≤ na)%nat) by lia. clear Ena.
  remember (to_visit st) as nb eqn:Enb.
  assert (Hnb : (to_visit st ≤ nb)%nat) by lia. clear Enb.
  revert nb st Hna Hnb.
  induction na as [na IHa] using lt_wf_ind.
  induction nb as [nb IHb] using lt_wf_ind.
  intros st Hna Hnb Hinv Hcand.
  destruct (decide (mi st = [] ∧ mapModifiedTx st = [])) as [[E1 E2]|Hne].
  { exists 0%nat, st. simpl. by rewrite E1, E2. }
  assert (Hne' : mi st ≠ [] ∨ mapModifiedTx st ≠ []).
  { destruct (mi st); [|by left]. destruct (mapModifiedTx st); [|by right].
    exfalso. by apply Hne. }
  pose proof (addPackageTxs_step_progress st Hinv Hcand Hne') as Hprog.
  pose proof (addPackageTxs_step_inv st Hinv) as Hstep.
  assert (Hloop : ∀ fuel,
    addPackageTxs_loop (S fuel) st =
    match addPackageTxs_step st with
    | Continue st' => addPackageTxs_loop fuel st'
    | Return st' => Done st'
    | AssertionFailed => Aborted
    end).
  { intros fuel. simpl.
    destruct (mi st), (mapModifiedTx st); try done. exfalso. by apply Hne. }
  destruct (addPackageTxs_step st) as [st'|st'|]; [| |done].
  - destruct Hprog as [Hcand' [[Ha Hb]|Ha]].
    + destruct (IHb (to_visit st')) with (st := st')
        as (fuel & st'' & Hdone); try done; try lia.
      exists (S fuel), st''. by rewrite Hloop.
    + destruct (IHa (outside st')) with (nb := to_visit st') (st := st')
        as (fuel & st'' & Hdone); try done; try lia.
      exists (S fuel), st''. by rewrite Hloop.
  - exists 1%nat, st'. by rewrite Hloop.
Qed.

Lemma addPackageTxs_init_candidates :
  candidates_in_pool (addPackageTxs_init mempool resetBlock).
Proof. split; simpl; [done|]. by intros e ?%elem_of_nil. Qed.

Lemma ancestors_first_positions (l : list nat) :
  ancestors_first mempool l →
  ∀ i x, l !! i = Some x → ∀ b, b ∈ anc x →
  ∃ j, (j < i)%nat ∧ l !! j = Some b.
Proof.
  intros Hfirst i x Hi b Hb.
  pose proof (take_drop_middle l i x Hi) as Hsplit.
  pose proof (Hfirst (take i l) x (drop (S i) l) (eq_sym Hsplit) b Hb) as Hin.
  apply list_elem_of_lookup in Hin as [j Hj].
  exists j. apply lookup_take_Some in Hj as [Hj Hlt]. done.
Qed.

Lemma CreateNewBlock_returns :
  ∃ fuel st,
    CreateNewBlock mempool IsFinalTx CompareModifiedEntry
      blockMinFeeRate_GetFee WITNESS_SCALE_FACTOR MAX_BLOCK_SIGOPS_COST
      nBlockMaxWeight fuel = Done st.
Proof.
  apply addPackageTxs_loop_terminates.
  - apply addPackageTxs_init_inv.
  - apply addPackageTxs_init_candidates.
Qed.

Lemma CreateNewBlock_inv fuel st :
  CreateNewBlock mempool IsFinalTx CompareModifiedEntry
    blockMinFeeRate_GetFee WITNESS_SCALE_FACTOR MAX_BLOCK_SIGOPS_COST
    nBlockMaxWeight fuel = Done st →
  loop_inv st.
Proof. apply addPackageTxs_loop_inv, addPackageTxs_init_inv. Qed.

(** *** The accounts of the template *)

Lemma add_package_accounts s a m :
  let r := fold_left (λ am x, (AddToBlock am.1 x, modified_erase x am.2))
             s (a, m) in
  nBlockTx r.1 = nBlockTx a + Z.of_nat (length s) ∧
  nFees r.1 = nFees a + sum_over (fee_of mempool) s ∧
  vTxFees r.1 = vTxFees a ++ (fee_of mempool <$> s) ∧
  vTxSigOpsCost r.1 = vTxSigOpsCost a ++ (sigops_of <$> s).
Proof.
  revert a m. induction s as [|y s IH]; intros a m; simpl.
  - rewrite !app_nil_r. repeat split; lia.
  - destruct (IH (AddToBlock a y) (modified_erase y m))
      as (Hn & Hf & Hvf & Hvs).
    rewrite Hn, Hf, Hvf, Hvs. simpl. rewrite <- !app_assoc.
    repeat split; unfold fee_of, entry; lia.
Qed.

Lemma evaluate_candidate_accounts st it modit mi' :
  loop_inv st → accounts_ok mempool IsFinalTx (asm st) →
  match evaluate_candidate st it modit mi' with
  | Continue st' | Return st' => accounts_ok mempool IsFinalTx (asm st')
  | AssertionFailed => True
  end.
Proof.
  intros [Hb _] Hacc. unfold Miner.evaluate_candidate.
  case_bool_decide as Hit; [done|].
  destruct (_ <? _); [done|].
  destruct (TestPackage _ _ _); cbn [negb].
  2: { by destruct (_ && _). }
  destruct (TestPackageTransactions _ _) eqn:Hfinal; cbn [negb]; [|done].
  set (a := asm st) in *. set (P := package_of a it) in *.
  set (s := SortForBlock P) in *.
  pose proof (SortForBlock_Permutation P) as Hperm. fold s in Hperm.
  destruct (add_package s a (mapModifiedTx st)) as (Hv & _).
  destruct (add_package_accounts s a (mapModifiedTx st))
    as (Hn & Hf & Hvf & Hvs).
  destruct Hacc as (Hnd & Hfin & Hn0 & Hf0 & Hvf0 & Hvs0).
  destruct Hb as (Hin0 & _).
  unfold accounts_ok. cbn [asm]. fold a P s.
  rewrite Hn, Hf, Hvf, Hvs, Hv.
  split; [|split; [|split; [|split; [|split]]]].
  - apply NoDup_app. split; [done|]. split.
    + intros x Hx Hxs. rewrite Hperm in Hxs.
      apply elem_of_package_of in Hxs as [->|[_ Hn']];
        [apply Hit|apply Hn']; by apply Hin0.
    + rewrite Hperm. apply package_of_NoDup.
  - intros x [Hx|Hx]%elem_of_app; [by apply Hfin|].
    rewrite Hperm in Hx. unfold TestPackageTransactions in Hfinal.
    rewrite forallb_forall in Hfinal. apply Hfinal.
    by apply list_elem_of_In.
  - rewrite length_app, Hn0. lia.
  - rewrite sum_over_app, Hf0. lia.
  - by rewrite fmap_app, Hvf0.
  - by rewrite fmap_app, Hvs0.
Qed.

Lemma addPackageTxs_step_accounts st :
  loop_inv st → accounts_ok mempool IsFinalTx (asm st) →
  match addPackageTxs_step st with
  | Continue st' | Return st' => accounts_ok mempool IsFinalTx (asm st')
  | AssertionFailed => True
  end.
Proof.
  intros Hinv Hacc. unfold Miner.addPackageTxs_step.
  destruct (mi st) as [|it mi'].
  - destruct (modified_begin _ _) as [modit|]; [|done].
    by apply evaluate_candidate_accounts.
  - destruct (SkipMapTxEntry _ _ _ _); [done|].
    destruct (modified_begin _ _) as [modit|].
    + destruct (CompareModifiedEntry _ _);
        by apply evaluate_candidate_accounts.
    + by apply evaluate_candidate_accounts.
Qed.

Lemma addPackageTxs_loop_accounts fuel st st' :
  loop_inv st → accounts_ok mempool IsFinalTx (asm st) →
  addPackageTxs_loop fuel st = Done st' →
  accounts_ok mempool IsFinalTx (asm st').
Proof.
  revert st. induction fuel as [|fuel IH]; intros st Hinv Hacc; simpl.
  - destruct (mi st), (mapModifiedTx st); try discriminate.
    by intros [= <-].
  - pose proof (addPackageTxs_step_inv st Hinv) as Hstep.
    pose proof (addPackageTxs_step_accounts st Hinv Hacc) as Hstep'.
    destruct (mi st), (mapModifiedTx st); try (by intros [= <-]);
      destruct (addPackageTxs_step st); try discriminate;
      try (by intros [= <-]); by apply IH.
Qed.

Lemma CreateNewBlock_accounts fuel st :
  CreateNewBlock mempool IsFinalTx CompareModifiedEntry
    blockMinFeeRate_GetFee WITNESS_SCALE_FACTOR MAX_BLOCK_SIGOPS_COST
    nBlockMaxWeight fuel = Done st →
  accounts_ok mempool IsFinalTx (asm st).
Proof.
  apply addPackageTxs_loop_accounts; [apply addPackageTxs_init_inv|].
  simpl. split; [apply NoDup_nil_2|]. split; [|done].
  by intros x ?%elem_of_nil.
Qed.

End Assembler.

(** C6.  On a consistent mempool the selection loop of [CreateNewBlock]
    returns a template, and in every template it returns each ancestor of
    an included transaction is included too, at an earlier position of the
    transaction list. *)
Theorem template_ancestors_first
    mempool IsFinalTx CompareModifiedEntry blockMinFeeRate_GetFee
    WITNESS_SCALE_FACTOR MAX_BLOCK_SIGOPS_COST nBlockMaxWeight :
  consistent mempool WITNESS_SCALE_FACTOR →
  4000 <= nBlockMaxWeight < 2 ^ 63 →
  400 <= MAX_BLOCK_SIGOPS_COST < 2 ^ 63 →
  (∃ fuel st,
     CreateNewBlock mempool IsFinalTx CompareModifiedEntry
       blockMinFeeRate_GetFee WITNESS_SCALE_FACTOR MAX_BLOCK_SIGOPS_COST
       nBlockMaxWeight fuel = Done st) ∧
  (∀ fuel st,
     CreateNewBlock mempool IsFinalTx CompareModifiedEntry
       blockMinFeeRate_GetFee WITNESS_SCALE_FACTOR MAX_BLOCK_SIGOPS_COST
       nBlockMaxWeight fuel = Done st →
     ∀ i x, vtx (asm st) !! i = Some x →
     ∀ b, b ∈ CalculateMemPoolAncestors mempool x →
     ∃ j, (j < i)%nat ∧ vtx (asm st) !! j = Some b).
Proof.
  intros Hpool Hw Hs. split.
  - by apply CreateNewBlock_returns.
  - intros fuel st Hdone.
    pose proof (CreateNewBlock_inv _ _ _ _ _ _ _ Hpool Hw Hs fuel st Hdone)
      as [(_ & Hfirst & _) _].
    by apply ancestors_first_positions.
Qed.

(** C7.  On a consistent mempool, with [nBlockMaxWeight] as the
    constructor clamps it, the selection loop of [CreateNewBlock] returns a
    template, and in every template it returns the weight of the selected
    transactions plus the 4000 reserved for the coinbase is at most
    [nBlockMaxWeight], and their sigop cost plus the 400 reserved is at most
    [MAX_BLOCK_SIGOPS_COST]. *)
Theorem template_within_budget
    mempool IsFinalTx CompareModifiedEntry blockMinFeeRate_GetFee
    WITNESS_SCALE_FACTOR MAX_BLOCK_SIGOPS_COST
    GetMaxBlockWeight options_nBlockMaxWeight :
  consistent mempool WITNESS_SCALE_FACTOR →
  4000 <= GetMaxBlockWeight < 2 ^ 63 →
  400 <= MAX_BLOCK_SIGOPS_COST < 2 ^ 63 →
  let nBlockMaxWeight :=
    clamp_nBlockMaxWeight GetMaxBlockWeight options_nBlockMaxWeight in
  (∃ fuel st,
     CreateNewBlock mempool IsFinalTx CompareModifiedEntry
       blockMinFeeRate_GetFee WITNESS_SCALE_FACTOR MAX_BLOCK_SIGOPS_COST
       nBlockMaxWeight fuel = Done st) ∧
  (∀ fuel st,
     CreateNewBlock mempool IsFinalTx CompareModifiedEntry
       blockMinFeeRate_GetFee WITNESS_SCALE_FACTOR MAX_BLOCK_SIGOPS_COST
       nBlockMaxWeight fuel = Done st →
     sum_over (weight_of mempool) (vtx (asm st)) + 4000 <= nBlockMaxWeight ∧
     sum_over (sigops_of mempool) (vtx (asm st)) + 400
     <= MAX_BLOCK_SIGOPS_COST).
Proof.
  intros Hpool Hg Hs nBlockMaxWeight.
  assert (Hw : 4000 <= nBlockMaxWeight < 2 ^ 63).
  { unfold nBlockMaxWeight, clamp_nBlockMaxWeight, wrap64.
    rewrite (Z.mod_small (GetMaxBlockWeight - 4000)) by lia.
    pose proof (Z.mod_pos_bound options_nBlockMaxWeight (2 ^ 64)). lia. }
  split.
  - by apply CreateNewBlock_returns.
  - intros fuel st Hdone.
    pose proof (CreateNewBlock_inv _ _ _ _ _ _ _ Hpool Hw Hs fuel st Hdone)
      as [(_ & _ & Hw1 & Hw2 & Hs1 & Hs2) _].
    lia.
Qed.

(** ** The sample pool *)

Lemma sample_pool_consistent : consistent sample_pool 4.
Proof.
  split.
  - intros x a b Ha Hb. destruct x as [|[|[|x]]]; simpl in *;
      try (by apply elem_of_nil in Ha).
    apply list_elem_of_singleton in Ha. subst a. simpl in Hb.
    by apply elem_of_nil in Hb.
  - intros x a Ha. destruct x as [|[|[|x]]]; simpl in *;
      try (by apply elem_of_nil in Ha).
    apply list_elem_of_singleton in Ha. by subst a.
  - intros x. destruct x as [|[|[|x]]]; simpl;
      try apply NoDup_nil_2. apply NoDup_singleton.
  - intros x d Hd. destruct x as [|[|[|x]]]; simpl in *.
    + apply elem_of_cons in Hd as [->|Hd]; [by left|].
      apply list_elem_of_singleton in Hd. subst d. right. simpl. left.
    + apply list_elem_of_singleton in Hd. by left.
    + apply list_elem_of_singleton in Hd. by left.
    + by apply elem_of_nil in Hd.
  - intros x. destruct x as [|[|[|x]]]; simpl;
      try apply NoDup_nil_2; try apply NoDup_singleton.
    apply NoDup_cons. split; [|apply NoDup_singleton].
    by intros ?%list_elem_of_singleton.
  - intros x d Hd. destruct x as [|[|[|x]]]; simpl in *;
      repeat (apply elem_of_cons in Hd as [->|Hd]);
      try (by apply elem_of_nil in Hd);
      repeat (first [left; reflexivity | right]).
  - intros x. by destruct x as [|[|[|x]]].
  - intros x. by destruct x as [|[|[|x]]].
  - intros x. by destruct x as [|[|[|x]]].
  - intros x. by destruct x as [|[|[|x]]].
  - intros x. by destruct x as [|[|[|x]]].
  - intros x. by destruct x as [|[|[|x]]].
  - done.
  - intros x. by destruct x as [|[|[|x]]].
  - intros x. by destruct x as [|[|[|x]]].
Qed.

Lemma template_ancestors_first_witness :
  ∃ st,
    sample_CreateNewBlock 10 = Done st ∧
    vtx (asm st) = [0; 2; 1]%nat ∧
    (∀ i x, vtx (asm st) !! i = Some x →
     ∀ b, b ∈ CalculateMemPoolAncestors sample_pool x →
     ∃ j, (j < i)%nat ∧ vtx (asm st) !! j = Some b).
Proof.
  assert (Hw : 4000 <= clamp_nBlockMaxWeight 4000000 3996000 < 2 ^ 63)
    by (vm_compute; split; [discriminate|reflexivity]).
  assert (Hs : 400 <= 80000 < 2 ^ 63) by lia.
  pose proof (template_ancestors_first sample_pool (λ _, true) sample_compare
                sample_min_fee 4 80000 _ sample_pool_consistent Hw Hs)
    as [_ Hall].
  destruct (sample_CreateNewBlock 10) as [st| |] eqn:E;
    [|vm_compute in E; discriminate E..].
  exists st. split; [reflexivity|]. split.
  - vm_compute in E. by injection E as <-.
  - by apply (Hall 10%nat st).
Defined.

Lemma template_within_budget_witness :
  ∃ st,
    sample_CreateNewBlock 10 = Done st ∧
    sum_over (weight_of sample_pool) (vtx (asm st)) + 4000
    <= clamp_nBlockMaxWeight 4000000 3996000 ∧
    sum_over (sigops_of sample_pool) (vtx (asm st)) + 400 <= 80000.
Proof.
  assert (Hg : 4000 <= 4000000 < 2 ^ 63) by lia.
  assert (Hs : 400 <= 80000 < 2 ^ 63) by lia.
  pose proof (template_within_budget sample_pool (λ _, true) sample_compare
                sample_min_fee 4 80000 4000000 3996000
                sample_pool_consistent Hg Hs) as [_ Hall].
  destruct (sample_CreateNewBlock 10) as [st| |] eqn:E;
    [|vm_compute in E; discriminate E..].
  exists st. split; [reflexivity|]. by apply (Hall 10%nat st).
Defined.

(** ** More about the template *)

(** X21.  On a consistent mempool the selection loop of [CreateNewBlock]
    returns a template, and in every template it returns no transaction is
    listed twice and every listed transaction passed [IsFinalTx]. *)
Theorem template_final_no_duplicates
    mempool IsFinalTx CompareModifiedEntry blockMinFeeRate_GetFee
    WITNESS_SCALE_FACTOR MAX_BLOCK_SIGOPS_COST nBlockMaxWeight :
  consistent mempool WITNESS_SCALE_FACTOR →
  4000 <= nBlockMaxWeight < 2 ^ 63 →
  400 <= MAX_BLOCK_SIGOPS_COST < 2 ^ 63 →
  (∃ fuel st,
     CreateNewBlock mempool IsFinalTx CompareModifiedEntry
       blockMinFeeRate_GetFee WITNESS_SCALE_FACTOR MAX_BLOCK_SIGOPS_COST
       nBlockMaxWeight fuel = Done st) ∧
  (∀ fuel st,
     CreateNewBlock mempool IsFinalTx CompareModifiedEntry
       blockMinFeeRate_GetFee WITNESS_SCALE_FACTOR MAX_BLOCK_SIGOPS_COST
       nBlockMaxWeight fuel = Done st →
     NoDup (vtx (asm st)) ∧
     (∀ x, x ∈ vtx (asm st) → IsFinalTx x = true) ∧
     (∀ x, x ∈ inBlock (asm st) ↔ x ∈ vtx (asm st))).
Proof.
  intros Hpool Hw Hs. split.
  - by apply CreateNewBlock_returns.
  - intros fuel st Hdone.
    pose proof (CreateNewBlock_accounts _ _ _ _ _ _ _ Hpool Hw Hs fuel st
                  Hdone) as (Hnd & Hfin & _).
    pose proof (CreateNewBlock_inv _ _ _ _ _ _ _ Hpool Hw Hs fuel st Hdone)
      as [(Hin & _) _].
    done.
Qed.


Lemma template_final_no_duplicates_witness :
  ∃ st,
    sample_CreateNewBlock 10 = Done st ∧
    NoDup (vtx (asm st)) ∧
    (∀ x, x ∈ inBlock (asm st) ↔ x ∈ vtx (asm st)).
Proof.
  assert (Hw : 4000 <= clamp_nBlockMaxWeight 4000000 3996000 < 2 ^ 63)
    by (vm_compute; split; [discriminate|reflexivity]).
  assert (Hs : 400 <= 80000 < 2 ^ 63) by lia.
  pose proof (template_final_no_duplicates sample_pool (λ _, true)
                sample_compare sample_min_fee 4 80000 _
                sample_pool_consistent Hw Hs) as [_ Hall].
  destruct (sample_CreateNewBlock 10) as [st| |] eqn:E;
    [|vm_compute in E; discriminate E..].
  exists st. split; [reflexivity|].
  destruct (Hall 10%nat st E) as (H1 & _ & H3). split; [exact H1|exact H3].
Defined.


(** X23.  When the mempool is empty, or when the first entry in
    ancestor-score order has package fees below
    [blockMinFeeRate.GetFee(package size)], the selection loop of
    [CreateNewBlock] returns on its first pass with nothing selected: the
    template is the one [resetBlock] left, whatever else the pool holds. *)
Theorem CreateNewBlock_nothing_selected
    mempool IsFinalTx CompareModifiedEntry blockMinFeeRate_GetFee
    WITNESS_SCALE_FACTOR MAX_BLOCK_SIGOPS_COST nBlockMaxWeight :
  (ancestor_score mempool = [] →
   ∀ fuel, ∃ st,
     CreateNewBlock mempool IsFinalTx CompareModifiedEntry
       blockMinFeeRate_GetFee WITNESS_SCALE_FACTOR MAX_BLOCK_SIGOPS_COST
       nBlockMaxWeight fuel = Done st ∧ asm st = resetBlock) ∧
  (∀ it rest,
     ancestor_score mempool = it :: rest →
     GetModFeesWithAncestors (mapTx mempool it)
     < blockMinFeeRate_GetFee (GetSizeWithAncestors (mapTx mempool it)) →
     ∀ fuel, ∃ st,
       CreateNewBlock mempool IsFinalTx CompareModifiedEntry
         blockMinFeeRate_GetFee WITNESS_SCALE_FACTOR MAX_BLOCK_SIGOPS_COST
         nBlockMaxWeight (S fuel) = Done st ∧ asm st = resetBlock).
Proof.
  split.
  - intros Hscore fuel.
    exists (addPackageTxs_init mempool resetBlock). split; [|reflexivity].
    unfold CreateNewBlock, addPackageTxs, addPackageTxs_init.
    cbn [UpdatePackagesForAdded resetBlock inBlock fold_left fst snd].
    rewrite Hscore. by destruct fuel.
  - intros it rest Hscore Hfee fuel.
    unfold CreateNewBlock, addPackageTxs, addPackageTxs_init.
    cbn [UpdatePackagesForAdded resetBlock inBlock fold_left fst snd].
    rewrite Hscore.
    cbn [addPackageTxs_loop mi mapModifiedTx].
    unfold addPackageTxs_step.
    cbn [mi mapModifiedTx asm failedTx].
    assert (Hskip : SkipMapTxEntry resetBlock it [] [] = false)
      by reflexivity.
    rewrite Hskip. cbn [modified_begin]. unfold evaluate_candidate.
    cbn [asm].
    assert (Hin : bool_decide (it ∈ inBlock resetBlock) = false)
      by reflexivity.
    rewrite Hin. unfold entry. apply Z.ltb_lt in Hfee. rewrite Hfee.
    eexists. split; reflexivity.
Qed.

Lemma CreateNewBlock_nothing_selected_witness :
  ∃ st,
    CreateNewBlock sample_pool (λ _, true) sample_compare (λ _, 1000000)
      4 80000 (clamp_nBlockMaxWeight 4000000 3996000) 1 = Done st ∧
    asm st = resetBlock.
Proof.
  apply (proj2 (CreateNewBlock_nothing_selected sample_pool (λ _, true)
                  sample_compare (λ _, 1000000) 4 80000
                  (clamp_nBlockMaxWeight 4000000 3996000))
           2%nat [1; 0]%nat).
  - reflexivity.
  - vm_compute. reflexivity.
Defined.

(** X24.  The constructor of [BlockAssembler] keeps [nBlockMaxWeight]
    between 4000 and [GetMaxBlockWeight() - 4000], whatever the option
    holds, and leaves an option inside that range as it is. *)
Theorem clamp_nBlockMaxWeight_range GetMaxBlockWeight options_nBlockMaxWeight :
  8000 <= GetMaxBlockWeight < 2 ^ 64 →
  4000 <= clamp_nBlockMaxWeight GetMaxBlockWeight options_nBlockMaxWeight
       <= GetMaxBlockWeight - 4000 ∧
  (4000 <= options_nBlockMaxWeight <= GetMaxBlockWeight - 4000 →
   clamp_nBlockMaxWeight GetMaxBlockWeight options_nBlockMaxWeight
   = options_nBlockMaxWeight).
Proof.
  intros Hg. unfold clamp_nBlockMaxWeight, wrap64.
  rewrite (Z.mod_small (GetMaxBlockWeight - 4000)) by lia.
  pose proof (Z.mod_pos_bound options_nBlockMaxWeight (2 ^ 64)).
  split; [lia|]. intros Ho.
  rewrite (Z.mod_small options_nBlockMaxWeight) by lia. lia.
Qed.

Lemma clamp_nBlockMaxWeight_range_witness :
  4000 <= clamp_nBlockMaxWeight 4000000 (-1) <= 4000000 - 4000 ∧
  clamp_nBlockMaxWeight 4000000 3996000 = 3996000.
Proof.
  assert (Hg : 8000 <= 4000000 < 2 ^ 64) by lia.
  destruct (clamp_nBlockMaxWeight_range 4000000 (-1) Hg) as [H1 _].
  destruct (clamp_nBlockMaxWeight_range 4000000 3996000 Hg) as [_ H2].
  split; [exact H1|]. apply H2. lia.
Defined.

End MinerProofs.


Module CoinstakeProofs.
Import Coinstake.

Section Commitment.

Variable OP_RETURN : byte.
Variable IsEmpty : CTxOut → bool.

Local Abbreviation is_commitment := (is_commitment OP_RETURN).
Local Abbreviation commitment_step := (commitment_step OP_RETURN).

Lemma int_of_size_t_small o : 0 <= o < 2 ^ 31 → int_of_size_t o = o.
Proof.
  intros Ho. unfold int_of_size_t. rewrite Z.mod_small by lia. lia.
Qed.

(** The loop, started at index [o] with position [pos]: the position of
    the last commitment among the outputs, or [pos] when there is none. *)
Lemma commitment_fold (outs : list CTxOut) (o pos : Z) :
  0 <= o → o + Z.of_nat (length outs) < 2 ^ 31 →
  ((fold_left commitment_step outs (o, pos)).2 = pos ∧
   ∀ out, out ∈ outs → is_commitment out = false) ∨
  (∃ i out,
     (fold_left commitment_step outs (o, pos)).2 = o + Z.of_nat i ∧
     outs !! i = Some out ∧ is_commitment out = true ∧
     ∀ j out', (i < j)%nat → outs !! j = Some out' →
               is_commitment out' = false).
Proof.
  revert o pos. induction outs as [|out outs IH]; intros o pos Ho Hlen.
  - left. split; [done|]. by intros out ?%elem_of_nil.
  - change (fold_left commitment_step (out :: outs) (o, pos))
      with (fold_left commitment_step outs
              (o + 1, if is_commitment out then int_of_size_t o else pos)).
    simpl length in Hlen.
    destruct (IH (o + 1)
                (if is_commitment out then int_of_size_t o else pos))
      as [[Hr Hall]|(i & out' & Hr & Hi & Hc & Hlast)]; [lia|lia| |].
    + rewrite Hr. destruct (is_commitment out) eqn:Hout.
      * right. exists 0%nat, out.
        rewrite int_of_size_t_small by lia.
        split; [simpl; lia|]. split; [done|]. split; [done|].
        intros j out' Hj Hl. destruct j as [|j]; [lia|].
        simpl in Hl. apply Hall. by eapply list_elem_of_lookup_2.
      * left. split; [done|].
        intros out' [->|Hin]%elem_of_cons; [done|]. by apply Hall.
    + right. exists (S i), out'. rewrite Hr.
      split; [lia|]. split; [done|]. split; [done|].
      intros j out'' Hj Hl. destruct j as [|j]; [lia|].
      simpl in Hl. apply (Hlast j); [lia|done].
Qed.

(** X29.  For a block whose first transaction has fewer than 2^31 outputs,
    [GetWitnessCommitmentIndexPos] returns -1 exactly when no output of
    that transaction carries the commitment header in a script of at least
    38 bytes, and otherwise the index of the last output that does; and
    when [CheckFirstCoinstakeOutput] accepts the block, the transaction
    has either one output, empty and without commitment, or two, the first
    empty and the second of value 0, one of them with the commitment. *)
Theorem GetWitnessCommitmentIndexPos_last (tx0 : CTransaction)
    (rest : list CTransaction) :
  Z.of_nat (length (vout tx0)) < 2 ^ 31 →
  let block := {| vtx := tx0 :: rest |} in
  let pos := GetWitnessCommitmentIndexPos OP_RETURN block in
  (pos = -1 ↔ ∀ out, out ∈ vout tx0 → is_commitment out = false) ∧
  (pos ≠ -1 →
   ∃ i out, pos = Z.of_nat i ∧ vout tx0 !! i = Some out ∧
            is_commitment out = true ∧
            ∀ j out', (i < j)%nat → vout tx0 !! j = Some out' →
                      is_commitment out' = false) ∧
  (CheckFirstCoinstakeOutput OP_RETURN IsEmpty block = Some true →
   (∃ out0, vout tx0 = [out0] ∧ IsEmpty out0 = true ∧
            is_commitment out0 = false) ∨
   (∃ out0 out1, vout tx0 = [out0; out1] ∧ IsEmpty out0 = true ∧
                 nValue out1 = 0 ∧
                 (is_commitment out0 = true ∨ is_commitment out1 = true))).
Proof.
  intros Hlen block pos.
  assert (Hfold :
    (pos = -1 ∧ ∀ out, out ∈ vout tx0 → is_commitment out = false) ∨
    (∃ i out, pos = Z.of_nat i ∧ vout tx0 !! i = Some out ∧
              is_commitment out = true ∧
              ∀ j out', (i < j)%nat → vout tx0 !! j = Some out' →
                        is_commitment out' = false)).
  { destruct (commitment_fold (vout tx0) 0 (-1)) as [H|H];
      [lia|lia|by left|right].
    destruct H as (i & out & Hr & H). exists i, out.
    split; [|done]. unfold pos, GetWitnessCommitmentIndexPos. simpl.
    rewrite Hr. lia. }
  split; [|split].
  - destruct Hfold as [[-> Hall]|(i & out & -> & Hi & Hc & _)].
    + done.
    + split; [lia|]. intros Hall.
      rewrite Hall in Hc by (by eapply list_elem_of_lookup_2). done.
  - intros Hne. destruct Hfold as [[? _]|H]; done.
  - unfold CheckFirstCoinstakeOutput. fold block. fold pos. simpl.
    destruct (Z.ltb_spec pos 0) as [Hneg|Hpos].
    + destruct (vout tx0) as [|out0 [|out1 outs]] eqn:Ev; try discriminate.
      destruct (IsEmpty out0) eqn:He; [|discriminate]. intros _. left.
      exists out0. split; [done|]. split; [done|].
      destruct Hfold as [[_ Hall]|(i & out & -> & _)]; [|lia].
      apply Hall. left.
    + destruct (vout tx0) as [|out0 [|out1 [|out2 outs]]] eqn:Ev;
        try discriminate.
      destruct (IsEmpty out0) eqn:He; [|discriminate].
      destruct (Z.eqb_spec (nValue out1) 0) as [Hv|Hv]; [|discriminate].
      intros _. right. exists out0, out1.
      split; [done|]. split; [done|]. split; [done|].
      destruct Hfold as [[-> _]|(i & out & _ & Hi & Hc & _)]; [lia|].
      destruct i as [|[|i]]; simpl in Hi.
      * left. by injection Hi as <-.
      * right. by injection Hi as <-.
      * discriminate.
Qed.

End Commitment.

Lemma GetWitnessCommitmentIndexPos_last_witness :
  GetWitnessCommitmentIndexPos x6a sample_coinbase = 1 ∧
  CheckFirstCoinstakeOutput x6a
    (λ out, (nValue out =? 0) && bool_decide (scriptPubKey out = []))
    sample_coinbase = Some true.
Proof.
  assert (Hlen : Z.of_nat (length [ {| nValue := 0; scriptPubKey := [] |};
                                    sample_commitment ]) < 2 ^ 31)
    by (vm_compute; reflexivity).
  pose proof (GetWitnessCommitmentIndexPos_last x6a
                (λ out, (nValue out =? 0)
                        && bool_decide (scriptPubKey out = []))
                {| vout := [ {| nValue := 0; scriptPubKey := [] |};
                             sample_commitment ] |} [] Hlen) as (_ & H2 & _).
  split; [|vm_compute; reflexivity].
  destruct H2 as (i & out & Hp & Hi & Hc & Hlast).
  - vm_compute. discriminate.
  - destruct i as [|[|i]]; simpl in Hi.
    + injection Hi as <-. vm_compute in Hc. discriminate.
    + exact Hp.
    + discriminate.
Defined.

End CoinstakeProofs.
